(** * jschema.dev data-model builder: schema relationships, connection
      validation, JSON export/import, instance naming and persistence.

    A shallow embedding of the TypeScript sources in Rocq.

    Modelling conventions, shared by every module below.

    - A JavaScript value that comes from a JSON document is a [json] tree;
      [undefined] is the [None] of [option json] (type [value]).  An object is
      the list of its own enumerable properties in enumeration order; keys of
      a well-formed object are pairwise distinct.  Own properties only: the
      members an object inherits from [Object.prototype] ([toString],
      [constructor], ...) are outside the model.
    - Reading a property of [null] or [undefined], calling a string method on
      a non-string, and iterating a non-iterable raise a [TypeError]; such code
      lives in the [outcome] monad and returns [Throw].  Recursion that the
      source does not bound is given a fuel argument and returns [Diverge]
      when the fuel runs out.
    - Strings are sequences of 8-bit characters ([string]); [toLowerCase]
      maps 'A'..'Z' only.
    - Numbers that the code counts with are naturals ([N], [nat]) and stay
      below 2^53, where the arithmetic of JavaScript numbers is exact. *)

From Stdlib Require Import String Ascii List ZArith NArith Lia Bool.
From Stdlib Require Import DecimalString DecimalN Decimal.
From Stdlib Require QArith.
From stdpp Require Import gmap strings.
Import ListNotations.

Open Scope string_scope.
Open Scope list_scope.

(* ===================================================================== *)
(** * Part I: the embedding                                               *)
(* ===================================================================== *)

(** ** JavaScript values and the primitives the sources use *)
Module JS.

(** Completion of a computation. *)
Inductive outcome (A : Type) : Type :=
| Ret (a : A)      (* normal completion with a value *)
| Throw            (* an exception propagates to the caller *)
| Diverge.         (* the recursion budget is exhausted *)
Arguments Ret {A} a.
Arguments Throw {A}.
Arguments Diverge {A}.

Definition bind {A B} (m : outcome A) (k : A -> outcome B) : outcome B :=
  match m with
  | Ret a => k a
  | Throw => Throw
  | Diverge => Diverge
  end.

#[warnings="-register-all"]
Inductive json : Type :=
| JNull
| JBool (b : bool)
| JNum (n : Z)
| JStr (s : string)
| JArr (xs : list json)
| JObj (kvs : list (string * json)).

(** A value or [undefined]. *)
Definition value : Type := option json.
Definition undefined : value := None.

(** [!!v] *)
Definition truthy (v : value) : bool :=
  match v with
  | None => false
  | Some JNull => false
  | Some (JBool b) => b
  | Some (JNum n) => negb (Z.eqb n 0)
  | Some (JStr s) => negb (String.eqb s "")
  | Some (JArr _) => true
  | Some (JObj _) => true
  end.

(** [typeof v === 'object'] *)
Definition typeof_object (v : value) : bool :=
  match v with
  | Some JNull | Some (JArr _) | Some (JObj _) => true
  | _ => false
  end.

(** [typeof v === 'string'] *)
Definition typeof_string (v : value) : bool :=
  match v with
  | Some (JStr _) => true
  | _ => false
  end.

(** [Array.isArray(v)] *)
Definition isArray (v : value) : bool :=
  match v with
  | Some (JArr _) => true
  | _ => false
  end.

(** [v === s] for a string literal [s]. *)
Definition is_str (v : value) (s : string) : bool :=
  match v with
  | Some (JStr t) => String.eqb t s
  | _ => false
  end.

(** [o[k]] on the own properties of an object. *)
Fixpoint assoc {A} (k : string) (kvs : list (string * A)) : option A :=
  match kvs with
  | [] => None
  | (k', v) :: rest => if String.eqb k' k then Some v else assoc k rest
  end.

(** [o[k] = v]: overwrite in place, or append a new property. *)
Fixpoint assign {A} (kvs : list (string * A)) (k : string) (v : A)
  : list (string * A) :=
  match kvs with
  | [] => [(k, v)]
  | (k', v') :: rest =>
      if String.eqb k' k then (k', v) :: rest else (k', v') :: assign rest k v
  end.

(** [v.k]: a [TypeError] on [null] and [undefined]; the property names the
    sources read are never array indices nor [length], so strings, numbers,
    booleans and arrays have none of them. *)
Definition get (v : value) (k : string) : outcome value :=
  match v with
  | None | Some JNull => Throw
  | Some (JObj kvs) => Ret (assoc k kvs)
  | Some _ => Ret undefined
  end.

(** [v?.k] *)
Definition getq (v : value) (k : string) : value :=
  match v with
  | Some (JObj kvs) => assoc k kvs
  | _ => undefined
  end.

Fixpoint index_from {A} (i : nat) (xs : list A) : list (string * A) :=
  match xs with
  | [] => []
  | x :: rest => (NilZero.string_of_uint (Nat.to_uint i), x) :: index_from (S i) rest
  end.

(** [Object.entries(v)] for a truthy [v]: the properties of an object, the
    indexed elements of an array, the indexed characters of a string. *)
Definition entries (v : json) : list (string * json) :=
  match v with
  | JObj kvs => kvs
  | JArr xs => index_from 0 xs
  | JStr s => index_from 0 (map (fun c => JStr (String c "")) (list_ascii_of_string s))
  | _ => []
  end.

(** [Object.keys(v)] *)
Definition keys (v : json) : list string := map fst (entries v).

(** [{...acc, ...v}] *)
Definition spread (acc : list (string * json)) (v : json) : list (string * json) :=
  fold_left (fun a kv => assign a (fst kv) (snd kv)) (entries v) acc.

(** [xs.some(f)] and [xs.every(f)] for a callback that may throw. *)
Fixpoint some {A} (f : A -> outcome bool) (xs : list A) : outcome bool :=
  match xs with
  | [] => Ret false
  | x :: rest => bind (f x) (fun b => if b then Ret true else some f rest)
  end.

Fixpoint every {A} (f : A -> outcome bool) (xs : list A) : outcome bool :=
  match xs with
  | [] => Ret true
  | x :: rest => bind (f x) (fun b => if b then every f rest else Ret false)
  end.

(** A loop that pushes what each iteration yields. *)
Fixpoint collect {A B} (f : A -> outcome (list B)) (xs : list A) : outcome (list B) :=
  match xs with
  | [] => Ret []
  | x :: rest =>
      bind (f x) (fun ys => bind (collect f rest) (fun zs => Ret (ys ++ zs)))
  end.

(** [[...new Set(xs)]]: first occurrences, in insertion order. *)
Definition setAdd (seen : list string) (x : string) : list string :=
  if existsb (String.eqb x) seen then seen else seen ++ [x].

Definition dedupe (xs : list string) : list string := fold_left setAdd xs [].

(** *** Strings *)

(** [s.startsWith(p)] *)
Definition startsWith (s p : string) : bool := String.prefix p s.

(** [s.endsWith(suf)] *)
Fixpoint endsWith (s suf : string) : bool :=
  String.eqb s suf ||
  match s with
  | EmptyString => false
  | String _ s' => endsWith s' suf
  end.

(** [s.includes(sub)] *)
Fixpoint includes (s sub : string) : bool :=
  String.prefix sub s ||
  match s with
  | EmptyString => false
  | String _ s' => includes s' sub
  end.

(** [s.split(c)] for a single-character separator. *)
Fixpoint split (c : ascii) (s : string) : list string :=
  match s with
  | EmptyString => [EmptyString]
  | String a s' =>
      if Ascii.eqb a c then EmptyString :: split c s'
      else match split c s' with
           | [] => [String a EmptyString]
           | h :: t => String a h :: t
           end
  end.

(** [parts.join(sep)] *)
Definition join (sep : string) (parts : list string) : string :=
  String.concat sep parts.

(** [xs.pop()] as an expression: the last element, if any. *)
Definition pop_value {A} (xs : list A) : option A := last xs.

(** [s.lastIndexOf(c)], -1 when [c] does not occur. *)
Fixpoint lastIndexOf_from (c : ascii) (s : string) (i : Z) (found : Z) : Z :=
  match s with
  | EmptyString => found
  | String a s' => lastIndexOf_from c s' (i + 1) (if Ascii.eqb a c then i else found)
  end.

Definition lastIndexOf (s : string) (c : ascii) : Z := lastIndexOf_from c s 0 (-1).

(** [s.substring(0, e)]: a negative [e] counts as 0, one past the end as
    the length. *)
Definition substring0 (s : string) (e : Z) : string :=
  String.substring 0 (Z.to_nat e) s.

Definition lower (c : ascii) : ascii :=
  let n := nat_of_ascii c in
  if (65 <=? n)%nat && (n <=? 90)%nat then ascii_of_nat (n + 32) else c.

(** [s.toLowerCase()] *)
Fixpoint toLowerCase (s : string) : string :=
  match s with
  | EmptyString => EmptyString
  | String a s' => String (lower a) (toLowerCase s')
  end.

Fixpoint drop (n : nat) (s : string) : string :=
  match n, s with
  | O, _ => s
  | S _, EmptyString => EmptyString
  | S n', String _ s' => drop n' s'
  end.

(** [s.replace(pat, '')] for a string pattern: the first occurrence only. *)
Fixpoint removeFirst (pat : string) (s : string) : string :=
  if String.prefix pat s then drop (String.length pat) s
  else match s with
       | EmptyString => EmptyString
       | String a s' => String a (removeFirst pat s')
       end.

(** The characters of a string. *)
Definition chars (s : string) : list ascii := list_ascii_of_string s.

(** The text of [s] before its first ['#']. *)
Fixpoint beforeHash (s : string) : string :=
  match s with
  | EmptyString => EmptyString
  | String a s' => if Ascii.eqb a "#" then EmptyString else String a (beforeHash s')
  end.

End JS.

Notation "x <- c1 ;; c2" := (JS.bind c1 (fun x => c2))
  (at level 100, c1 at next level, right associativity).

(** ** src/utils/schemaRelationships.ts *)
Module SchemaRelationships.
Import JS.

Inductive Cardinality : Type := one | many.

Record ConnectionRule : Type := {
  propertyPath : string;
  targetSchemaPath : string;
  cardinality : Cardinality;
  required : bool
}.

(** The schema catalog [Record<string, any>]: catalog keys in enumeration
    order. *)
Definition catalog : Type := list (string * json).

Definition primitivePatterns : list string :=
  [ "/primitives/";
    "/string.schema.json";
    "/integer.schema.json";
    "/number.schema.json";
    "/boolean.schema.json";
    "/binary-flag.schema.json";
    "/numeric-string.schema.json";
    "/non-empty-string.schema.json";
    "/positive-integer.schema.json";
    "/short-code-string.schema.json";
    "/datatype.schema.json";
    "/datatype-enum.schema.json" ].

Definition singleFieldPatterns : list string :=
  [ "id.schema.json";
    "name.schema.json";
    "description.schema.json";
    "key.schema.json";
    "value.schema.json" ].

(** [isPrimitiveSchemaPath], lines 77-119. *)
Definition isPrimitiveSchemaPath (schemaPath : string) : bool :=
  let lowerPath := toLowerCase schemaPath in
  if existsb (fun pattern => includes lowerPath (toLowerCase pattern)) primitivePatterns
  then true
  else
    let fileName :=
      match pop_value (split "/" schemaPath) with
      | Some f => toLowerCase f
      | None => ""
      end in
    existsb (fun pattern => endsWith fileName pattern) singleFieldPatterns.

(** [isPrimitiveSchemaPath] called on a value typed [any]: only a string has
    [toLowerCase]. *)
Definition isPrimitiveSchemaPath_any (v : value) : outcome bool :=
  match v with
  | Some (JStr s) => Ret (isPrimitiveSchemaPath s)
  | _ => Throw
  end.

Definition primitiveTypes : list string :=
  ["string"; "number"; "integer"; "boolean"; "null"].

(** [primitiveTypes.includes(v)] *)
Definition isPrimitiveType (v : value) : bool :=
  match v with
  | Some (JStr s) => existsb (String.eqb s) primitiveTypes
  | _ => false
  end.

(** [s.items?.$ref], truthy or not. *)
Definition hasItemsRef (s : json) : outcome bool :=
  items <- get (Some s) "items" ;;
  Ret (truthy (getq items "$ref")).

(** [isPrimitiveSchema], lines 124-159. *)
Definition isPrimitiveSchema (schema : value) : outcome bool :=
  if negb (truthy schema) || negb (typeof_object schema) then Ret false else
  ty <- get schema "type" ;;
  if isPrimitiveType ty then Ret true else
  ref <- get schema "$ref" ;;
  if truthy ref && typeof_string ref then isPrimitiveSchemaPath_any ref else
  allOf <- get schema "allOf" ;;
  match allOf with
  | Some (JArr subs) =>
      itemsRef <- some hasItemsRef subs ;;
      if itemsRef then Ret false else
      hasObjectProperties <-
        some (fun s => p <- get (Some s) "properties" ;; Ret (truthy p)) subs ;;
      if negb hasObjectProperties then
        allPrimitive <-
          every (fun s =>
                   r <- get (Some s) "$ref" ;;
                   if truthy r then isPrimitiveSchemaPath_any r else
                   t <- get (Some s) "type" ;;
                   if truthy t then Ret (isPrimitiveType t) else Ret true) subs ;;
        if allPrimitive then Ret true else Ret false
      else Ret false
  | _ => Ret false
  end.

(** [isArraySchemaWithItems], lines 165-188. *)
Definition isArraySchemaWithItems (schema : value) : outcome bool :=
  if negb (truthy schema) || negb (typeof_object schema) then Ret false else
  ty <- get schema "type" ;;
  items <- get schema "items" ;;
  if is_str ty "array" && truthy (getq items "$ref") then Ret true else
  if truthy (getq items "$ref") then Ret true else
  allOf <- get schema "allOf" ;;
  match allOf with
  | Some (JArr subs) => some hasItemsRef subs
  | _ => Ret false
  end.

(** [parts.filter(p => p)] *)
Definition nonEmpty (p : string) : bool := negb (String.eqb p "").

(** [basePath.substring(0, basePath.lastIndexOf('/'))] *)
Definition baseDirOf (basePath : string) : string :=
  substring0 basePath (lastIndexOf basePath "/").

(** One round of the loop over [relParts]: [pop] on ['..'], nothing on ['.'],
    [push] otherwise. *)
Definition applyPart (resultParts : list string) (part : string) : list string :=
  if String.eqb part ".." then removelast resultParts
  else if negb (String.eqb part ".") then resultParts ++ [part]
  else resultParts.

(** [resolveRelativePath], lines 190-206. *)
Definition resolveRelativePath (basePath relativePath : string) : string :=
  let baseDir := baseDirOf basePath in
  let baseParts := List.filter nonEmpty (split "/" baseDir) in
  let relParts := List.filter nonEmpty (split "/" relativePath) in
  let resultParts := fold_left applyPart relParts baseParts in
  join "/" resultParts.

(** [ref.match(/^([^#]+)/)]: the capture group, when the match succeeds. *)
Definition matchRef (ref : string) : option string :=
  let m := beforeHash ref in
  if String.eqb m "" then None else Some m.

(** The block that [processProperty] repeats for each kind of reference
    (lines 227-233, 286-292, 324-330): resolve [refPath] against
    [schemaPath]. *)
Definition resolveRef (schemaPath refPath : string) : string :=
  if startsWith refPath "../" || startsWith refPath "./" then
    resolveRelativePath schemaPath refPath
  else if negb (includes refPath "/") then
    let baseDir := baseDirOf schemaPath in
    if nonEmpty baseDir then baseDir +:+ "/" +:+ refPath else refPath
  else refPath.

(** [Object.keys(schemas).find(key => key.endsWith(refPath) ||
    refPath.endsWith(key))] *)
Definition findMatchingKey (schemas : catalog) (refPath : string) : option string :=
  List.find (fun key => endsWith key refPath || endsWith refPath key) (map fst schemas).

(** The catalog lookup of the direct-reference and pattern-property branches
    (lines 242-252, 338-348): the exact key, else the first key that matches
    by suffix; yields the schema found and the key it was found under. *)
Definition lookupFlexible (schemas : option catalog) (refPath : string)
  : value * string :=
  match schemas with
  | None => (undefined, refPath)
  | Some cat =>
      let refSchema := assoc refPath cat in
      if truthy refSchema then (refSchema, refPath)
      else
        match findMatchingKey cat refPath with
        | Some matchingKey =>
            if nonEmpty matchingKey then (assoc matchingKey cat, matchingKey)
            else (refSchema, refPath)
        | None => (refSchema, refPath)
        end
  end.

Definition mkRule (propName target : string) (c : Cardinality) (requiredFields : list json)
  : ConnectionRule :=
  {| propertyPath := propName;
     targetSchemaPath := target;
     cardinality := c;
     required := existsb (fun j => is_str (Some j) propName) requiredFields |}.

(** The reference text accepted by all three branches: a non-empty string
    whose part before ['#'] is non-empty and ends in ['.json']. *)
Definition schemaFileRef (ref : value) : option string :=
  match ref with
  | Some (JStr r) =>
      if String.eqb r "" then None else
      match matchRef r with
      | Some m => if endsWith m ".json" then Some m else None
      | None => None
      end
  | _ => None
  end.

(** The loop over [Object.keys(propValue.patternProperties)], lines 319-363:
    [continue] on a primitive target, [break] after the first rule. *)
Fixpoint patternRules (schemaPath : string) (schemas : option catalog)
  (requiredFields : list json) (propName : string)
  (patterns : list (string * json)) : outcome (list ConnectionRule) :=
  match patterns with
  | [] => Ret []
  | (_, patternDef) :: rest =>
      ref <- get (Some patternDef) "$ref" ;;
      if truthy ref && typeof_string ref then
        match schemaFileRef ref with
        | Some m =>
            let refPath := resolveRef schemaPath m in
            if isPrimitiveSchemaPath refPath then
              patternRules schemaPath schemas requiredFields propName rest
            else
              let '(refSchema, actualRefPath) := lookupFlexible schemas refPath in
              prim <- (if truthy refSchema then isPrimitiveSchema refSchema else Ret false) ;;
              if prim then patternRules schemaPath schemas requiredFields propName rest
              else Ret [mkRule propName actualRefPath many requiredFields]
        | None => patternRules schemaPath schemas requiredFields propName rest
        end
      else patternRules schemaPath schemas requiredFields propName rest
  end.

(** [processProperty], lines 220-365; the result is what the call pushes on
    [rules].  The tests [type === 'array'] and [type === 'object'] exclude one
    another, so the two [if] statements that follow the direct-reference case
    are written as one conditional. *)
Definition processProperty (schemaPath : string) (schemas : option catalog)
  (requiredFields : list json) (propName : string) (propValue : json)
  : outcome (list ConnectionRule) :=
  if negb (truthy (Some propValue)) || negb (typeof_object (Some propValue)) then Ret [] else
  ref <- get (Some propValue) "$ref" ;;
  if truthy ref && typeof_string ref then
    (* Direct $ref *)
    match schemaFileRef ref with
    | Some m =>
        let refPath := resolveRef schemaPath m in
        if isPrimitiveSchemaPath refPath then Ret [] else
        let '(refSchema, refPath) := lookupFlexible schemas refPath in
        if truthy refSchema then
          prim <- isPrimitiveSchema refSchema ;;
          if prim then Ret [] else
          arr <- isArraySchemaWithItems refSchema ;;
          if arr then Ret [mkRule propName refPath many requiredFields]
          else Ret [mkRule propName refPath one requiredFields]
        else Ret [mkRule propName refPath one requiredFields]
    | None => Ret []
    end
  else
  ty <- get (Some propValue) "type" ;;
  items <- get (Some propValue) "items" ;;
  if is_str ty "array" && truthy items then
    (* Array with $ref items *)
    itemsRef <- get items "$ref" ;;
    if truthy itemsRef && typeof_string itemsRef then
      match schemaFileRef itemsRef with
      | Some m =>
          let refPath := resolveRef schemaPath m in
          if isPrimitiveSchemaPath refPath then Ret [] else
          let found :=
            match schemas with
            | Some cat => assoc refPath cat
            | None => undefined
            end in
          prim <- (if truthy found then isPrimitiveSchema found else Ret false) ;;
          if prim then Ret []
          else Ret [mkRule propName refPath many requiredFields]
      | None => Ret []
      end
    else Ret []
  else
  patternProperties <- get (Some propValue) "patternProperties" ;;
  if is_str ty "object" && truthy patternProperties then
    (* Object with patternProperties containing $ref *)
    match patternProperties with
    | Some pp => patternRules schemaPath schemas requiredFields propName (entries pp)
    | None => Ret []
    end
  else Ret [].

(** [new Set<string>(schema.required || [])]: the elements of the set. *)
Definition requiredFieldsOf (schema : value) : outcome (list json) :=
  r <- get schema "required" ;;
  if truthy r then
    match r with
    | Some (JArr xs) => Ret xs
    | Some (JStr s) => Ret (map (fun c => JStr (String c "")) (list_ascii_of_string s))
    | _ => Throw
    end
  else Ret [].

(** [properties = { ...properties, ...v }] when [v] is a truthy object. *)
Definition mergeProperties (properties : list (string * json)) (v : value)
  : list (string * json) :=
  match v with
  | Some j => if truthy v && typeof_object v then spread properties j else properties
  | None => properties
  end.

Fixpoint mergeAllOf (properties : list (string * json)) (subs : list json)
  : outcome (list (string * json)) :=
  match subs with
  | [] => Ret properties
  | subSchema :: rest =>
      p <- get (Some subSchema) "properties" ;;
      mergeAllOf (mergeProperties properties p) rest
  end.

(** The local helper [getSchemaProperties] of [getSchemaConnectionRules],
    lines 368-386. *)
Definition getSchemaProperties (schemaObj : value) : outcome (list (string * json)) :=
  p <- get schemaObj "properties" ;;
  let properties := mergeProperties [] p in
  allOf <- get schemaObj "allOf" ;;
  match allOf with
  | Some (JArr subs) => mergeAllOf properties subs
  | _ => Ret properties
  end.

(** [getSchemaConnectionRules], lines 216-395. *)
Definition getSchemaConnectionRules (schema : value) (schemaPath : string)
  (schemas : option catalog) : outcome (list ConnectionRule) :=
  requiredFields <- requiredFieldsOf schema ;;
  properties <- getSchemaProperties schema ;;
  collect (fun kv => processProperty schemaPath schemas requiredFields (fst kv) (snd kv))
          properties.

End SchemaRelationships.

(** ** src/utils/builderTypes.ts *)
Module BuilderTypes.
Import JS.

Record Position : Type := { pos_x : Z; pos_y : Z }.

Record DataInstance : Type := {
  inst_id : string;
  inst_schemaPath : string;
  inst_position : Position;
  inst_data : json
}.

Record DataConnection : Type := {
  conn_id : string;
  sourceId : string;
  targetId : string;
  conn_propertyPath : string
}.

(** [`${n}`] for a counter value. *)
Definition numberToString (n : N) : string := NilZero.string_of_uint (N.to_uint n).

(** The module-level [instanceCounters : Map<string, number>], passed in and
    out of the functions that use it. *)
Definition baseNameOf (schemaPath : string) : string :=
  let fileName :=
    match pop_value (split "/" schemaPath) with
    | Some f => if String.eqb f "" then schemaPath else f
    | None => schemaPath
    end in
  removeFirst ".json" (removeFirst ".schema.json" fileName).

(** [instanceCounters.get(baseName) || 0] *)
Definition countOf (instanceCounters : gmap string N) (baseName : string) : N :=
  default 0%N (instanceCounters !! baseName).

(** [generateInstanceId], lines 43-54: the identifier and the counters after
    the call. *)
Definition generateInstanceId (schemaPath : string) (instanceCounters : gmap string N)
  : string * gmap string N :=
  let baseName := baseNameOf schemaPath in
  let currentCount := countOf instanceCounters baseName in
  let newCount := (currentCount + 1)%N in
  (baseName +:+ "-" +:+ numberToString newCount,
   <[baseName := newCount]> instanceCounters).

(** [resetInstanceCounters] *)
Definition resetInstanceCounters (instanceCounters : gmap string N) : gmap string N :=
  ∅.

(** [setInstanceCounter] *)
Definition setInstanceCounter (baseName : string) (v : N)
  (instanceCounters : gmap string N) : gmap string N :=
  <[baseName := v]> instanceCounters.

(** A run of [generateInstanceId] calls, one per path, with nothing else
    touching the counters in between. *)
Fixpoint generateAll (paths : list string) (instanceCounters : gmap string N)
  : list string * gmap string N :=
  match paths with
  | [] => ([], instanceCounters)
  | p :: rest =>
      let '(i, c1) := generateInstanceId p instanceCounters in
      let '(ids, c2) := generateAll rest c1 in
      (i :: ids, c2)
  end.

End BuilderTypes.

(** ** utils/connectionValidator.ts

    The repository holds two revisions of this file.  [ConnectionValidator]
    is the one with [resolveTargetSchemaPath] (it passes the catalog to the
    rule extractor and accepts a target through array and union wrappers);
    [ConnectionValidatorExact] is the one under src/utils, which compares the
    rule's target with the target instance's schema path directly.  The
    checks that follow the schema test are the same text in both. *)
Module ConnectionValidator.
Import JS SchemaRelationships BuilderTypes.

Record ValidationResult : Type := {
  valid : bool;
  reason : option string
}.

Definition rejected (why : string) : ValidationResult :=
  {| valid := false; reason := Some why |}.

Definition accepted : ValidationResult := {| valid := true; reason := None |}.

(** [getConnectionRulesForSchema] *)
Definition getConnectionRulesForSchema (schema : value) (schemaPath : string)
  (schemas : option catalog) : outcome (list ConnectionRule) :=
  getSchemaConnectionRules schema schemaPath schemas.

(** [resolveRefPath] *)
Definition resolveRefPath (ref basePath : string) : string :=
  let refPath := List.hd "" (split "#" ref) in
  if startsWith refPath "../" || startsWith refPath "./" then
    let baseDir := substring0 basePath (lastIndexOf basePath "/") in
    let baseParts := List.filter nonEmpty (split "/" baseDir) in
    let relParts := List.filter nonEmpty (split "/" refPath) in
    let resultParts := fold_left applyPart relParts baseParts in
    join "/" resultParts
  else if negb (includes refPath "/") then
    let baseDir := substring0 basePath (lastIndexOf basePath "/") in
    if nonEmpty baseDir then baseDir +:+ "/" +:+ refPath else refPath
  else refPath.

(** [resolveRefPath] on a reference typed [any]: only a string has [split]. *)
Definition resolveRefPath_any (ref : value) (basePath : string) : outcome string :=
  match ref with
  | Some (JStr r) => Ret (resolveRefPath r basePath)
  | _ => Throw
  end.

(** The schema and the key [resolveTargetSchemaPath] works with: the exact
    key, else the first key matching by suffix. *)
Definition locate (schemas : catalog) (schemaPath : string) : value * string :=
  let schema := assoc schemaPath schemas in
  if negb (truthy schema) then
    match findMatchingKey schemas schemaPath with
    | Some matchingKey =>
        if nonEmpty matchingKey then (assoc matchingKey schemas, matchingKey)
        else (schema, schemaPath)
    | None => (schema, schemaPath)
    end
  else (schema, schemaPath).

Section ResolveStep.

(** The recursive call [resolveTargetSchemaPath(ref, schemas)]. *)
Variable recur : string -> outcome (list string).

(** [results.push(ref); results.push(...resolveTargetSchemaPath(ref,
    schemas))] for a reference [ref] of the schema found at [actualPath]. *)
Definition follow (actualPath : string) (ref : value) : outcome (list string) :=
  r <- resolveRefPath_any ref actualPath ;;
  rec <- recur r ;;
  Ret (r :: rec).

(** One round of the loop over [schema.allOf]. *)
Definition followItems (actualPath : string) (sub : json) : outcome (list string) :=
  items <- get (Some sub) "items" ;;
  if truthy (getq items "$ref") then follow actualPath (getq items "$ref") else Ret [].

(** One round of the loops over [schema.anyOf] and [schema.oneOf]. *)
Definition followRef (actualPath : string) (sub : json) : outcome (list string) :=
  ref <- get (Some sub) "$ref" ;;
  if truthy ref then follow actualPath ref else Ret [].

(** The body of [resolveTargetSchemaPath]. *)
Definition resolveStep (schemaPath : string) (schemas : catalog) : outcome (list string) :=
  let schema := fst (locate schemas schemaPath) in
  let actualPath := snd (locate schemas schemaPath) in
  if negb (truthy schema) then Ret [schemaPath] else
  items <- get schema "items" ;;
  r1 <- (if truthy (getq items "$ref") then follow actualPath (getq items "$ref")
         else Ret []) ;;
  allOf <- get schema "allOf" ;;
  r2 <- match allOf with
        | Some (JArr subs) => collect (followItems actualPath) subs
        | _ => Ret []
        end ;;
  anyOf <- get schema "anyOf" ;;
  r3 <- match anyOf with
        | Some (JArr subs) => collect (followRef actualPath) subs
        | _ => Ret []
        end ;;
  oneOf <- get schema "oneOf" ;;
  r4 <- match oneOf with
        | Some (JArr subs) => collect (followRef actualPath) subs
        | _ => Ret []
        end ;;
  Ret (dedupe (actualPath :: r1 ++ r2 ++ r3 ++ r4)).

End ResolveStep.

(** [resolveTargetSchemaPath].  The source recurses without a bound. *)
Fixpoint resolveTargetSchemaPath (fuel : nat) (schemaPath : string) (schemas : catalog)
  : outcome (list string) :=
  match fuel with
  | O => Diverge
  | S fuel' =>
      resolveStep (fun ref => resolveTargetSchemaPath fuel' ref schemas) schemaPath schemas
  end.

(** [existingConnections.find(conn => conn.sourceId === sourceInstanceId &&
    conn.propertyPath === propertyPath)], as a test. *)
Definition occupies (sourceInstanceId propertyPath : string) (conn : DataConnection) : bool :=
  String.eqb (sourceId conn) sourceInstanceId &&
  String.eqb (conn_propertyPath conn) propertyPath.

Definition sameTriple (sourceInstanceId targetInstanceId propertyPath : string)
  (conn : DataConnection) : bool :=
  String.eqb (sourceId conn) sourceInstanceId &&
  String.eqb (targetId conn) targetInstanceId &&
  String.eqb (conn_propertyPath conn) propertyPath.

(** The cardinality, self-loop and duplicate checks that end
    [validateConnection]. *)
Definition checkCardinality (rule : ConnectionRule)
  (sourceInstanceId targetInstanceId propertyPath : string)
  (existingConnections : list DataConnection) : ValidationResult :=
  if match cardinality rule with
     | one => existsb (occupies sourceInstanceId propertyPath) existingConnections
     | many => false
     end
  then rejected ("Property '" +:+ propertyPath +:+
                 "' already has a connection (one-to-one). Remove existing connection first.")
  else if String.eqb sourceInstanceId targetInstanceId
  then rejected "Cannot connect an instance to itself"
  else if existsb (sameTriple sourceInstanceId targetInstanceId propertyPath) existingConnections
  then rejected "This exact connection already exists"
  else accepted.

(** [rules.find(r => r.propertyPath === propertyPath)] *)
Definition findRule (rules : list ConnectionRule) (p : string) : option ConnectionRule :=
  List.find (fun r => String.eqb (propertyPath r) p) rules.

(** [validateConnection] *)
Definition validateConnection (fuel : nat)
  (sourceInstanceId targetInstanceId propertyPath : string)
  (existingConnections : list DataConnection)
  (schemas : catalog) (instances : gmap string DataInstance)
  : outcome ValidationResult :=
  match instances !! sourceInstanceId with
  | None => Ret (rejected ("Source instance not found: " +:+ sourceInstanceId))
  | Some sourceInstance =>
  match instances !! targetInstanceId with
  | None => Ret (rejected ("Target instance not found: " +:+ targetInstanceId))
  | Some targetInstance =>
      let sourceSchema := assoc (inst_schemaPath sourceInstance) schemas in
      if negb (truthy sourceSchema) then
        Ret (rejected ("Source schema not found: " +:+ inst_schemaPath sourceInstance))
      else
      rules <- getConnectionRulesForSchema sourceSchema (inst_schemaPath sourceInstance)
                 (Some schemas) ;;
      match findRule rules propertyPath with
      | None =>
          Ret (rejected ("Property '" +:+ propertyPath +:+
                         "' does not have a $ref in schema " +:+
                         inst_schemaPath sourceInstance))
      | Some rule =>
          resolvedTargets <- resolveTargetSchemaPath fuel (targetSchemaPath rule) schemas ;;
          if negb (existsb (String.eqb (inst_schemaPath targetInstance)) resolvedTargets) then
            Ret (rejected ("Property '" +:+ propertyPath +:+ "' expects " +:+
                           targetSchemaPath rule +:+ ", got " +:+
                           inst_schemaPath targetInstance))
          else
            Ret (checkCardinality rule sourceInstanceId targetInstanceId propertyPath
                   existingConnections)
      end
  end
  end.

(** [propose-connection]: the connection is appended when, and only when,
    the validator answers [valid: true]. *)
Definition propose (fuel : nat) (schemas : catalog) (instances : gmap string DataInstance)
  (existingConnections : list DataConnection) (c : DataConnection)
  : list DataConnection :=
  match validateConnection fuel (sourceId c) (targetId c) (conn_propertyPath c)
          existingConnections schemas instances with
  | Ret r => if valid r then existingConnections ++ [c] else existingConnections
  | _ => existingConnections
  end.

End ConnectionValidator.

Module ConnectionValidatorExact.
Import JS SchemaRelationships BuilderTypes.
Import ConnectionValidator.

(** [validateConnection], src/utils/connectionValidator.ts lines 91-185. *)
Definition validateConnection
  (sourceInstanceId targetInstanceId propertyPath : string)
  (existingConnections : list DataConnection)
  (schemas : catalog) (instances : gmap string DataInstance)
  : outcome ValidationResult :=
  match instances !! sourceInstanceId with
  | None => Ret (rejected ("Source instance not found: " +:+ sourceInstanceId))
  | Some sourceInstance =>
  match instances !! targetInstanceId with
  | None => Ret (rejected ("Target instance not found: " +:+ targetInstanceId))
  | Some targetInstance =>
      let sourceSchema := assoc (inst_schemaPath sourceInstance) schemas in
      if negb (truthy sourceSchema) then
        Ret (rejected ("Source schema not found: " +:+ inst_schemaPath sourceInstance))
      else
      rules <- getSchemaConnectionRules sourceSchema (inst_schemaPath sourceInstance) None ;;
      match findRule rules propertyPath with
      | None =>
          Ret (rejected ("Property '" +:+ propertyPath +:+
                         "' does not have a $ref in schema " +:+
                         inst_schemaPath sourceInstance))
      | Some rule =>
          if negb (String.eqb (targetSchemaPath rule) (inst_schemaPath targetInstance)) then
            Ret (rejected ("Property '" +:+ propertyPath +:+ "' expects " +:+
                           targetSchemaPath rule +:+ ", got " +:+
                           inst_schemaPath targetInstance))
          else
            Ret (checkCardinality rule sourceInstanceId targetInstanceId propertyPath
                   existingConnections)
      end
  end
  end.

Definition propose (schemas : catalog) (instances : gmap string DataInstance)
  (existingConnections : list DataConnection) (c : DataConnection)
  : list DataConnection :=
  match validateConnection (sourceId c) (targetId c) (conn_propertyPath c)
          existingConnections schemas instances with
  | Ret r => if valid r then existingConnections ++ [c] else existingConnections
  | _ => existingConnections
  end.

End ConnectionValidatorExact.

(** ** utils/dataModelExport.ts: export

    [buildObjectFromInstance] and [exportToJson] are the same text in both
    revisions of the file. *)
Module DataModelExport.
Import JS SchemaRelationships BuilderTypes.

(** [node.data] of a builder node ([BuilderNodeData], minus what only the
    user interface reads). *)
Record NodeData : Type := {
  nd_instanceId : string;
  nd_schemaPath : string;
  nd_schemaTitle : json;
  nd_values : option (list (string * json))
}.

Record Node : Type := {
  node_id : string;
  node_position : Position;
  node_data : option NodeData
}.

Record Edge : Type := {
  edge_id : string;
  source : string;
  target : string;
  sourceHandle : option string;
  edge_stroke : string
}.

Record ExportOptions : Type := {
  includeMetadata : bool;
  rootInstanceId : option string
}.

(** [getDefaultValue]; [propertyDef] is read only once it is known to be
    truthy, so the reads cannot throw. *)
Definition getDefaultValue (propertyDef : json) : json :=
  if negb (truthy (Some propertyDef)) then JNull else
  match getq (Some propertyDef) "default" with
  | Some d => d
  | None =>
      let ty := getq (Some propertyDef) "type" in
      if is_str ty "array" then JArr []
      else if is_str ty "object" then JObj []
      else JNull
  end.

(** [findRootInstances] *)
Definition findRootInstances (nodes : list Node) (edges : list Edge) : list string :=
  let targetIds := map target edges in
  map node_id
    (List.filter (fun node => negb (existsb (String.eqb (node_id node)) targetIds)) nodes).

(** [getInstanceConnections] *)
Definition getInstanceConnections (nodeId : string) (edges : list Edge) : list Edge :=
  List.filter (fun edge => String.eqb (source edge) nodeId) edges.

(** The [connectionsByProperty] map of [buildObjectFromInstance]. *)
Definition groupByProperty (outgoingConnections : list Edge) : gmap string (list Edge) :=
  fold_left
    (fun m edge =>
       let propertyPath := default "" (sourceHandle edge) in
       <[propertyPath := default [] (m !! propertyPath) ++ [edge]]> m)
    outgoingConnections ∅.

(** [visited.add(nodeId)] on a [Set<string>] kept in insertion order. *)
Definition visitedAdd (visited : list string) (nodeId : string) : list string :=
  if existsb (String.eqb nodeId) visited then visited else visited ++ [nodeId].

(** An exported object, or [null]. *)
Definition built : Type := option (list (string * json)).

Definition jsonOfBuilt (b : built) : json :=
  match b with
  | Some o => JObj o
  | None => JNull
  end.

Section PropertyLoop.

(** The recursive call [buildObjectFromInstance(id, nodes, edges, schemas,
    visited, options)]: what it returns and the [visited] set it leaves. *)
Variable build : string -> list string -> outcome (built * list string).

(** The loop of a 'many' property: every child is built on [new Set(visited)],
    so what the child adds is not seen by the caller. *)
Fixpoint buildItems (connections : list Edge) (visited : list string)
  : outcome (list json) :=
  match connections with
  | [] => Ret []
  | connection :: rest =>
      r <- build (target connection) visited ;;
      items <- buildItems rest visited ;;
      Ret (match fst r with
           | Some o => JObj o :: items
           | None => items
           end)
  end.

(** One round of the loop over [Object.entries(schema.properties)]. *)
Definition buildProperty (connectionRules : list ConnectionRule)
  (connectionsByProperty : gmap string (list Edge))
  (nodeValues : list (string * json))
  (st : list (string * json) * list string) (prop : string * json)
  : outcome (list (string * json) * list string) :=
  let '(result, visited) := st in
  let '(propName, propDef) := prop in
  if existsb (String.eqb propName) (map propertyPath connectionRules) then
    match List.find (fun r => String.eqb (propertyPath r) propName) connectionRules with
    | Some rule =>
        let connections := default [] (connectionsByProperty !! propName) in
        match cardinality rule with
        | one =>
            match connections with
            | first :: _ =>
                (* the child shares [visited] *)
                r <- build (target first) visited ;;
                Ret (assign result propName (jsonOfBuilt (fst r)), snd r)
            | [] => Ret (assign result propName JNull, visited)
            end
        | many =>
            items <- buildItems connections visited ;;
            Ret (assign result propName (JArr items), visited)
        end
    | None => Ret (result, visited)
    end
  else
    let v :=
      match assoc propName nodeValues with
      | Some userValue => userValue
      | None => getDefaultValue propDef
      end in
    Ret (assign result propName v, visited).

Fixpoint buildProperties (connectionRules : list ConnectionRule)
  (connectionsByProperty : gmap string (list Edge))
  (nodeValues : list (string * json))
  (props : list (string * json))
  (st : list (string * json) * list string)
  : outcome (list (string * json) * list string) :=
  match props with
  | [] => Ret st
  | prop :: rest =>
      st' <- buildProperty connectionRules connectionsByProperty nodeValues st prop ;;
      buildProperties connectionRules connectionsByProperty nodeValues rest st'
  end.

End PropertyLoop.

(** [buildObjectFromInstance]: the object (or [null]) and the [visited] set
    after the call. *)
Fixpoint buildObjectFromInstance (fuel : nat) (nodeId : string)
  (nodes : list Node) (edges : list Edge) (schemas : catalog)
  (visited : list string) (options : option ExportOptions)
  : outcome (built * list string) :=
  match fuel with
  | O => Diverge
  | S fuel' =>
      if existsb (String.eqb nodeId) visited then Ret (None, visited) else
      let visited := visitedAdd visited nodeId in
      match List.find (fun n => String.eqb (node_id n) nodeId) nodes with
      | None => Ret (None, visited)
      | Some node =>
          match node_data node with
          | None => Ret (None, visited)
          | Some data =>
              let schemaPath := nd_schemaPath data in
              if String.eqb schemaPath "" then Ret (None, visited) else
              let schema := assoc schemaPath schemas in
              if negb (truthy schema) then Ret (None, visited) else
              let nodeValues := default [] (nd_values data) in
              let result :=
                match options with
                | Some o =>
                    if includeMetadata o
                    then [("_schemaPath", JStr schemaPath); ("_instanceId", JStr nodeId)]
                    else []
                | None => []
                end in
              connectionRules <- getSchemaConnectionRules schema schemaPath None ;;
              let outgoingConnections := getInstanceConnections nodeId edges in
              let connectionsByProperty := groupByProperty outgoingConnections in
              properties <- get schema "properties" ;;
              match properties with
              | Some props =>
                  if truthy properties && typeof_object properties then
                    st <- buildProperties
                            (fun id v =>
                               buildObjectFromInstance fuel' id nodes edges schemas v options)
                            connectionRules connectionsByProperty nodeValues
                            (entries props) (result, visited) ;;
                    Ret (Some (fst st), snd st)
                  else Ret (Some result, visited)
              | None => Ret (Some result, visited)
              end
          end
      end
  end.

(** The loop of [exportToJson] over the roots, each on a fresh [visited]. *)
Fixpoint exportRoots (fuel : nat) (idsToExport : list string)
  (nodes : list Node) (edges : list Edge) (schemas : catalog)
  (options : option ExportOptions) : outcome (list json) :=
  match idsToExport with
  | [] => Ret []
  | rootId :: rest =>
      r <- buildObjectFromInstance fuel rootId nodes edges schemas [] options ;;
      results <- exportRoots fuel rest nodes edges schemas options ;;
      Ret (match fst r with
           | Some o => JObj o :: results
           | None => results
           end)
  end.

(** [exportToJson] *)
Definition exportToJson (fuel : nat) (nodes : list Node) (edges : list Edge)
  (schemas : catalog) (options : option ExportOptions) : outcome json :=
  match nodes with
  | [] => Ret (JArr [])
  | _ :: _ =>
      let root :=
        match options with
        | Some o =>
            match rootInstanceId o with
            | Some r => if String.eqb r "" then None else Some r
            | None => None
            end
        | None => None
        end in
      match root with
      | Some r =>
          res <- buildObjectFromInstance fuel r nodes edges schemas [] options ;;
          Ret (match fst res with
               | Some o => JObj o
               | None => JObj []
               end)
      | None =>
          let rootIds := findRootInstances nodes edges in
          let idsToExport :=
            match rootIds with
            | [] => map node_id nodes
            | _ :: _ => rootIds
            end in
          results <- exportRoots fuel idsToExport nodes edges schemas options ;;
          match results with
          | [single] => Ret single
          | _ => Ret (JArr results)
          end
      end
  end.

End DataModelExport.

(** ** utils/dataModelExport.ts: import *)
Module DataModelImport.
Import JS SchemaRelationships BuilderTypes DataModelExport.

(** Imported data.  [importFromJson] keys a [Map] by object identity, so
    every array and object carries the address that identifies it; the same
    object reached through two paths has the same address. *)
#[warnings="-register-all"]
Inductive jdata : Type :=
| DNull
| DBool (b : bool)
| DNum (n : Z)
| DStr (s : string)
| DArr (addr : nat) (xs : list jdata)
| DObj (addr : nat) (fields : list (string * jdata)).

(** The value without its addresses. *)
Fixpoint erase (d : jdata) : json :=
  match d with
  | DNull => JNull
  | DBool b => JBool b
  | DNum n => JNum n
  | DStr s => JStr s
  | DArr _ xs => JArr (map erase xs)
  | DObj _ fields => JObj (map (fun kv => let '(k, v) := kv in (k, erase v)) fields)
  end.

Definition address (d : jdata) : option nat :=
  match d with
  | DArr a _ | DObj a _ => Some a
  | _ => None
  end.

(** [Object.entries(d)] for a [d] other than [null]. *)
Definition dentries (d : jdata) : list (string * jdata) :=
  match d with
  | DObj _ fields => fields
  | DArr _ xs => index_from 0 xs
  | DStr s => index_from 0 (map (fun c => DStr (String c "")) (list_ascii_of_string s))
  | _ => []
  end.

(** [typeof d === 'object' && d !== null] *)
Definition isObjectLike (d : jdata) : bool :=
  match d with
  | DArr _ _ | DObj _ _ => true
  | _ => false
  end.

(** A score [num / den] as [findMatchingSchema] computes it; [0 / 0] is
    [NaN].  Both parts are key counts, for which the division and the
    comparisons of JavaScript numbers agree with the rationals. *)
Record Score : Type := { num : nat; den : nat }.

Definition isNaN (s : Score) : bool := Nat.eqb (den s) 0.

(** [a > b] *)
Definition score_gt (a b : Score) : bool :=
  negb (isNaN a) && negb (isNaN b) && Nat.ltb (num b * den a) (num a * den b).

(** [a >= 0.5] *)
Definition score_ge_half (a : Score) : bool :=
  negb (isNaN a) && Nat.leb (den a) (2 * num a).

Section Importing.

(** [JSON.stringify] on imported data, and the conversion of a non-string
    entry of [required] to a property key: library functions the import reads
    but this development does not define. *)
Variable stringify : jdata -> string.
Variable toPropertyKey : json -> string.

Definition propertyKey (prop : json) : string :=
  match prop with
  | JStr s => s
  | other => toPropertyKey other
  end.

(** [prop in data] *)
Definition hasProperty (data : jdata) (prop : json) : outcome bool :=
  match data with
  | DObj _ fields => Ret (existsb (String.eqb (propertyKey prop)) (map fst fields))
  | DArr _ xs =>
      Ret (existsb (String.eqb (propertyKey prop)) (map fst (index_from 0 xs)) ||
           String.eqb (propertyKey prop) "length")
  | _ => Throw
  end.

(** One round of the loop of [findMatchingSchema]: [None] when the schema is
    skipped ([continue]), its score otherwise. *)
Definition scoreSchema (data : jdata) (dataKeys : list string) (schemaObj : json)
  : outcome (option Score) :=
  properties <- get (Some schemaObj) "properties" ;;
  ty <- get (Some schemaObj) "type" ;;
  if negb (truthy properties) || negb (is_str ty "object") then Ret None else
  let schemaProps :=
    match properties with
    | Some p => keys p
    | None => []
    end in
  req <- get (Some schemaObj) "required" ;;
  requiredProps <- (if truthy req then
                      match req with
                      | Some (JArr xs) => Ret xs
                      | _ => Throw
                      end
                    else Ret []) ;;
  hasAllRequired <- every (hasProperty data) requiredProps ;;
  if negb hasAllRequired then Ret None else
  let matchingProps :=
    List.filter (fun key => existsb (String.eqb key) schemaProps) dataKeys in
  Ret (Some {| num := length matchingProps;
               den := Nat.max (length dataKeys) (length schemaProps) |}).

(** [if (!bestMatch || score > bestMatch.score) bestMatch = ...] *)
Definition better (bestMatch : option (string * Score)) (schemaPath : string) (score : Score)
  : option (string * Score) :=
  match bestMatch with
  | None => Some (schemaPath, score)
  | Some (_, bestScore) =>
      if score_gt score bestScore then Some (schemaPath, score) else bestMatch
  end.

(** The loop of [findMatchingSchema] over [Object.entries(schemas)]. *)
Fixpoint scanSchemas (data : jdata) (dataKeys : list string) (schemas : catalog)
  (bestMatch : option (string * Score)) : outcome (option (string * Score)) :=
  match schemas with
  | [] => Ret bestMatch
  | (schemaPath, schemaObj) :: rest =>
      c <- scoreSchema data dataKeys schemaObj ;;
      scanSchemas data dataKeys rest
        (match c with
         | Some score => better bestMatch schemaPath score
         | None => bestMatch
         end)
  end.

(** The keys of [data] that do not start with an underscore. *)
Definition dataKeysOf (data : jdata) : list string :=
  List.filter (fun k => negb (startsWith k "_")) (map fst (dentries data)).

(** [findMatchingSchema] *)
Definition findMatchingSchema (data : jdata) (schemas : catalog)
  : outcome (option (string * Score)) :=
  match data with
  | DNull => Throw
  | _ =>
      bestMatch <- scanSchemas data (dataKeysOf data) schemas None ;;
      Ret (match bestMatch with
           | Some (schemaPath, score) =>
               if score_ge_half score then Some (schemaPath, score) else None
           | None => None
           end)
  end.

(** What [importFromJson] accumulates, with the instance counters of
    [builderTypes]. *)
Record ImportState : Type := {
  nodes : list Node;
  edges : list Edge;
  errors : list string;
  instanceMap : gmap nat string;
  nodeIndex : nat;
  instanceCounters : gmap string N
}.

Definition pushError (st : ImportState) (e : string) : ImportState :=
  {| nodes := nodes st; edges := edges st; errors := errors st ++ [e];
     instanceMap := instanceMap st; nodeIndex := nodeIndex st;
     instanceCounters := instanceCounters st |}.

Definition pushEdge (st : ImportState) (e : Edge) : ImportState :=
  {| nodes := nodes st; edges := edges st ++ [e]; errors := errors st;
     instanceMap := instanceMap st; nodeIndex := nodeIndex st;
     instanceCounters := instanceCounters st |}.

Definition pushNode (st : ImportState) (n : Node) : ImportState :=
  {| nodes := nodes st ++ [n]; edges := edges st; errors := errors st;
     instanceMap := instanceMap st; nodeIndex := S (nodeIndex st);
     instanceCounters := instanceCounters st |}.

Definition registerInstance (st : ImportState) (dataObj : jdata) (instanceId : string)
  (counters : gmap string N) : ImportState :=
  {| nodes := nodes st; edges := edges st; errors := errors st;
     instanceMap := match address dataObj with
                    | Some a => <[a := instanceId]> (instanceMap st)
                    | None => instanceMap st
                    end;
     nodeIndex := nodeIndex st;
     instanceCounters := counters |}.

(** [createEdge] *)
Definition createEdge (id src tgt handle : string) (isArray : bool) : Edge :=
  {| edge_id := id; source := src; target := tgt; sourceHandle := Some handle;
     edge_stroke := if isArray then "#ffa726" else "#61dafb" |}.

(** [parentId && propertyPath] *)
Definition parentLink (parentId propertyPath : option string) : option (string * string) :=
  match parentId, propertyPath with
  | Some p, Some q => if nonEmpty p && nonEmpty q then Some (p, q) else None
  | _, _ => None
  end.

Definition edgeIdOf (parentId childId propertyPath : string) : string :=
  "e-" +:+ parentId +:+ "-" +:+ childId +:+ "-" +:+ propertyPath.

Definition NODE_WIDTH : Z := 320.
Definition NODE_HEIGHT : Z := 200.
Definition HORIZONTAL_GAP : Z := 100.
Definition VERTICAL_GAP : Z := 80.

(** The message recorded for an object no schema matches. *)
Definition unmatchedMessage (dataObj : jdata) : string :=
  "Could not find matching schema for object: " +:+
  String.substring 0 100 (stringify dataObj) +:+ "...".

Section Children.

(** The recursive call [createNodeFromData(dataObj, position, parentId,
    propertyPath)]. *)
Variable create :
  ImportState -> jdata -> Position -> option string -> option string ->
  outcome (option string * ImportState).

(** The loop over the items of a 'many' property. *)
Fixpoint createItems (st : ImportState) (items : list jdata) (i : nat)
  (position : Position) (childX : Z) (childIndex : nat)
  (instanceId propertyPath : string) : outcome ImportState :=
  match items with
  | [] => Ret st
  | item :: rest =>
      st' <- (if isObjectLike item then
                let childY := (pos_y position +
                               Z.of_nat (childIndex + i) * (NODE_HEIGHT + VERTICAL_GAP))%Z in
                r <- create st item {| pos_x := childX; pos_y := childY |}
                       (Some instanceId) (Some propertyPath) ;;
                Ret (snd r)
              else Ret st) ;;
      createItems st' rest (S i) position childX childIndex instanceId propertyPath
  end.

(** The loop over [connectionRules] that follows the nested values. *)
Fixpoint createChildren (st : ImportState) (rules : list ConnectionRule)
  (childIndex : nat) (dataObj : jdata) (position : Position) (instanceId : string)
  : outcome ImportState :=
  match rules with
  | [] => Ret st
  | rule :: rest =>
      let childX := (pos_x position + NODE_WIDTH + HORIZONTAL_GAP)%Z in
      match assoc (propertyPath rule) (dentries dataObj), cardinality rule with
      | Some (DObj a fields), one =>
          let childY := (pos_y position +
                         Z.of_nat childIndex * (NODE_HEIGHT + VERTICAL_GAP))%Z in
          r <- create st (DObj a fields) {| pos_x := childX; pos_y := childY |}
                 (Some instanceId) (Some (propertyPath rule)) ;;
          createChildren (snd r) rest (S childIndex) dataObj position instanceId
      | Some (DArr _ items), many =>
          st' <- createItems st items 0 position childX childIndex instanceId
                   (propertyPath rule) ;;
          createChildren st' rest (childIndex + length items) dataObj position instanceId
      | _, _ => createChildren st rest childIndex dataObj position instanceId
      end
  end.

End Children.

(** [values]: the entries of [dataObj] that are neither metadata nor
    reference properties. *)
Definition plainValues (refProps : list string) (dataObj : jdata) : list (string * json) :=
  fold_left
    (fun values kv =>
       let '(key, v) := kv in
       if startsWith key "_" then values
       else if negb (existsb (String.eqb key) refProps) then assign values key (erase v)
       else values)
    (dentries dataObj) [].

(** [schema.title || schemaPath.split('/').pop()?.replace('.schema.json', '')
    || 'Unknown'] *)
Definition titleOf (schema : value) (schemaPath : string) : json :=
  match getq schema "title" with
  | Some t =>
      if truthy (Some t) then t
      else JStr (let stem := removeFirst ".schema.json"
                               (default "" (pop_value (split "/" schemaPath))) in
                 if nonEmpty stem then stem else "Unknown")
  | None => JStr (let stem := removeFirst ".schema.json"
                                (default "" (pop_value (split "/" schemaPath))) in
                  if nonEmpty stem then stem else "Unknown")
  end.

(** [createNodeFromData]: the identifier (or [null]) and the state after the
    call.  The recursion follows the nesting of the data. *)
Fixpoint createNodeFromData (fuel : nat) (schemas : catalog)
  (st : ImportState) (dataObj : jdata) (position : Position)
  (parentId propertyPath : option string)
  : outcome (option string * ImportState) :=
  match fuel with
  | O => Diverge
  | S fuel' =>
      match match address dataObj with
            | Some a => instanceMap st !! a
            | None => None
            end with
      | Some existingId =>
          Ret (Some existingId,
               match parentLink parentId propertyPath with
               | Some (p, q) =>
                   let edgeId := edgeIdOf p existingId q in
                   if existsb (fun e => String.eqb (edge_id e) edgeId) (edges st) then st
                   else pushEdge st (createEdge edgeId p existingId q false)
               | None => st
               end)
      | None =>
          m <- findMatchingSchema dataObj schemas ;;
          match m with
          | None => Ret (None, pushError st (unmatchedMessage dataObj))
          | Some (schemaPath, _) =>
              let schema := assoc schemaPath schemas in
              let '(instanceId, counters) := generateInstanceId schemaPath (instanceCounters st) in
              let st1 := registerInstance st dataObj instanceId counters in
              let schemaTitle := titleOf schema schemaPath in
              connectionRules <- getSchemaConnectionRules schema schemaPath None ;;
              let refProps := map SchemaRelationships.propertyPath connectionRules in
              let values := plainValues refProps dataObj in
              let node :=
                {| node_id := instanceId;
                   node_position := position;
                   node_data := Some {| nd_instanceId := instanceId;
                                        nd_schemaPath := schemaPath;
                                        nd_schemaTitle := schemaTitle;
                                        nd_values := Some values |} |} in
              let st2 := pushNode st1 node in
              let st3 :=
                match parentLink parentId propertyPath with
                | Some (p, q) =>
                    let isArray :=
                      match List.find (fun r => String.eqb (SchemaRelationships.propertyPath r) q)
                                      connectionRules with
                      | Some r => match cardinality r with many => true | one => false end
                      | None => false
                      end in
                    pushEdge st2 (createEdge (edgeIdOf p instanceId q) p instanceId q isArray)
                | None => st2
                end in
              st4 <- createChildren (createNodeFromData fuel' schemas)
                       st3 connectionRules 0 dataObj position instanceId ;;
              Ret (Some instanceId, st4)
          end
      end
  end.

(** The loop of [importFromJson] over the items of a root array. *)
Fixpoint importItems (fuel : nat) (schemas : catalog) (st : ImportState)
  (items : list jdata) (x yOffset : Z) : outcome ImportState :=
  match items with
  | [] => Ret st
  | item :: rest =>
      match item with
      | DObj _ _ =>
          r <- createNodeFromData fuel schemas st item {| pos_x := x; pos_y := yOffset |}
                 None None ;;
          importItems fuel schemas (snd r) rest x (yOffset + (NODE_HEIGHT + VERTICAL_GAP))%Z
      | _ => importItems fuel schemas st rest x yOffset
      end
  end.

Record ImportResult : Type := {
  success : bool;
  res_nodes : list Node;
  res_edges : list Edge;
  res_errors : list string
}.

Definition emptyState (counters : gmap string N) : ImportState :=
  {| nodes := []; edges := []; errors := []; instanceMap := ∅; nodeIndex := 0;
     instanceCounters := counters |}.

Definition finish (st : ImportState) : ImportResult * gmap string N :=
  ({| success := match errors st with [] => true | _ :: _ => false end;
      res_nodes := nodes st; res_edges := edges st; res_errors := errors st |},
   instanceCounters st).

(** [importFromJson]: the result, and the instance counters after the call. *)
Definition importFromJson (fuel : nat) (data : jdata) (schemas : catalog)
  (startPosition : Position) (counters : gmap string N)
  : outcome (ImportResult * gmap string N) :=
  match data with
  | DArr _ items =>
      st <- importItems fuel schemas (emptyState counters) items
              (pos_x startPosition) (pos_y startPosition) ;;
      Ret (finish st)
  | _ =>
      r <- createNodeFromData fuel schemas (emptyState counters) data startPosition
             None None ;;
      Ret (finish (snd r))
  end.

End Importing.

End DataModelImport.

(** ** src/utils/builderStorage.ts *)
Module BuilderStorage.
Import JS.

Definition STORAGE_KEY : string := "jschema-builder-state".

(** [clearBuilderState] *)
Definition clearBuilderState (localStorage : gmap string string) : gmap string string :=
  delete STORAGE_KEY localStorage.

(** The negation of the test at line 119: the node has a truthy [id],
    [position], [data.schemaPath] and [data.instanceId]. *)
Definition nodeOk (node : json) : outcome bool :=
  id <- get (Some node) "id" ;;
  position <- get (Some node) "position" ;;
  data <- get (Some node) "data" ;;
  Ret (truthy id && truthy position &&
       truthy (getq data "schemaPath") && truthy (getq data "instanceId")).

(** The negation of the test at line 128. *)
Definition edgeOk (edge : json) : outcome bool :=
  id <- get (Some edge) "id" ;;
  src <- get (Some edge) "source" ;;
  tgt <- get (Some edge) "target" ;;
  Ret (truthy id && truthy src && truthy tgt).

(** The checks of [loadBuilderState] on the parsed state, lines 110-133. *)
Definition stateOk (state : json) : outcome bool :=
  if negb (truthy (Some state)) then Ret false else
  nodes <- get (Some state) "nodes" ;;
  edges <- get (Some state) "edges" ;;
  match nodes, edges with
  | Some (JArr ns), Some (JArr es) =>
      okNodes <- every nodeOk ns ;;
      if okNodes then every edgeOk es else Ret false
  | _, _ => Ret false
  end.

Section Loading.

(** [JSON.parse]; [None] when it throws a [SyntaxError]. *)
Variable JSON_parse : string -> option json.

(** [loadBuilderState]: what it returns ([None] for [null]) and the storage
    after the call. *)
Definition loadBuilderState (localStorage : gmap string string)
  : option json * gmap string string :=
  match localStorage !! STORAGE_KEY with
  | None => (None, localStorage)
  | Some stored =>
      if String.eqb stored "" then (None, localStorage) else
      match JSON_parse stored with
      | None => (None, clearBuilderState localStorage)
      | Some state =>
          match stateOk state with
          | Ret true => (Some state, localStorage)
          | Ret false => (None, clearBuilderState localStorage)
          | _ => (None, clearBuilderState localStorage)
          end
      end
  end.

End Loading.

End BuilderStorage.

(** ** Specification-level definitions

    Written from the words of the specification, to be compared with the
    functions above. *)

(** The Path Resolver of the specification (section 4.1). *)
Module PathSpec.
Import JS SchemaRelationships.

(** The reference without its fragment. *)
Definition stripFragment (ref : string) : string := beforeHash ref.

(** The directory of a path: what precedes its last ['/']; empty when the
    path has no directory component. *)
Definition directory (basePath : string) : string :=
  join "/" (removelast (split "/" basePath)).

(** The segments of a path, empty segments dropped. *)
Definition segments (path : string) : list string :=
  List.filter nonEmpty (split "/" path).

(** Directory-segment resolution on a stack whose top is the head of the
    list: ['..'] pops one segment, ['.'] is a no-op. *)
Fixpoint walk (stack : list string) (segs : list string) : list string :=
  match segs with
  | [] => rev stack
  | seg :: rest =>
      if String.eqb seg ".." then walk (tl stack) rest
      else if String.eqb seg "." then walk stack rest
      else walk (seg :: stack) rest
  end.

Definition resolve (basePath ref : string) : string :=
  let path := stripFragment ref in
  if startsWith path "./" || startsWith path "../" then
    join "/" (walk (rev (segments (directory basePath))) (segments path))
  else if negb (includes path "/") then
    if String.eqb (directory basePath) "" then path
    else directory basePath +:+ "/" +:+ path
  else path.

End PathSpec.

(** The resolved-target set of the specification (section 4.4), with the
    catalog lookup of the validator. *)
Module TargetSpec.
Import JS SchemaRelationships ConnectionValidator.

(** The references a fetched schema unwraps to: its [items.$ref], the
    [items.$ref] of an [allOf] branch, the [$ref] of an [anyOf] or [oneOf]
    branch. *)
Inductive Unwraps (schema : value) : value -> Prop :=
| unwraps_items :
    truthy (getq (getq schema "items") "$ref") = true ->
    Unwraps schema (getq (getq schema "items") "$ref")
| unwraps_allOf subs sub :
    getq schema "allOf" = Some (JArr subs) -> In sub subs ->
    truthy (getq (getq (Some sub) "items") "$ref") = true ->
    Unwraps schema (getq (getq (Some sub) "items") "$ref")
| unwraps_anyOf subs sub :
    getq schema "anyOf" = Some (JArr subs) -> In sub subs ->
    truthy (getq (Some sub) "$ref") = true ->
    Unwraps schema (getq (Some sub) "$ref")
| unwraps_oneOf subs sub :
    getq schema "oneOf" = Some (JArr subs) -> In sub subs ->
    truthy (getq (Some sub) "$ref") = true ->
    Unwraps schema (getq (Some sub) "$ref").

(** The path a set starts from: the key the schema was found under, or the
    path as given when the catalog has no schema for it. *)
Definition startOf (schemas : catalog) (schemaPath : string) : string :=
  if truthy (fst (locate schemas schemaPath)) then snd (locate schemas schemaPath)
  else schemaPath.

Inductive Resolved (schemas : catalog) : string -> string -> Prop :=
| resolved_start p : Resolved schemas p (startOf schemas p)
| resolved_ref p r :
    truthy (fst (locate schemas p)) = true ->
    Unwraps (fst (locate schemas p)) (Some (JStr r)) ->
    Resolved schemas p (resolveRefPath r (snd (locate schemas p)))
| resolved_trans p r t :
    truthy (fst (locate schemas p)) = true ->
    Unwraps (fst (locate schemas p)) (Some (JStr r)) ->
    Resolved schemas (resolveRefPath r (snd (locate schemas p))) t ->
    Resolved schemas p t.

End TargetSpec.

(** Schema matching as the specification words it (section 4.5). *)
Module MatchSpec.
Import JS SchemaRelationships DataModelImport.

Section Match.
Variable toPropertyKey : json -> string.

(** The list a schema requires: empty when [required] is absent. *)
Definition requiredList (schemaObj : json) : list json :=
  match getq (Some schemaObj) "required" with
  | Some (JArr xs) => xs
  | _ => []
  end.

(** [schemaObj] qualifies for [data] with score [score]: it is object-typed
    with properties, every property it requires is present in the data, and
    the score is the number of non-metadata data keys that are schema property
    names over the larger of the two key counts. *)
Definition Qualifies (data : jdata) (schemaObj : json) (score : Score) : Prop :=
  is_str (getq (Some schemaObj) "type") "object" = true /\
  exists props,
    getq (Some schemaObj) "properties" = Some props /\
    truthy (Some props) = true /\
    (forall prop, List.In prop (requiredList schemaObj) ->
                  hasProperty toPropertyKey data prop = Ret true) /\
    num score = length (List.filter (fun key => existsb (String.eqb key) (keys props))
                                    (dataKeysOf data)) /\
    den score = Nat.max (length (dataKeysOf data)) (length (keys props)).

(** [score >= 0.5], on the rationals. *)
Definition AtLeastHalf (score : Score) : Prop := 0 < den score /\ den score <= 2 * num score.

(** [a <= b], on the rationals ([0 / 0] below everything). *)
Definition ScoreLe (a b : Score) : Prop := num a * den b <= num b * den a.

(** What the scan of [findMatchingSchema] maintains after the schemas
    [seen]: every one of them was scored without an exception, and the best
    match is one of them that none beats. *)
Definition Scanned (data : jdata) (seen : catalog) (best : option (string * Score)) : Prop :=
  (forall p o, List.In (p, o) seen ->
               exists c, scoreSchema toPropertyKey data (dataKeysOf data) o = Ret c) /\
  match best with
  | None =>
      forall p o, List.In (p, o) seen ->
                  scoreSchema toPropertyKey data (dataKeysOf data) o = Ret None
  | Some (bp, bs) =>
      (exists o, List.In (bp, o) seen /\
                 scoreSchema toPropertyKey data (dataKeysOf data) o = Ret (Some bs)) /\
      (forall p o sc, List.In (p, o) seen ->
                      scoreSchema toPropertyKey data (dataKeysOf data) o = Ret (Some sc) ->
                      score_gt sc bs = false)
  end.

End Match.

End MatchSpec.

(** The measure that bounds the depth of an export traversal. *)
Module ExportSpec.
Import JS DataModelExport.

(** The nodes whose identifier is not yet in [visited]. *)
Definition unvisited (nodes : list Node) (visited : list string) : nat :=
  length (List.filter (fun n => negb (existsb (String.eqb (node_id n)) visited)) nodes).

(** What the traversal asks of the recursive call below a node: on a
    [visited] set that leaves fewer than [budget] nodes unvisited, it
    completes (with a value or an exception), and it only adds to the set. *)
Definition Completes (nodes : list Node)
  (build : string -> list string -> outcome (built * list string)) (budget : nat) : Prop :=
  forall id visited,
    unvisited nodes visited < budget ->
    build id visited <> Diverge /\
    (forall r v', build id visited = Ret (r, v') ->
                  forall x, List.In x visited -> List.In x v').

End ExportSpec.

(** The cardinality invariant of the connection list (sections 3 and 8). *)
Module GraphSpec.
Import JS SchemaRelationships BuilderTypes ConnectionValidator.

(** Property [p] of instance [i] has a rule of cardinality 'one', for the
    rule extraction [rulesOf] of the validator at hand. *)
Definition OneRule (rulesOf : value -> string -> outcome (list ConnectionRule))
  (schemas : catalog) (instances : gmap string DataInstance) (i p : string) : Prop :=
  exists inst rules rule,
    instances !! i = Some inst /\
    rulesOf (assoc (inst_schemaPath inst) schemas) (inst_schemaPath inst) = Ret rules /\
    findRule rules p = Some rule /\
    cardinality rule = one.

Definition triple (c : DataConnection) : string * string * string :=
  (sourceId c, targetId c, conn_propertyPath c).

Definition Invariant (rulesOf : value -> string -> outcome (list ConnectionRule))
  (schemas : catalog) (instances : gmap string DataInstance)
  (conns : list DataConnection) : Prop :=
  (forall i p, OneRule rulesOf schemas instances i p ->
               length (List.filter (occupies i p) conns) <= 1) /\
  List.NoDup (map triple conns).

(** A run of proposals, each with the recursion budget of its validation. *)
Definition run (schemas : catalog) (instances : gmap string DataInstance)
  (proposals : list (nat * DataConnection)) : list DataConnection :=
  fold_left (fun conns fc => propose (fst fc) schemas instances conns (snd fc))
            proposals [].

Definition runExact (schemas : catalog) (instances : gmap string DataInstance)
  (proposals : list DataConnection) : list DataConnection :=
  fold_left (ConnectionValidatorExact.propose schemas instances) proposals [].

End GraphSpec.

(** ** Concrete inputs used by the examples of Part II *)
Module Samples.
Import JS SchemaRelationships BuilderTypes ConnectionValidator.
Import DataModelExport DataModelImport BuilderStorage.

(** A saved state with one node and no edges; the node has [id], [position]
    and [data.schemaPath] but no [data.instanceId]. *)
Definition sampleNode : json :=
  JObj [("id", JStr "user-1");
        ("position", JObj [("x", JNum 0); ("y", JNum 0)]);
        ("data", JObj [("schemaPath", JStr "v1/user/user.schema.json")])].

Definition sampleState : json :=
  JObj [("nodes", JArr [sampleNode]); ("edges", JArr [])].

Definition sampleParse (text : string) : option json :=
  if String.eqb text "saved" then Some sampleState else None.

Definition sampleStorage : gmap string string := {[ STORAGE_KEY := "saved" ]}.

(** The same storage with a node that has no [position]. *)
Definition noPositionNode : json :=
  JObj [("id", JStr "user-1");
        ("data", JObj [("schemaPath", JStr "v1/user/user.schema.json");
                       ("instanceId", JStr "user-1")])].

Definition noPositionState : json :=
  JObj [("nodes", JArr [noPositionNode]); ("edges", JArr [])].

Definition noPositionParse (text : string) : option json :=
  if String.eqb text "saved" then Some noPositionState else None.

(** A schema whose property [d] refers to [d.schema.json]; the only catalog
    key that ends with that path lies in a [primitives] directory and holds an
    object schema. *)
Definition directRefSchema : json :=
  JObj [("type", JStr "object");
        ("properties", JObj [("d", JObj [("$ref", JStr "d.schema.json")])])].

Definition primitiveDirCatalog : catalog :=
  [("v1/primitives/d.schema.json",
    JObj [("type", JStr "object");
          ("properties", JObj [("x", JObj [("type", JStr "string")])])])].

(** The same reference under a pattern property. *)
Definition patternRefSchema : json :=
  JObj [("type", JStr "object");
        ("properties",
         JObj [("byId", JObj [("type", JStr "object");
                              ("patternProperties",
                               JObj [("^[a-z]+$", JObj [("$ref", JStr "d.schema.json")])])])])].

(** A schema with an array of [label.schema.json] items and a direct
    reference to the same file; the catalog holds the label schema, a string,
    under a longer key. *)
Definition labelsSchema : json :=
  JObj [("type", JStr "object");
        ("properties",
         JObj [("labels", JObj [("type", JStr "array");
                                ("items", JObj [("$ref", JStr "label.schema.json")])]);
               ("label", JObj [("$ref", JStr "label.schema.json")])])].

Definition labelCatalog : catalog :=
  [("v1/label.schema.json", JObj [("type", JStr "string")])].

(** A direct reference to an array-of-references wrapper whose file name ends
    in [value.schema.json]. *)
Definition tagsSchema : json :=
  JObj [("type", JStr "object");
        ("properties", JObj [("tags", JObj [("$ref", JStr "tag-value.schema.json")])])].

Definition tagValueCatalog : catalog :=
  [("tag-value.schema.json",
    JObj [("type", JStr "array"); ("items", JObj [("$ref", JStr "tag.schema.json")])]);
   ("tag.schema.json", JObj [("type", JStr "object")])].

(** A direct reference to a wrapper that refers to the array primitive with
    [$ref] and declares its [items] next to it. *)
Definition itemsSchema : json :=
  JObj [("type", JStr "object");
        ("properties", JObj [("entries", JObj [("$ref", JStr "entry-list.schema.json")])])].

Definition entryListCatalog : catalog :=
  [("entry-list.schema.json",
    JObj [("$ref", JStr "../primitives/array.schema.json");
          ("items", JObj [("$ref", JStr "entry.schema.json")])]);
   ("entry.schema.json", JObj [("type", JStr "object")])].

(** A user schema with a direct reference to an array wrapper ([roles]) and
    to an object schema ([address]). *)
Definition userSchema : json :=
  JObj [("type", JStr "object");
        ("properties",
         JObj [("name", JObj [("type", JStr "string")]);
               ("roles", JObj [("$ref", JStr "roles.schema.json")]);
               ("address", JObj [("$ref", JStr "./address.schema.json#/definitions/a")])]);
        ("required", JArr [JStr "name"; JStr "roles"])].

Definition userCatalog : catalog :=
  [("v1/user/user.schema.json", userSchema);
   ("v1/user/roles.schema.json",
    JObj [("allOf", JArr [JObj [("$ref", JStr "../primitives/array.schema.json")];
                          JObj [("items", JObj [("$ref", JStr "role.schema.json")])]])]);
   ("v1/user/role.schema.json",
    JObj [("type", JStr "object");
          ("properties", JObj [("title", JObj [("type", JStr "string")])])]);
   ("v1/user/address.schema.json",
    JObj [("type", JStr "object");
          ("properties", JObj [("city", JObj [("type", JStr "string")])])])].

(** The catalog of the specification's import example, and data for it. *)
Definition importCatalog : catalog :=
  [("user.schema.json",
    JObj [("type", JStr "object");
          ("properties", JObj [("name", JObj [("type", JStr "string")]);
                               ("address", JObj [("$ref", JStr "./address.schema.json")])]);
          ("required", JArr [JStr "name"])]);
   ("address.schema.json",
    JObj [("type", JStr "object");
          ("properties", JObj [("city", JObj [("type", JStr "string")])])])].

Definition alData : jdata :=
  DObj 1 [("name", DStr "Al"); ("address", DObj 2 [("city", DStr "X")])].

(** An object no schema of the catalog matches. *)
Definition strayData : jdata := DObj 3 [("colour", DStr "red"); ("size", DNum 4)].

Definition sampleStringify (d : jdata) : string := "{...}".
Definition sampleToKey (j : json) : string := "".

Definition startAt : Position := {| pos_x := 100; pos_y := 100 |}.

(** A schema with an array of items of [a.schema.json], in a catalog that
    holds that schema under the key [v1/a.schema.json] only; an instance of the
    first schema and two candidate targets, one whose schema path is the path
    the rule names and one whose schema path is the catalog key. *)
Definition listSchema : json :=
  JObj [("type", JStr "object");
        ("properties",
         JObj [("xs", JObj [("type", JStr "array");
                            ("items", JObj [("$ref", JStr "a.schema.json")])])])].

Definition suffixCatalog : catalog :=
  [("s.schema.json", listSchema);
   ("v1/a.schema.json", JObj [("type", JStr "object")])].

Definition instanceOf (i path : string) : DataInstance :=
  {| inst_id := i; inst_schemaPath := path;
     inst_position := {| pos_x := 0; pos_y := 0 |}; inst_data := JObj [] |}.

Definition suffixInstances : gmap string DataInstance :=
  <["s-1" := instanceOf "s-1" "s.schema.json"]>
    (<["a-1" := instanceOf "a-1" "a.schema.json"]>
       (<["a-2" := instanceOf "a-2" "v1/a.schema.json"]> ∅)).

(** The user catalog with one user, one role and two addresses. *)
Definition userInstances : gmap string DataInstance :=
  <["user-1" := instanceOf "user-1" "v1/user/user.schema.json"]>
    (<["role-1" := instanceOf "role-1" "v1/user/role.schema.json"]>
       (<["address-1" := instanceOf "address-1" "v1/user/address.schema.json"]>
          (<["address-2" := instanceOf "address-2" "v1/user/address.schema.json"]> ∅))).

Definition connection (s t p : string) : DataConnection :=
  {| conn_id := s +:+ "-" +:+ p +:+ "-" +:+ t; sourceId := s; targetId := t;
     conn_propertyPath := p |}.

(** Two schemas that refer to one another, two instances connected in a
    cycle A -> B -> A, and a second edge from A to B on a 'many' property. *)
Definition cycleCatalog : catalog :=
  [("a.schema.json",
    JObj [("type", JStr "object");
          ("properties",
           JObj [("n", JObj [("type", JStr "string")]);
                 ("b", JObj [("$ref", JStr "b.schema.json")]);
                 ("bs", JObj [("type", JStr "array");
                              ("items", JObj [("$ref", JStr "b.schema.json")])])])]);
   ("b.schema.json",
    JObj [("type", JStr "object");
          ("properties",
           JObj [("a", JObj [("$ref", JStr "a.schema.json")]);
                 ("k", JObj [("type", JStr "array")])])])].

Definition nodeOf (i path : string) : Node :=
  {| node_id := i; node_position := {| pos_x := 0; pos_y := 0 |};
     node_data := Some {| nd_instanceId := i; nd_schemaPath := path;
                          nd_schemaTitle := JStr i; nd_values := None |} |}.

Definition edgeOf (s t h : string) : Edge :=
  {| edge_id := s +:+ "-" +:+ h +:+ "-" +:+ t; source := s; target := t;
     sourceHandle := Some h; edge_stroke := "#61dafb" |}.

Definition cycleNodes : list Node := [nodeOf "A" "a.schema.json"; nodeOf "B" "b.schema.json"].

Definition cycleEdges : list Edge :=
  [edgeOf "A" "B" "b"; edgeOf "B" "A" "a"; edgeOf "A" "B" "bs"].

End Samples.


(** ** utils/connectionValidator.ts: the queries of the canvas

    [canConnect], [getValidTargets], [getConnectableProperties] and
    [getValidSources], in the revision with [resolveTargetSchemaPath]
    ([ConnectionQueries]) and in the one under src/utils
    ([ConnectionQueriesExact]). *)
Module ConnectionQueries.
Import JS SchemaRelationships BuilderTypes ConnectionValidator.

(** Result of [canConnect]. *)
Record ConnectionValidation : Type := {
  cv_valid : bool;
  cv_propertyPath : option string;
  cv_cardinality : option Cardinality;
  cv_reason : option string
}.

(** The [Map<string, DataInstance>] the queries iterate: its entries in
    insertion order.  The keys of a [Map] are pairwise distinct. *)
Definition InstanceMap : Type := list (string * DataInstance).

(** [instances.get(id)] *)
Definition instanceAt (instances : InstanceMap) (id : string) : option DataInstance :=
  assoc id instances.

(** The same map as [validateConnection] takes it. *)
Definition asMap (instances : InstanceMap) : gmap string DataInstance :=
  list_to_map instances.

(** [xs.find(f)] for a callback that may throw. *)
Fixpoint findM {A} (f : A -> outcome bool) (xs : list A) : outcome (option A) :=
  match xs with
  | [] => Ret None
  | x :: rest => b <- f x ;; if b then Ret (Some x) else findM f rest
  end.

(** [canConnect] *)
Definition canConnect (fuel : nat) (sourceSchemaPath targetSchemaPath : string)
  (schemas : catalog) : outcome ConnectionValidation :=
  let sourceSchema := assoc sourceSchemaPath schemas in
  if negb (truthy sourceSchema) then
    Ret {| cv_valid := false; cv_propertyPath := None; cv_cardinality := None;
           cv_reason := Some ("Source schema not found: " +:+ sourceSchemaPath) |}
  else
  rules <- getConnectionRulesForSchema sourceSchema sourceSchemaPath (Some schemas) ;;
  matchingRule <-
    findM (fun rule =>
             if String.eqb (SchemaRelationships.targetSchemaPath rule) targetSchemaPath
             then Ret true
             else
               resolvedTargets <-
                 resolveTargetSchemaPath fuel (SchemaRelationships.targetSchemaPath rule)
                   schemas ;;
               Ret (existsb (String.eqb targetSchemaPath) resolvedTargets))
          rules ;;
  match matchingRule with
  | None =>
      Ret {| cv_valid := false; cv_propertyPath := None; cv_cardinality := None;
             cv_reason := Some ("No $ref from " +:+ sourceSchemaPath +:+ " to " +:+
                                targetSchemaPath) |}
  | Some rule =>
      Ret {| cv_valid := true; cv_propertyPath := Some (propertyPath rule);
             cv_cardinality := Some (cardinality rule); cv_reason := None |}
  end.

(** The test of the loop of [getValidTargets] on one entry of the map, once
    the resolved targets of the rule are known. *)
Definition isValidTarget (rule : ConnectionRule) (resolvedTargets : list string)
  (sourceInstanceId propertyPath : string) (existingConnections : list DataConnection)
  (entry : string * DataInstance) : bool :=
  let '(instanceId, instance) := entry in
  if String.eqb instanceId sourceInstanceId then false
  else if existsb (String.eqb (inst_schemaPath instance)) resolvedTargets then
    match cardinality rule with
    | many =>
        negb (existsb (sameTriple sourceInstanceId instanceId propertyPath)
                      existingConnections)
    | one => true
    end
  else false.

(** [getValidTargets] *)
Definition getValidTargets (fuel : nat) (sourceInstanceId propertyPath : string)
  (instances : InstanceMap) (schemas : catalog)
  (existingConnections : list DataConnection) : outcome (list string) :=
  match instanceAt instances sourceInstanceId with
  | None => Ret []
  | Some sourceInstance =>
      let sourceSchema := assoc (inst_schemaPath sourceInstance) schemas in
      if negb (truthy sourceSchema) then Ret [] else
      rules <- getConnectionRulesForSchema sourceSchema (inst_schemaPath sourceInstance)
                 (Some schemas) ;;
      match findRule rules propertyPath with
      | None => Ret []
      | Some rule =>
          resolvedTargets <- resolveTargetSchemaPath fuel (targetSchemaPath rule) schemas ;;
          if match cardinality rule with
             | one => existsb (occupies sourceInstanceId propertyPath) existingConnections
             | many => false
             end
          then Ret []
          else
            Ret (map fst
                   (List.filter
                      (isValidTarget rule resolvedTargets sourceInstanceId propertyPath
                         existingConnections)
                      instances))
      end
  end.

(** The cardinality test that [getConnectableProperties] and
    [getValidSources] apply to a rule: [false] where the loop says
    [continue]. *)
Definition hasRoom (rule : ConnectionRule) (sourceInstanceId targetInstanceId : string)
  (existingConnections : list DataConnection) : bool :=
  match cardinality rule with
  | one =>
      negb (existsb (occupies sourceInstanceId (propertyPath rule)) existingConnections)
  | many =>
      negb (existsb (sameTriple sourceInstanceId targetInstanceId (propertyPath rule))
                    existingConnections)
  end.

(** [getConnectableProperties]; this function compares the rule's target
    with the schema path of the target instance directly in both revisions. *)
Definition getConnectableProperties (sourceInstanceId targetInstanceId : string)
  (instances : InstanceMap) (schemas : catalog)
  (existingConnections : list DataConnection) : outcome (list string) :=
  match instanceAt instances sourceInstanceId, instanceAt instances targetInstanceId with
  | Some sourceInstance, Some targetInstance =>
      if String.eqb sourceInstanceId targetInstanceId then Ret [] else
      let sourceSchema := assoc (inst_schemaPath sourceInstance) schemas in
      if negb (truthy sourceSchema) then Ret [] else
      rules <- getConnectionRulesForSchema sourceSchema (inst_schemaPath sourceInstance)
                 (Some schemas) ;;
      Ret (map propertyPath
             (List.filter
                (fun rule =>
                   String.eqb (targetSchemaPath rule) (inst_schemaPath targetInstance) &&
                   hasRoom rule sourceInstanceId targetInstanceId existingConnections)
                rules))
  | _, _ => Ret []
  end.

(** [if (!validSources.includes(id)) validSources.push(id)] *)
Definition pushOnce (validSources : list string) (id : string) : list string :=
  if existsb (String.eqb id) validSources then validSources else validSources ++ [id].

(** The loop of [getValidSources] over the rules of one source instance. *)
Fixpoint scanRules (fuel : nat) (schemas : catalog)
  (existingConnections : list DataConnection)
  (targetSchemaPath sourceInstanceId targetInstanceId : string)
  (rules : list ConnectionRule) (validSources : list string) : outcome (list string) :=
  match rules with
  | [] => Ret validSources
  | rule :: rest =>
      resolvedTargets <-
        resolveTargetSchemaPath fuel (SchemaRelationships.targetSchemaPath rule) schemas ;;
      scanRules fuel schemas existingConnections targetSchemaPath sourceInstanceId
        targetInstanceId rest
        (if existsb (String.eqb targetSchemaPath) resolvedTargets then
           if hasRoom rule sourceInstanceId targetInstanceId existingConnections
           then pushOnce validSources sourceInstanceId
           else validSources
         else validSources)
  end.

(** The loop of [getValidSources] over the entries of the map. *)
Fixpoint scanSources (fuel : nat) (schemas : catalog)
  (existingConnections : list DataConnection)
  (targetSchemaPath targetInstanceId : string)
  (entries : InstanceMap) (validSources : list string) : outcome (list string) :=
  match entries with
  | [] => Ret validSources
  | (sourceInstanceId, sourceInstance) :: rest =>
      if String.eqb sourceInstanceId targetInstanceId then
        scanSources fuel schemas existingConnections targetSchemaPath targetInstanceId
          rest validSources
      else
      let sourceSchema := assoc (inst_schemaPath sourceInstance) schemas in
      if negb (truthy sourceSchema) then
        scanSources fuel schemas existingConnections targetSchemaPath targetInstanceId
          rest validSources
      else
      rules <- getConnectionRulesForSchema sourceSchema (inst_schemaPath sourceInstance)
                 (Some schemas) ;;
      validSources' <-
        scanRules fuel schemas existingConnections targetSchemaPath sourceInstanceId
          targetInstanceId rules validSources ;;
      scanSources fuel schemas existingConnections targetSchemaPath targetInstanceId
        rest validSources'
  end.

(** [getValidSources] *)
Definition getValidSources (fuel : nat) (targetInstanceId : string)
  (instances : InstanceMap) (schemas : catalog)
  (existingConnections : list DataConnection) : outcome (list string) :=
  match instanceAt instances targetInstanceId with
  | None => Ret []
  | Some targetInstance =>
      scanSources fuel schemas existingConnections (inst_schemaPath targetInstance)
        targetInstanceId instances []
  end.

End ConnectionQueries.

Module ConnectionQueriesExact.
Import JS SchemaRelationships BuilderTypes ConnectionValidator.
Import ConnectionQueries.

(** [canConnect], src/utils/connectionValidator.ts lines 48-79. *)
Definition canConnect (sourceSchemaPath targetSchemaPath : string)
  (schemas : catalog) : outcome ConnectionValidation :=
  let sourceSchema := assoc sourceSchemaPath schemas in
  if negb (truthy sourceSchema) then
    Ret {| cv_valid := false; cv_propertyPath := None; cv_cardinality := None;
           cv_reason := Some ("Source schema not found: " +:+ sourceSchemaPath) |}
  else
  rules <- getSchemaConnectionRules sourceSchema sourceSchemaPath None ;;
  match List.find (fun rule =>
                     String.eqb (SchemaRelationships.targetSchemaPath rule) targetSchemaPath)
                  rules with
  | None =>
      Ret {| cv_valid := false; cv_propertyPath := None; cv_cardinality := None;
             cv_reason := Some ("No $ref from " +:+ sourceSchemaPath +:+ " to " +:+
                                targetSchemaPath) |}
  | Some rule =>
      Ret {| cv_valid := true; cv_propertyPath := Some (propertyPath rule);
             cv_cardinality := Some (cardinality rule); cv_reason := None |}
  end.

(** The test of the loop of [getValidTargets], lines 234-256, on one entry
    of the map. *)
Definition isValidTarget (rule : ConnectionRule)
  (sourceInstanceId propertyPath : string) (existingConnections : list DataConnection)
  (entry : string * DataInstance) : bool :=
  let '(instanceId, instance) := entry in
  if String.eqb instanceId sourceInstanceId then false
  else if String.eqb (inst_schemaPath instance) (targetSchemaPath rule) then
    match cardinality rule with
    | many =>
        negb (existsb (sameTriple sourceInstanceId instanceId propertyPath)
                      existingConnections)
    | one => true
    end
  else false.

(** [getValidTargets], lines 196-259. *)
Definition getValidTargets (sourceInstanceId propertyPath : string)
  (instances : InstanceMap) (schemas : catalog)
  (existingConnections : list DataConnection) : outcome (list string) :=
  match instanceAt instances sourceInstanceId with
  | None => Ret []
  | Some sourceInstance =>
      let sourceSchema := assoc (inst_schemaPath sourceInstance) schemas in
      if negb (truthy sourceSchema) then Ret [] else
      rules <- getSchemaConnectionRules sourceSchema (inst_schemaPath sourceInstance) None ;;
      match findRule rules propertyPath with
      | None => Ret []
      | Some rule =>
          if match cardinality rule with
             | one => existsb (occupies sourceInstanceId propertyPath) existingConnections
             | many => false
             end
          then Ret []
          else
            Ret (map fst
                   (List.filter
                      (isValidTarget rule sourceInstanceId propertyPath
                         existingConnections)
                      instances))
      end
  end.

(** [getConnectableProperties], lines 270-328. *)
Definition getConnectableProperties (sourceInstanceId targetInstanceId : string)
  (instances : InstanceMap) (schemas : catalog)
  (existingConnections : list DataConnection) : outcome (list string) :=
  match instanceAt instances sourceInstanceId, instanceAt instances targetInstanceId with
  | Some sourceInstance, Some targetInstance =>
      if String.eqb sourceInstanceId targetInstanceId then Ret [] else
      let sourceSchema := assoc (inst_schemaPath sourceInstance) schemas in
      if negb (truthy sourceSchema) then Ret [] else
      rules <- getSchemaConnectionRules sourceSchema (inst_schemaPath sourceInstance) None ;;
      Ret (map propertyPath
             (List.filter
                (fun rule =>
                   String.eqb (targetSchemaPath rule) (inst_schemaPath targetInstance) &&
                   hasRoom rule sourceInstanceId targetInstanceId existingConnections)
                rules))
  | _, _ => Ret []
  end.

(** The loop of [getValidSources] over the rules of one source instance,
    lines 369-395. *)
Definition scanRules (existingConnections : list DataConnection)
  (targetSchemaPath sourceInstanceId targetInstanceId : string)
  (rules : list ConnectionRule) (validSources : list string) : list string :=
  fold_left
    (fun validSources rule =>
       if String.eqb (SchemaRelationships.targetSchemaPath rule) targetSchemaPath then
         if hasRoom rule sourceInstanceId targetInstanceId existingConnections
         then pushOnce validSources sourceInstanceId
         else validSources
       else validSources)
    rules validSources.

Fixpoint scanSources (schemas : catalog) (existingConnections : list DataConnection)
  (targetSchemaPath targetInstanceId : string)
  (entries : InstanceMap) (validSources : list string) : outcome (list string) :=
  match entries with
  | [] => Ret validSources
  | (sourceInstanceId, sourceInstance) :: rest =>
      if String.eqb sourceInstanceId targetInstanceId then
        scanSources schemas existingConnections targetSchemaPath targetInstanceId
          rest validSources
      else
      let sourceSchema := assoc (inst_schemaPath sourceInstance) schemas in
      if negb (truthy sourceSchema) then
        scanSources schemas existingConnections targetSchemaPath targetInstanceId
          rest validSources
      else
      rules <- getSchemaConnectionRules sourceSchema (inst_schemaPath sourceInstance) None ;;
      scanSources schemas existingConnections targetSchemaPath targetInstanceId rest
        (scanRules existingConnections targetSchemaPath sourceInstanceId targetInstanceId
           rules validSources)
  end.

(** [getValidSources], lines 339-400. *)
Definition getValidSources (targetInstanceId : string)
  (instances : InstanceMap) (schemas : catalog)
  (existingConnections : list DataConnection) : outcome (list string) :=
  match instanceAt instances targetInstanceId with
  | None => Ret []
  | Some targetInstance =>
      scanSources schemas existingConnections (inst_schemaPath targetInstance)
        targetInstanceId instances []
  end.

End ConnectionQueriesExact.

(** What the queries are compared with. *)
Module QuerySpec.
Import JS SchemaRelationships BuilderTypes ConnectionValidator ConnectionQueries.

(** What a source instance must offer to be listed by [getValidSources]:
    a rule whose resolved targets hold the schema path of the target, with
    room for the connection. *)
Definition Offers (fuel : nat) (schemas : catalog) (conns : list DataConnection)
  (tpath s t : string) (rules : list ConnectionRule) : Prop :=
  exists rule resolved,
    List.In rule rules /\
    resolveTargetSchemaPath fuel (targetSchemaPath rule) schemas = Ret resolved /\
    existsb (String.eqb tpath) resolved = true /\
    hasRoom rule s t conns = true.

(** The same for the revision under src/utils. *)
Definition OffersExact (conns : list DataConnection)
  (tpath s t : string) (rules : list ConnectionRule) : Prop :=
  exists rule,
    List.In rule rules /\
    targetSchemaPath rule = tpath /\
    hasRoom rule s t conns = true.

End QuerySpec.

(** ** src/utils/builderStorage.ts: saving, and the restoring of the
       instance counters *)
Module BuilderPersistence.
Import JS BuilderTypes DataModelExport BuilderStorage.

(** A node and an edge of the canvas with the fields [saveBuilderState]
    reads besides those of the export. *)
Record FlowNode : Type := {
  fn_node : Node;
  fn_type : option string
}.

Record FlowEdge : Type := {
  fe_edge : Edge;
  fe_targetHandle : option string
}.

(** [s || fallback] for an optional string. *)
Definition orElse (s : option string) (fallback : string) : string :=
  match s with
  | Some t => if String.eqb t "" then fallback else t
  | None => fallback
  end.

(** The serialized node, lines 61-74, as [JSON.stringify] sees it: a property
    whose value is [undefined] is left out.  A node without [data] makes the
    read of [nodeData.schemaPath] throw. *)
Definition serializeNode (n : FlowNode) : outcome json :=
  match node_data (fn_node n) with
  | None => Throw
  | Some nodeData =>
      Ret (JObj [("id", JStr (node_id (fn_node n)));
                 ("type", JStr (orElse (fn_type n) "builderNode"));
                 ("position", JObj [("x", JNum (pos_x (node_position (fn_node n))));
                                    ("y", JNum (pos_y (node_position (fn_node n))))]);
                 ("data",
                  JObj ([("schemaPath", JStr (nd_schemaPath nodeData));
                         ("instanceId", JStr (nd_instanceId nodeData));
                         ("schemaTitle", nd_schemaTitle nodeData)] ++
                        match nd_values nodeData with
                        | Some values => [("values", JObj values)]
                        | None => []
                        end))])
  end.

(** The serialized edge, lines 77-83. *)
Definition serializeEdge (e : FlowEdge) : json :=
  JObj [("id", JStr (edge_id (fe_edge e)));
        ("source", JStr (source (fe_edge e)));
        ("target", JStr (target (fe_edge e)));
        ("sourceHandle", JStr (orElse (sourceHandle (fe_edge e)) ""));
        ("targetHandle", JStr (orElse (fe_targetHandle e) "target"))].

(** [nodes.map(serialize)], stopping at the first exception. *)
Fixpoint serializeNodes (nodes : list FlowNode) : outcome (list json) :=
  match nodes with
  | [] => Ret []
  | n :: rest =>
      j <- serializeNode n ;;
      js <- serializeNodes rest ;;
      Ret (j :: js)
  end.

(** The [state] object of [saveBuilderState]; [lastSaved] is the time of the
    call as [toISOString] prints it. *)
Definition builderState (lastSaved : string) (nodes : list FlowNode) (edges : list FlowEdge)
  : outcome json :=
  serializedNodes <- serializeNodes nodes ;;
  Ret (JObj [("nodes", JArr serializedNodes);
             ("edges", JArr (map serializeEdge edges));
             ("lastSaved", JStr lastSaved)]).

(** [hasBuilderState] *)
Definition hasBuilderState (localStorage : gmap string string) : bool :=
  match localStorage !! STORAGE_KEY with
  | Some _ => true
  | None => false
  end.

Section Saving.

(** [JSON.stringify] on the state object. *)
Variable JSON_stringify : json -> string.

(** [saveBuilderState]: the storage after the call.  An exception on the way
    is caught and leaves the storage as it was; the storage itself takes
    every write. *)
Definition saveBuilderState (lastSaved : string) (nodes : list FlowNode)
  (edges : list FlowEdge) (localStorage : gmap string string) : gmap string string :=
  match builderState lastSaved nodes edges with
  | Ret state => <[STORAGE_KEY := JSON_stringify state]> localStorage
  | _ => localStorage
  end.

End Saving.

(** What [loadBuilderState] asks of a node and of an edge, on the canvas
    side: the identifiers it tests are not empty. *)
Definition nodeLoads (n : FlowNode) : bool :=
  SchemaRelationships.nonEmpty (node_id (fn_node n)) &&
  match node_data (fn_node n) with
  | Some nodeData => SchemaRelationships.nonEmpty (nd_schemaPath nodeData) && SchemaRelationships.nonEmpty (nd_instanceId nodeData)
  | None => false
  end.

Definition edgeLoads (e : FlowEdge) : bool :=
  SchemaRelationships.nonEmpty (edge_id (fe_edge e)) && SchemaRelationships.nonEmpty (source (fe_edge e)) &&
  SchemaRelationships.nonEmpty (target (fe_edge e)).

(** *** Instance counters *)

(** [\d] *)
Definition isDigit (c : ascii) : bool :=
  let n := nat_of_ascii c in (48 <=? n)%nat && (n <=? 57)%nat.

(** What [.] does not match: a line terminator. *)
Definition isLineTerminator (c : ascii) : bool :=
  Ascii.eqb c "010" || Ascii.eqb c "013".

Fixpoint allChars (f : ascii -> bool) (s : string) : bool :=
  match s with
  | EmptyString => true
  | String c s' => f c && allChars f s'
  end.

(** The ways to cut a string at a ['-'], the longest left part first: the
    order in which the greedy [(.+)] of the pattern tries them. *)
Fixpoint dashSplits (s : string) : list (string * string) :=
  match s with
  | EmptyString => []
  | String a rest =>
      map (fun bd => (String a (fst bd), snd bd)) (dashSplits rest) ++
      (if Ascii.eqb a "-" then [(EmptyString, rest)] else [])
  end.

(** [instanceId.match(/^(.+)-(\d+)$/)]: the two groups of the match. *)
Definition matchInstanceId (instanceId : string) : option (string * string) :=
  List.find
    (fun bd =>
       negb (String.eqb (fst bd) "") && allChars (fun c => negb (isLineTerminator c)) (fst bd) &&
       negb (String.eqb (snd bd) "") && allChars isDigit (snd bd))
    (dashSplits instanceId).

(** [parseInt(digits, 10)] on a string of decimal digits. *)
Definition parseInt10 (digits : string) : N :=
  match NilZero.uint_of_string digits with
  | Some d => N.of_uint d
  | None => 0%N
  end.

(** The names under which the object literal [counters] finds a member of
    [Object.prototype]. *)
Definition inheritedNames : list string :=
  ["constructor"; "hasOwnProperty"; "isPrototypeOf"; "propertyIsEnumerable";
   "toLocaleString"; "toString"; "valueOf"; "__proto__";
   "__defineGetter__"; "__defineSetter__"; "__lookupGetter__"; "__lookupSetter__"].

Definition inherits (name : string) : bool :=
  existsb (String.eqb name) inheritedNames.

(** One round of the loop of [extractCounterState], lines 175-186.  Under an
    inherited name [counters[baseName]] is a function or an object: it is
    truthy and no number is greater, so nothing is recorded. *)
Definition countNode (counters : gmap string N) (node : json) : outcome (gmap string N) :=
  data <- get (Some node) "data" ;;
  instanceId <- get data "instanceId" ;;
  match instanceId with
  | Some (JStr id) =>
      match matchInstanceId id with
      | Some (baseName, digits) =>
          let counter := parseInt10 digits in
          if inherits baseName then Ret counters else
          Ret (match counters !! baseName with
               | Some known =>
                   if N.eqb known 0 || N.ltb known counter
                   then <[baseName := counter]> counters
                   else counters
               | None => <[baseName := counter]> counters
               end)
      | None => Ret counters
      end
  | _ => Throw
  end.

(** [extractCounterState] *)
Fixpoint countNodes (counters : gmap string N) (nodes : list json)
  : outcome (gmap string N) :=
  match nodes with
  | [] => Ret counters
  | node :: rest => c <- countNode counters node ;; countNodes c rest
  end.

Definition extractCounterState (nodes : list json) : outcome (gmap string N) :=
  countNodes ∅ nodes.

(** [restoreInstanceCounters]: [setCounter] is called once for each entry of
    the extracted counters; the calls are on pairwise distinct names. *)
Definition restoreInstanceCounters {S : Type} (nodes : list json)
  (setCounter : string -> N -> S -> S) (state : S) : outcome S :=
  counters <- extractCounterState nodes ;;
  Ret (fold_left (fun st kv => setCounter (fst kv) (snd kv) st)
                 (map_to_list counters) state).

(** A stem [extractCounterState] records: one its pattern reads back, not
    empty and without a line terminator, that is not an inherited name. *)
Definition readableStem (baseName : string) : bool :=
  negb (String.eqb baseName "") && allChars (fun c => negb (isLineTerminator c)) baseName &&
  negb (inherits baseName).

End BuilderPersistence.

(** ** What an import keeps true of the graph it builds *)
Module ImportSpec.
Import JS BuilderTypes DataModelExport DataModelImport.

Definition nodeIds (st : ImportState) : list string := map node_id (nodes st).

(** Every edge joins two nodes of the state, and the identifier remembered
    for an object is that of a node of the state. *)
Definition Closed (st : ImportState) : Prop :=
  (forall e, List.In e (edges st) ->
             List.In (source e) (nodeIds st) /\ List.In (target e) (nodeIds st)) /\
  (forall a id, instanceMap st !! a = Some id -> List.In id (nodeIds st)).

(** The identifiers of the nodes are those of a run of [generateInstanceId]
    from the counters [c0], which left the counters of the state. *)
Definition Generated (c0 : gmap string N) (st : ImportState) : Prop :=
  exists paths,
    nodeIds st = fst (generateAll paths c0) /\
    instanceCounters st = snd (generateAll paths c0).

Definition Sound (c0 : gmap string N) (st : ImportState) : Prop :=
  Closed st /\ Generated c0 st.

End ImportSpec.

(** ** src/utils/schemaRelationships.ts: the schema graph

    [extractSchemaReferences], [extractEntityType] and [createSchemaGraph]. *)
Module SchemaGraph.
Import JS SchemaRelationships.

Inductive RelationType : Type := one_to_one | one_to_many | multiple.

Record SchemaRelationship : Type := {
  from : string;
  to : string;
  refPath : string;
  rel_type : RelationType;
  propertyName : option string
}.

(** [typeof value === 'object' && value !== null] *)
Definition isNested (v : json) : bool :=
  match v with
  | JArr _ | JObj _ => true
  | _ => false
  end.

(** What [traverse] pushes for the [$ref] of the object it is at, lines
    402-424. *)
Definition ownReference (schemaName : string) (ref : value) (propertyName : string)
  (parentIsArray : bool) : list SchemaRelationship :=
  match ref, schemaFileRef ref with
  | Some (JStr r), Some m =>
      [ {| from := schemaName;
           to := resolveRef schemaName m;
           refPath := r;
           rel_type := if parentIsArray then one_to_many else one_to_one;
           propertyName := Some propertyName |} ]
  | _, _ => []
  end.

(** [traverse], lines 400-434, without the [path] argument that no call
    changes or reads: the relationships it pushes, in the order of the
    pushes.  [atItems] is [traverse(obj.items, path, propertyName, true)] and
    [atEntries] the loop over [Object.entries(obj)]. *)
Fixpoint traverse (schemaName : string) (obj : json) (propertyName : string)
  (parentIsArray : bool) {struct obj} : list SchemaRelationship :=
  match obj with
  | JObj kvs =>
      ownReference schemaName (assoc "$ref" kvs) propertyName parentIsArray ++
      (if is_str (assoc "type" kvs) "array" && truthy (assoc "items" kvs) then
         (fix atItems (l : list (string * json)) : list SchemaRelationship :=
            match l with
            | [] => []
            | (key, v) :: rest =>
                if String.eqb key "items" then traverse schemaName v propertyName true
                else atItems rest
            end) kvs
       else []) ++
      (fix atEntries (l : list (string * json)) : list SchemaRelationship :=
         match l with
         | [] => []
         | (key, v) :: rest =>
             (if isNested v && negb (String.eqb key "items")
              then traverse schemaName v key false
              else []) ++ atEntries rest
         end) kvs
  | JArr xs =>
      (fix atElements (i : nat) (l : list json) : list SchemaRelationship :=
         match l with
         | [] => []
         | v :: rest =>
             (if isNested v
              then traverse schemaName v (NilZero.string_of_uint (Nat.to_uint i)) false
              else []) ++ atElements (S i) rest
         end) 0 xs
  | _ => []
  end.

(** [extractSchemaReferences] *)
Definition extractSchemaReferences (schema : value) (schemaName : string)
  : list SchemaRelationship :=
  match schema with
  | Some obj => traverse schemaName obj "" false
  | None => []
  end.

(** [s.replace(/\.schema\.json$/, '')] *)
Definition withoutExtension (schemaPath : string) : string :=
  if endsWith schemaPath ".schema.json"
  then String.substring 0 (String.length schemaPath - 12) schemaPath
  else schemaPath.

(** [extractEntityType], lines 440-453. *)
Definition extractEntityType (schemaPath : string) : string :=
  let pathParts := split "/" (withoutExtension schemaPath) in
  match pathParts with
  | first :: second :: _ =>
      if String.eqb first "v1" && nonEmpty second then second
      else
        let filename := default "" (last pathParts) in
        if nonEmpty filename then filename else "unknown"
  | _ =>
      let filename := default "" (last pathParts) in
      if nonEmpty filename then filename else "unknown"
  end.

(** *** [createSchemaGraph], lines 455-562 *)

Record GraphNodeData : Type := {
  label : json;
  schemaName : string;
  isRoot : bool;
  isExpanded : bool;
  properties : list string;
  schemaData : json;
  entityType : string
}.

Record GraphNode : Type := {
  gn_id : string;
  gn_type : string;
  gn_data : GraphNodeData;
  gn_position : Z * Z
}.

Record GraphEdgeData : Type := {
  ed_type : RelationType;
  propertyNames : list string;
  count : nat
}.

Record GraphEdge : Type := {
  ge_id : string;
  ge_source : string;
  ge_target : string;
  animated : bool;
  stroke : string;
  strokeWidth : QArith_base.Q;
  ge_data : GraphEdgeData
}.

(** [a || b] *)
Definition orValue (a b : value) : value := if truthy a then a else b.

Section Graph.

(** The text a template literal prints for a value that is not a string. *)
Variable toText : json -> string.

Definition textOf (v : json) : string :=
  match v with
  | JStr s => s
  | other => toText other
  end.

(** One round of the loop over [Object.keys(schema.properties)]. *)
Definition propertyLine (props : json) (key : string) : outcome string :=
  prop_type <- get (assoc key (entries props)) "type" ;;
  Ret (key +:+ ": " +:+
       match prop_type with
       | Some t => if truthy prop_type then textOf t else "any"
       | None => "any"
       end).

Fixpoint propertyLines (props : json) (ks : list string) : outcome (list string) :=
  match ks with
  | [] => Ret []
  | key :: rest =>
      line <- propertyLine props key ;;
      lines <- propertyLines props rest ;;
      Ret (line :: lines)
  end.

(** The node of one entry of the [schemas] map. *)
Definition schemaNode (relationships : list SchemaRelationship)
  (expandedNodes : list string) (name : string) (schema : value) : outcome GraphNode :=
  title <- get schema "title" ;;
  id <- get schema "$id" ;;
  props <- get schema "properties" ;;
  lines <- match props with
           | Some p => if truthy props then propertyLines p (keys p) else Ret []
           | None => Ret []
           end ;;
  match schema with
  | Some data =>
      Ret {| gn_id := name;
             gn_type := "schemaNode";
             gn_data :=
               {| label := default (JStr name) (orValue (orValue title id) (Some (JStr name)));
                  schemaName := name;
                  isRoot := negb (existsb (fun r => String.eqb (to r) name) relationships);
                  isExpanded := existsb (String.eqb name) expandedNodes;
                  properties := lines;
                  schemaData := data;
                  entityType := extractEntityType name |};
             gn_position := (0, 0)%Z |}
  | None => Throw
  end.

Fixpoint schemaNodes (relationships : list SchemaRelationship)
  (expandedNodes : list string) (schemas : list (string * value))
  : outcome (list GraphNode) :=
  match schemas with
  | [] => Ret []
  | (name, schema) :: rest =>
      node <- schemaNode relationships expandedNodes name schema ;;
      nodes <- schemaNodes relationships expandedNodes rest ;;
      Ret (node :: nodes)
  end.

End Graph.

(** [relationshipGroups]: a [Map] from the key [from-to] to the
    relationships with that key, in the order in which the keys first
    occur. *)
Fixpoint addToGroup (groups : list (string * list SchemaRelationship))
  (key : string) (rel : SchemaRelationship) : list (string * list SchemaRelationship) :=
  match groups with
  | [] => [(key, [rel])]
  | (k, rels) :: rest =>
      if String.eqb k key then (k, rels ++ [rel]) :: rest
      else (k, rels) :: addToGroup rest key rel
  end.

Definition groupRelationships (relationships : list SchemaRelationship)
  : list (string * list SchemaRelationship) :=
  fold_left (fun groups rel => addToGroup groups (from rel +:+ "-" +:+ to rel) rel)
            relationships [].

(** [nodeIds.has(name) ? name : Array.from(nodeIds).find(id =>
    id.endsWith(name)) || name] *)
Definition nodeFor (nodeIds : list string) (name : string) : string :=
  if existsb (String.eqb name) nodeIds then name
  else match List.find (fun id => endsWith id name) nodeIds with
       | Some id => if nonEmpty id then id else name
       | None => name
       end.

(** [rels.map(r => r.propertyName).filter(Boolean)] *)
Definition namesOf (rels : list SchemaRelationship) : list string :=
  flat_map (fun r => match propertyName r with
                     | Some n => if nonEmpty n then [n] else []
                     | None => []
                     end) rels.

(** The edge of a group whose two ends are nodes. *)
Definition groupEdge (edgeId fromNode toNode : string) (rel : SchemaRelationship)
  (rels : list SchemaRelationship) : GraphEdge :=
  {| ge_id := edgeId;
     ge_source := fromNode;
     ge_target := toNode;
     animated := true;
     stroke := if Nat.ltb 1 (length rels) then "#12a525ff"
               else match rel_type rel with
                    | one_to_many => "#ff9800"
                    | _ => "#61dafb"
                    end;
     strokeWidth := if Nat.ltb 1 (length rels) then QArith_base.Qmake 5 2
                    else match rel_type rel with
                         | one_to_many => QArith_base.Qmake 2 1
                         | _ => QArith_base.Qmake 1 1
                         end;
     ge_data := {| ed_type := if Nat.ltb 1 (length rels) then multiple
                              else match rel_type rel with
                                   | one_to_many => one_to_many
                                   | _ => one_to_one
                                   end;
                   propertyNames := namesOf rels;
                   count := length rels |} |}.

(** One round of [relationshipGroups.forEach]: the edges and the set
    [edgeIds] after it. *)
Definition addGroupEdge (nodeIds : list string)
  (st : list GraphEdge * list string) (rels : list SchemaRelationship)
  : outcome (list GraphEdge * list string) :=
  match rels with
  | [] => Throw
  | rel :: _ =>
      let '(edges, edgeIds) := st in
      let fromNode := nodeFor nodeIds (from rel) in
      let toNode := nodeFor nodeIds (to rel) in
      if existsb (String.eqb fromNode) nodeIds && existsb (String.eqb toNode) nodeIds then
        let edgeId := fromNode +:+ "-" +:+ toNode in
        if negb (existsb (String.eqb edgeId) edgeIds) then
          Ret (edges ++ [groupEdge edgeId fromNode toNode rel rels], edgeIds ++ [edgeId])
        else Ret st
      else Ret st
  end.

Fixpoint groupEdges (nodeIds : list string)
  (groups : list (string * list SchemaRelationship))
  (st : list GraphEdge * list string) : outcome (list GraphEdge * list string) :=
  match groups with
  | [] => Ret st
  | (_, rels) :: rest =>
      st' <- addGroupEdge nodeIds st rels ;;
      groupEdges nodeIds rest st'
  end.

(** [createSchemaGraph]; [schemas] is the [Map] as its entries in insertion
    order, [expandedNodes] the elements of the set. *)
Definition createSchemaGraph (toText : json -> string)
  (schemas : list (string * value)) (relationships : list SchemaRelationship)
  (expandedNodes : list string) : outcome (list GraphNode * list GraphEdge) :=
  nodes <- schemaNodes toText relationships expandedNodes schemas ;;
  let nodeIds := map fst schemas in
  st <- groupEdges nodeIds (groupRelationships relationships) ([], []) ;;
  Ret (nodes, fst st).

End SchemaGraph.

(** What the schema graph is compared with. *)
Module SchemaGraphSpec.
Import JS SchemaRelationships SchemaGraph.

(** A relationship read from the schema named [name]: it starts at that
    schema, leads where the Path Resolver takes its reference, which names a
    JSON file, and is of one of the two kinds a single reference has. *)
Definition FromSchema (name : string) (rel : SchemaRelationship) : Prop :=
  from rel = name /\
  to rel = PathSpec.resolve name (refPath rel) /\
  endsWith (beforeHash (refPath rel)) ".json" = true /\
  rel_type rel <> multiple /\
  propertyName rel <> None.

(** An edge of the schema graph over the nodes [ids]: it joins two of them,
    is named after them, and stands for at least one relationship, for several
    exactly when its kind is [multiple]. *)
Definition GraphEdgeOk (ids : list string) (e : GraphEdge) : Prop :=
  List.In (ge_source e) ids /\ List.In (ge_target e) ids /\
  ge_id e = ge_source e +:+ "-" +:+ ge_target e /\
  1 <= count (ge_data e) /\
  (ed_type (ge_data e) = multiple <-> 1 < count (ge_data e)).

End SchemaGraphSpec.

(** ** What an exported object is compared with *)
Module ExportShape.
Import JS SchemaRelationships DataModelExport.

(** The names [buildObjectFromInstance] iterates: the keys of
    [schema.properties] when that is a truthy object. *)
Definition schemaKeys (schema : json) : list (string * json) :=
  match getq (Some schema) "properties" with
  | Some props => if truthy (Some props) && typeof_object (Some props) then entries props else []
  | None => []
  end.

(** [options?.includeMetadata] *)
Definition wantsMetadata (options : option ExportOptions) : bool :=
  match options with
  | Some o => includeMetadata o
  | None => false
  end.

(** The value of a property that is not a reference: what the user entered,
    or the default of the property definition. *)
Definition plainValue (nodeValues : list (string * json)) (propName : string)
  (propDef : json) : json :=
  match assoc propName nodeValues with
  | Some userValue => userValue
  | None => getDefaultValue propDef
  end.

End ExportShape.

(** ** src/components/DataModelBuilder.tsx: what the canvas hands to the
       validator, and the deletion of a node *)
Module BuilderCanvas.
Import JS SchemaRelationships BuilderTypes DataModelExport ConnectionQueries.

(** [instancesMap], lines 156-170: a [Map] set once for every node that has
    a schema path; a later node with the same identifier replaces the value
    and keeps the place of the entry. *)
Definition instancesMap (nodes : list Node) : InstanceMap :=
  fold_left
    (fun m node =>
       match node_data node with
       | Some nodeData =>
           if nonEmpty (nd_schemaPath nodeData) then
             assign m (node_id node)
               {| inst_id := node_id node;
                  inst_schemaPath := nd_schemaPath nodeData;
                  inst_position := node_position node;
                  inst_data := JObj [] |}
           else m
       | None => m
       end)
    nodes [].

(** [dataConnections], lines 173-180. *)
Definition dataConnections (edges : list Edge) : list DataConnection :=
  map (fun edge =>
         {| conn_id := edge_id edge;
            sourceId := source edge;
            targetId := target edge;
            conn_propertyPath := default "" (sourceHandle edge) |})
      edges.

(** [handleDeleteNode], lines 284-289: the two state updates. *)
Definition handleDeleteNode (instanceId : string) (nodes : list Node) (edges : list Edge)
  : list Node * list Edge :=
  (List.filter (fun node => negb (String.eqb (node_id node) instanceId)) nodes,
   List.filter (fun edge => negb (String.eqb (source edge) instanceId) &&
                            negb (String.eqb (target edge) instanceId)) edges).

(** Every edge joins two nodes of the canvas. *)
Definition Joined (nodes : list Node) (edges : list Edge) : Prop :=
  forall e, List.In e edges ->
            List.In (source e) (map node_id nodes) /\ List.In (target e) (map node_id nodes).

End BuilderCanvas.

(** ** utils/builderTypes.ts: display names *)
Module DisplayNames.
Import JS BuilderTypes.

Definition upper (c : ascii) : ascii :=
  let n := nat_of_ascii c in
  if (97 <=? n)%nat && (n <=? 122)%nat then ascii_of_nat (n - 32) else c.

(** [word.charAt(0).toUpperCase() + word.slice(1)]; as for [toLowerCase],
    the letters that change are the 26 of the ASCII alphabet. *)
Definition capitalize (word : string) : string :=
  match word with
  | EmptyString => EmptyString
  | String c rest => String (upper c) rest
  end.

(** [s.split(/[-_]/)]: the same cuts as [split], at either character. *)
Definition isSeparator (c : ascii) : bool := Ascii.eqb c "-" || Ascii.eqb c "_".

Fixpoint splitWords (s : string) : list string :=
  match s with
  | EmptyString => [EmptyString]
  | String a s' =>
      if isSeparator a then EmptyString :: splitWords s'
      else match splitWords s' with
           | [] => [String a EmptyString]
           | h :: t => String a h :: t
           end
  end.

(** [getSchemaNameFromPath], lines 94-102; the stem is computed by the same
    two lines as in [generateInstanceId]. *)
Definition getSchemaNameFromPath (schemaPath : string) : string :=
  join " " (map capitalize (splitWords (baseNameOf schemaPath))).

(** The stem with every separator replaced by a space. *)
Fixpoint spaced (s : string) : string :=
  match s with
  | EmptyString => EmptyString
  | String a s' => String (if isSeparator a then " "%char else a) (spaced s')
  end.

End DisplayNames.

(** ** utils/dataModelExport.ts: validation of data to import *)
Module ImportValidation.
Import JS SchemaRelationships DataModelImport.

(** Result of import validation. *)
Record ImportValidationResult : Type := {
  iv_valid : bool;
  iv_errors : list string;
  iv_warnings : list string;
  matchedSchema : option string
}.

(** [v[key]] for a truthy [v] and any key: a property of an object, an
    element or the length of an array, a character or the length of a
    string. *)
Definition member (v : json) (key : string) : value :=
  match v with
  | JObj kvs => assoc key kvs
  | JArr xs =>
      match assoc key (index_from 0 xs) with
      | Some x => Some x
      | None => if String.eqb key "length" then Some (JNum (Z.of_nat (length xs))) else None
      end
  | JStr s =>
      match assoc key (index_from 0 (map (fun c => JStr (String c "")) (list_ascii_of_string s)))
      with
      | Some x => Some x
      | None =>
          if String.eqb key "length" then Some (JNum (Z.of_nat (String.length s))) else None
      end
  | _ => None
  end.

(** [typeof value] *)
Definition typeofName (value : jdata) : string :=
  match value with
  | DBool _ => "boolean"
  | DNum _ => "number"
  | DStr _ => "string"
  | DNull | DArr _ _ | DObj _ _ => "object"
  end.

(** [validateValue], lines 350-372, for a truthy [propDef]. *)
Definition validateValue (value : jdata) (propDef : json) : bool :=
  match value with
  | DNull => true
  | _ =>
      let type := getq (Some propDef) "type" in
      if is_str type "string" then
        match value with DStr _ => true | _ => false end
      else if is_str type "number" || is_str type "integer" then
        match value with DNum _ => true | _ => false end
      else if is_str type "boolean" then
        match value with DBool _ => true | _ => false end
      else if is_str type "array" then
        match value with DArr _ _ => true | _ => false end
      else if is_str type "object" then
        match value with DObj _ _ => true | _ => false end
      else true
  end.

(** What the loop over [Object.entries(data)] does with one entry. *)
Inductive Verdict : Type :=
| skipped          (* metadata, or a reference property *)
| unknown          (* no definition: a warning *)
| mistyped         (* an error *)
| passed.

Definition judge (schemaProps : json) (key : string) (value : jdata) : Verdict :=
  if startsWith key "_" then skipped else
  match member schemaProps key with
  | Some propDef =>
      if negb (truthy (Some propDef)) then unknown
      else if truthy (getq (Some propDef) "$ref") then skipped
      else if is_str (getq (Some propDef) "type") "array" &&
              truthy (getq (getq (Some propDef) "items") "$ref") then skipped
      else if negb (validateValue value propDef) then mistyped
      else passed
  | None => unknown
  end.

Section Validating.

Variable toPropertyKey : json -> string.

(** [Math.round(score * 100)] as a template literal prints it. *)
Variable percent : Score -> string.

(** [score < 0.8] *)
Definition score_lt_08 (a : Score) : bool :=
  negb (isNaN a) && Nat.ltb (5 * num a) (4 * den a).

(** The elements a [for ... of] over [schema.required || []] visits. *)
Definition requiredProps (required : value) : outcome (list json) :=
  if truthy required then
    match required with
    | Some (JArr xs) => Ret xs
    | Some (JStr s) => Ret (map (fun c => JStr (String c "")) (list_ascii_of_string s))
    | _ => Throw
    end
  else Ret [].

(** The loop over the required properties, lines 398-402. *)
Fixpoint missing (data : jdata) (reqs : list json) : outcome (list string) :=
  match reqs with
  | [] => Ret []
  | reqProp :: rest =>
      present <- hasProperty toPropertyKey data reqProp ;;
      errors <- missing data rest ;;
      Ret (if present then errors
           else ("Missing required property: " +:+ propertyKey toPropertyKey reqProp) :: errors)
  end.

(** The message of a property whose value has the wrong type. *)
Definition mistypedMessage (schemaProps : json) (key : string) (value : jdata) : string :=
  "Property '" +:+ key +:+ "' has invalid type. Expected " +:+
  match getq (member schemaProps key) "type" with
  | Some t => propertyKey toPropertyKey t
  | None => "undefined"
  end +:+ ", got " +:+ typeofName value.

(** The loop over [Object.entries(data)], lines 405-421: the errors and the
    warnings it adds. *)
Fixpoint inspect (schemaProps : json) (fields : list (string * jdata))
  : list string * list string :=
  match fields with
  | [] => ([], [])
  | (key, value) :: rest =>
      let '(errors, warnings) := inspect schemaProps rest in
      match judge schemaProps key value with
      | skipped | passed => (errors, warnings)
      | unknown => (errors, ("Unknown property: " +:+ key) :: warnings)
      | mistyped => (mistypedMessage schemaProps key value :: errors, warnings)
      end
  end.

(** [validateDataAgainstSchema], lines 377-429. *)
Definition validateDataAgainstSchema (data : jdata) (schemaPath : string)
  (schemas : catalog) : outcome ImportValidationResult :=
  let schema := assoc schemaPath schemas in
  if negb (truthy schema) then
    Ret {| iv_valid := false; iv_errors := ["Schema not found: " +:+ schemaPath];
           iv_warnings := []; matchedSchema := None |}
  else
  ty <- get schema "type" ;;
  props <- get schema "properties" ;;
  match props with
  | Some schemaProps =>
      if negb (is_str ty "object") || negb (truthy props) then
        Ret {| iv_valid := false; iv_errors := ["Schema is not an object type"];
               iv_warnings := []; matchedSchema := None |}
      else
      required <- get schema "required" ;;
      reqs <- requiredProps required ;;
      missingErrors <- missing data reqs ;;
      match data with
      | DNull => Throw
      | _ =>
          let '(typeErrors, warnings) := inspect schemaProps (dentries data) in
          Ret {| iv_valid := match missingErrors ++ typeErrors with
                             | [] => true
                             | _ :: _ => false
                             end;
                 iv_errors := missingErrors ++ typeErrors;
                 iv_warnings := warnings;
                 matchedSchema := Some schemaPath |}
      end
  | None =>
      Ret {| iv_valid := false; iv_errors := ["Schema is not an object type"];
             iv_warnings := []; matchedSchema := None |}
  end.

Definition itemLabel (i : nat) : string :=
  "Item " +:+ NilZero.string_of_uint (Nat.to_uint i).

Definition partialMatch (score : Score) : string :=
  "Partial schema match (" +:+ percent score +:+ "%)".

(** The loop over the items of an array, lines 452-465. *)
Fixpoint validateItems (schemas : catalog) (items : list jdata) (i : nat)
  : outcome (list string * list string) :=
  match items with
  | [] => Ret ([], [])
  | item :: rest =>
      match item with
      | DObj _ _ =>
          m <- findMatchingSchema toPropertyKey item schemas ;;
          r <- validateItems schemas rest (S i) ;;
          Ret (match m with
               | None => ((itemLabel i +:+ ": No matching schema found") :: fst r, snd r)
               | Some (_, score) =>
                   if score_lt_08 score
                   then (fst r, (itemLabel i +:+ ": " +:+ partialMatch score) :: snd r)
                   else r
               end)
      | _ =>
          r <- validateItems schemas rest (S i) ;;
          Ret ((itemLabel i +:+ ": Not a valid object") :: fst r, snd r)
      end
  end.

(** [validateImportData], lines 434-484. *)
Definition validateImportData (data : jdata) (schemas : catalog)
  : outcome ImportValidationResult :=
  match data with
  | DArr _ [] =>
      Ret {| iv_valid := false; iv_errors := ["Empty array - nothing to import"];
             iv_warnings := []; matchedSchema := None |}
  | DArr _ items =>
      r <- validateItems schemas items 0 ;;
      Ret {| iv_valid := match fst r with [] => true | _ :: _ => false end;
             iv_errors := fst r; iv_warnings := snd r; matchedSchema := None |}
  | DObj _ _ =>
      m <- findMatchingSchema toPropertyKey data schemas ;;
      match m with
      | None =>
          Ret {| iv_valid := false; iv_errors := ["No matching schema found for the data"];
                 iv_warnings := []; matchedSchema := None |}
      | Some (schemaPath, score) =>
          validation <- validateDataAgainstSchema data schemaPath schemas ;;
          Ret (if score_lt_08 score
               then {| iv_valid := iv_valid validation;
                       iv_errors := iv_errors validation;
                       iv_warnings := iv_warnings validation ++ [partialMatch score];
                       matchedSchema := matchedSchema validation |}
               else validation)
      end
  | _ =>
      Ret {| iv_valid := false; iv_errors := ["Invalid JSON: Expected an object"];
             iv_warnings := []; matchedSchema := None |}
  end.

End Validating.

End ImportValidation.

(** ** Concrete inputs for the examples of the canvas queries and the rest *)
Module MoreSamples.
Import JS SchemaRelationships BuilderTypes ConnectionValidator ConnectionQueries.
Import Samples.

(** The instances of [userInstances] as the entries of the map, in insertion
    order. *)
Definition userEntries : InstanceMap :=
  [("user-1", instanceOf "user-1" "v1/user/user.schema.json");
   ("role-1", instanceOf "role-1" "v1/user/role.schema.json");
   ("address-1", instanceOf "address-1" "v1/user/address.schema.json");
   ("address-2", instanceOf "address-2" "v1/user/address.schema.json")].

(** A saved node with the identifier [user-3]. *)
Definition savedUser : json :=
  JObj [("id", JStr "user-3");
        ("position", JObj [("x", JNum 0); ("y", JNum 0)]);
        ("data", JObj [("schemaPath", JStr "v1/user/user.schema.json");
                       ("instanceId", JStr "user-3")])].

(** A canvas of one user node, and the text and the parser of a storage that
    holds its state. *)
Definition canvasUser : BuilderPersistence.FlowNode :=
  {| BuilderPersistence.fn_node := nodeOf "user-1" "v1/user/user.schema.json";
     BuilderPersistence.fn_type := Some "builderNode" |}.

Definition canvasState : json :=
  JObj [("nodes",
         JArr [JObj [("id", JStr "user-1");
                     ("type", JStr "builderNode");
                     ("position", JObj [("x", JNum 0); ("y", JNum 0)]);
                     ("data", JObj [("schemaPath", JStr "v1/user/user.schema.json");
                                    ("instanceId", JStr "user-1");
                                    ("schemaTitle", JStr "user-1")])]]);
        ("edges", JArr []);
        ("lastSaved", JStr "2024-01-01T00:00:00.000Z")].

Definition canvasStringify (j : json) : string := "canvas".

Definition canvasParse (text : string) : option json :=
  if String.eqb text "canvas" then Some canvasState else None.

(** A user node with a value for [name] and one for [nickname], which the
    user schema of [importCatalog] does not define. *)
Definition valuedUser : DataModelExport.Node :=
  {| DataModelExport.node_id := "user-1";
     DataModelExport.node_position := {| pos_x := 0; pos_y := 0 |};
     DataModelExport.node_data :=
       Some {| DataModelExport.nd_instanceId := "user-1";
               DataModelExport.nd_schemaPath := "user.schema.json";
               DataModelExport.nd_schemaTitle := JStr "User";
               DataModelExport.nd_values :=
                 Some [("name", JStr "Al"); ("nickname", JStr "A")] |} |}.

Definition withMetadata : DataModelExport.ExportOptions :=
  {| DataModelExport.includeMetadata := true; DataModelExport.rootInstanceId := None |}.

Definition samplePercent (score : DataModelImport.Score) : string := "".

End MoreSamples.
(* ===================================================================== *)
(** * Part II: properties                                                 *)
(* ===================================================================== *)
(** ** Facts about the string primitives *)
Module StringFacts.
Import JS.

Lemma append_nil (s : string) : "" +:+ s = s.
Proof. reflexivity. Qed.

Lemma append_cons (a : ascii) (s t : string) : String a s +:+ t = String a (s +:+ t).
Proof. reflexivity. Qed.

Ltac unfold_append := rewrite ?append_cons, ?append_nil in *.

Lemma chars_app_mid (x y : string) (c : ascii) : List.In c (chars (x +:+ String c y)).
Proof.
  induction x as [|a x IH]; unfold_append; simpl.
  - now left.
  - now right.
Qed.

Lemma split_no_sep (c : ascii) (s : string) :
  ~ List.In c (chars s) -> split c s = [s].
Proof.
  induction s as [|a s IH]; simpl; intros H; [reflexivity|].
  destruct (Ascii.eqb_spec a c) as [->|Hne].
  - exfalso. apply H. now left.
  - rewrite IH; [reflexivity|]. intros Hin. apply H. now right.
Qed.

Lemma split_nonempty (c : ascii) (s : string) : split c s <> [].
Proof.
  destruct s as [|a s]; simpl; [discriminate|].
  destruct (Ascii.eqb a c); [discriminate|]. destruct (split c s); discriminate.
Qed.

Lemma last_cons_cons {A} (x : A) (l : list A) : l <> [] -> last (x :: l) = last l.
Proof. destruct l; [congruence|reflexivity]. Qed.

Lemma split_app_sep (c : ascii) (x y : string) :
  exists h t, split c (x +:+ String c y) = h :: t /\ t <> [] /\ last t = last (split c y).
Proof.
  induction x as [|a x (h & t & E & Hne & Hl)]; unfold_append; simpl.
  - rewrite Ascii.eqb_refl. exists "", (split c y).
    split; [reflexivity|]. split; [apply split_nonempty|reflexivity].
  - rewrite E. destruct (Ascii.eqb a c).
    + exists "", (h :: t). split; [reflexivity|]. split; [discriminate|].
      rewrite last_cons_cons by exact Hne. exact Hl.
    + exists (String a h), t. auto.
Qed.

Lemma last_split_app (c : ascii) (x y : string) :
  last (split c (x +:+ String c y)) = last (split c y).
Proof.
  destruct (split_app_sep c x y) as (h & t & -> & Hne & Hl).
  rewrite last_cons_cons by exact Hne. exact Hl.
Qed.

Lemma prefix_chars (p s : string) (c : ascii) :
  String.prefix p s = true -> List.In c (chars p) -> List.In c (chars s).
Proof.
  revert s. induction p as [|a p IH]; intros s H Hin; [destruct Hin|].
  destruct s as [|b s]; simpl in H; [discriminate|].
  destruct (ascii_dec a b) as [->|]; [|discriminate].
  destruct Hin as [->|Hin]; [now left|]. right. now apply IH.
Qed.

Lemma startsWith_absent (s p : string) (c : ascii) :
  List.In c (chars p) -> ~ List.In c (chars s) -> startsWith s p = false.
Proof.
  intros Hp Hs. unfold startsWith. destruct (String.prefix p s) eqn:E; [|reflexivity].
  exfalso. apply Hs. eapply prefix_chars; eauto.
Qed.

Lemma includes_chars (s sub : string) (c : ascii) :
  includes s sub = true -> List.In c (chars sub) -> List.In c (chars s).
Proof.
  induction s as [|a s IH]; cbn [includes]; intros H Hin.
  - rewrite orb_false_r in H. eapply (prefix_chars sub ""); eauto.
  - apply orb_prop in H. destruct H as [H|H].
    + eapply (prefix_chars sub (String a s)); eauto.
    + right. now apply IH.
Qed.

Lemma includes_absent (s sub : string) (c : ascii) :
  List.In c (chars sub) -> ~ List.In c (chars s) -> includes s sub = false.
Proof.
  intros Hp Hs. destruct (includes s sub) eqn:E; [|reflexivity].
  exfalso. apply Hs. eapply includes_chars; eauto.
Qed.

Lemma beforeHash_id (s : string) : ~ List.In "#"%char (chars s) -> beforeHash s = s.
Proof.
  induction s as [|a s IH]; simpl; intros H; [reflexivity|].
  destruct (Ascii.eqb_spec a "#") as [->|Hn]; [exfalso; apply H; now left|].
  rewrite IH; [reflexivity|]. intros Hin. apply H. now right.
Qed.

End StringFacts.

(** ** Instance naming *)
Module Naming.
Import JS BuilderTypes StringFacts.

(** An identifier determines its stem and its number: the number has no
    dash, so the last dash of the identifier is the separator. *)
Lemma id_split (b1 b2 d1 d2 : string) :
  ~ List.In "-"%char (chars d1) -> ~ List.In "-"%char (chars d2) ->
  b1 +:+ "-" +:+ d1 = b2 +:+ "-" +:+ d2 -> b1 = b2 /\ d1 = d2.
Proof.
  revert b2.
  induction b1 as [|a b1 IH]; intros [|a2 b2] H1 H2 E; unfold_append.
  - injection E as E. now split.
  - injection E as Ea E. exfalso. apply H1. rewrite E. apply chars_app_mid.
  - injection E as Ea E. exfalso. apply H2. rewrite <- E. apply chars_app_mid.
  - injection E as Ea E. destruct (IH b2 H1 H2 E) as [-> ->]. now subst.
Qed.

Lemma string_of_uint_no_dash (d : Decimal.uint) :
  ~ List.In "-"%char (chars (NilZero.string_of_uint d)).
Proof.
  assert (E : forall u, ~ List.In "-"%char (chars (NilEmpty.string_of_uint u))).
  { unfold chars. induction u; simpl; intros H.
    all: try (destruct H as [H|H]; [discriminate H|]).
    all: solve [exact H | exact (IHu H)]. }
  destruct d; try apply E.
  unfold chars. simpl. intros [H|[]]. discriminate H.
Qed.

Lemma numberToString_no_dash (n : N) : ~ List.In "-"%char (chars (numberToString n)).
Proof. apply string_of_uint_no_dash. Qed.

Lemma N_to_uint_nonnil (n : N) : N.to_uint n <> Decimal.Nil.
Proof.
  destruct n as [|p]; simpl; [discriminate|].
  apply DecimalPos.Unsigned.to_uint_nonnil.
Qed.

Lemma numberToString_inj (n m : N) : numberToString n = numberToString m -> n = m.
Proof.
  unfold numberToString. intros E.
  assert (E' : Some (N.to_uint n) = Some (N.to_uint m)).
  { rewrite <- (NilZero.usu (N.to_uint n)) by apply N_to_uint_nonnil.
    rewrite <- (NilZero.usu (N.to_uint m)) by apply N_to_uint_nonnil.
    now rewrite E. }
  injection E' as E'.
  rewrite <- (DecimalN.Unsigned.of_to n), <- (DecimalN.Unsigned.of_to m).
  now rewrite E'.
Qed.

Lemma countOf_after (cs : gmap string N) (b0 b : string) :
  (countOf cs b <= countOf (<[b0 := (countOf cs b0 + 1)%N]> cs) b)%N.
Proof.
  unfold countOf. destruct (decide (b0 = b)) as [->|Hne].
  - rewrite lookup_insert_eq. simpl. lia.
  - rewrite lookup_insert_ne by exact Hne. lia.
Qed.

Lemma generateAll_cons (p : string) (rest : list string) (cs : gmap string N) :
  generateAll (p :: rest) cs =
  (fst (generateInstanceId p cs) :: fst (generateAll rest (snd (generateInstanceId p cs))),
   snd (generateAll rest (snd (generateInstanceId p cs)))).
Proof.
  simpl. destruct (generateAll rest _) as [ids c2]. reflexivity.
Qed.

(** Every identifier of a run is a stem and a number above the counter the
    run started from. *)
Lemma generateAll_above (paths : list string) (cs : gmap string N) (i : string) :
  List.In i (fst (generateAll paths cs)) ->
  exists b n, i = b +:+ "-" +:+ numberToString n /\ (countOf cs b < n)%N.
Proof.
  revert cs. induction paths as [|p rest IH]; intros cs Hin.
  - destruct Hin.
  - rewrite generateAll_cons in Hin. simpl in Hin. destruct Hin as [<-|Hin].
    + exists (baseNameOf p), (countOf cs (baseNameOf p) + 1)%N. split; [reflexivity|lia].
    + destruct (IH _ Hin) as (b & n & -> & Hlt).
      exists b, n. split; [reflexivity|].
      eapply N.le_lt_trans; [|exact Hlt]. apply countOf_after.
Qed.

Lemma generateAll_NoDup (paths : list string) (cs : gmap string N) :
  List.NoDup (fst (generateAll paths cs)).
Proof.
  revert cs. induction paths as [|p rest IH]; intros cs.
  - constructor.
  - rewrite generateAll_cons. simpl. constructor; [|apply IH].
    intros Hin. apply generateAll_above in Hin.
    destruct Hin as (b & n & E & Hlt).
    apply id_split in E; try apply numberToString_no_dash.
    destruct E as [<- E]. apply numberToString_inj in E. subst n.
    unfold countOf in Hlt. rewrite lookup_insert_eq in Hlt. simpl in Hlt.
    unfold countOf in Hlt. lia.
Qed.

(** Paths that end in the same file name have the same stem. *)
Lemma baseNameOf_file (dir file : string) :
  file <> "" -> ~ List.In "/"%char (chars file) ->
  baseNameOf (dir +:+ "/" +:+ file) = removeFirst ".json" (removeFirst ".schema.json" file).
Proof.
  intros Hne Hns. unfold baseNameOf, pop_value.
  change ("/" +:+ file) with (String "/" file).
  rewrite last_split_app, split_no_sep by exact Hns. simpl.
  destruct (String.eqb_spec file ""); [contradiction|reflexivity].
Qed.



Example generateAll_example :
  fst (generateAll ["v1/user/user.schema.json"; "v2/user.schema.json"; "v1/tag/tag.json"] ∅)
  = ["user-1"; "user-2"; "tag-1"].
Proof. vm_compute. reflexivity. Qed.

End Naming.

(** ** Facts about the outcome monad and its loops *)
Module OutcomeFacts.
Import JS.

Lemma bind_Ret {A B} (m : outcome A) (k : A -> outcome B) (b : B) :
  bind m k = Ret b -> exists a, m = Ret a /\ k a = Ret b.
Proof. destruct m; simpl; intros H; try discriminate. eauto. Qed.

(** Unfold one [bind] in a hypothesis that says the computation returned. *)
Ltac bind_inv H :=
  let a := fresh "a" in
  let Ha := fresh "Ha" in
  apply bind_Ret in H; destruct H as (a & Ha & H).

Lemma get_getq (v : value) (k : string) (x : value) :
  get v k = Ret x -> x = getq v k.
Proof. destruct v as [[]|]; simpl; intros H; try discriminate; now injection H as <-. Qed.

Lemma get_truthy (v : value) (k : string) :
  truthy v = true -> get v k = Ret (getq v k).
Proof. destruct v as [[]|]; simpl; intros H; try discriminate; reflexivity. Qed.

Lemma every_true_In {A} (f : A -> outcome bool) (xs : list A) (x : A) :
  every f xs = Ret true -> List.In x xs -> f x = Ret true.
Proof.
  induction xs as [|y xs IH]; simpl; intros H Hin; [destruct Hin|].
  bind_inv H. destruct a; [|discriminate].
  destruct Hin as [<-|Hin]; [exact Ha|]. now apply IH.
Qed.

Lemma every_all_true {A} (f : A -> outcome bool) (xs : list A) :
  (forall x, List.In x xs -> f x = Ret true) -> every f xs = Ret true.
Proof.
  induction xs as [|y xs IH]; simpl; intros H; [reflexivity|].
  rewrite (H y) by now left. simpl. apply IH. intros x Hx. apply H. now right.
Qed.


(** *** Code without a recursion budget never runs out of it *)

Lemma bind_nd {A B} (m : outcome A) (k : A -> outcome B) :
  m <> Diverge -> (forall a, k a <> Diverge) -> bind m k <> Diverge.
Proof. destruct m; simpl; auto. Qed.

Lemma get_nd (v : value) (k : string) : get v k <> Diverge.
Proof. destruct v as [[]|]; discriminate. Qed.

Lemma some_nd {A} (f : A -> outcome bool) (xs : list A) :
  (forall x, f x <> Diverge) -> some f xs <> Diverge.
Proof.
  intros H. induction xs as [|x xs IH]; simpl; [discriminate|].
  apply bind_nd; [apply H|]. intros []; [discriminate|exact IH].
Qed.

Lemma every_nd {A} (f : A -> outcome bool) (xs : list A) :
  (forall x, f x <> Diverge) -> every f xs <> Diverge.
Proof.
  intros H. induction xs as [|x xs IH]; simpl; [discriminate|].
  apply bind_nd; [apply H|]. intros []; [exact IH|discriminate].
Qed.

Lemma collect_nd {A B} (f : A -> outcome (list B)) (xs : list A) :
  (forall x, f x <> Diverge) -> collect f xs <> Diverge.
Proof.
  intros H. induction xs as [|x xs IH]; simpl; [discriminate|].
  apply bind_nd; [apply H|]. intros ys. apply bind_nd; [exact IH|]. discriminate.
Qed.

(** Close a goal [e <> Diverge] by following the shape of [e]. *)
Ltac no_diverge :=
  repeat first
    [ discriminate
    | apply get_nd
    | apply bind_nd; [|intros ?]
    | apply some_nd; intros ?
    | apply every_nd; intros ?
    | apply collect_nd; intros ?
    | match goal with
      | |- (if ?b then _ else _) <> Diverge => destruct b
      | |- (match ?x with _ => _ end) <> Diverge => destruct x
      | |- (let '(_, _) := ?x in _) <> Diverge => destruct x
      end ].

End OutcomeFacts.

(** ** Persistence *)
Module Storage.
Import JS BuilderStorage OutcomeFacts Samples.

Section Loading.
Variable JSON_parse : string -> option json.

(** What a successful load says about the stored text. *)
Lemma load_Some (ls ls' : gmap string string) (state : json) :
  loadBuilderState JSON_parse ls = (Some state, ls') ->
  ls' = ls /\
  exists stored, ls !! STORAGE_KEY = Some stored /\ JSON_parse stored = Some state /\
                 stateOk state = Ret true.
Proof.
  unfold loadBuilderState. destruct (ls !! STORAGE_KEY) as [stored|]; [|discriminate].
  destruct (String.eqb stored ""); [discriminate|].
  destruct (JSON_parse stored) as [st|] eqn:P; [|discriminate].
  destruct (stateOk st) as [[]| |] eqn:Ok; try discriminate.
  intros H. injection H as -> ->. split; [reflexivity|]. exists stored. auto.
Qed.

Lemma load_None (ls ls' : gmap string string) :
  loadBuilderState JSON_parse ls = (None, ls') ->
  (ls' = ls /\ (ls !! STORAGE_KEY = None \/ ls !! STORAGE_KEY = Some "")) \/
  ls' = delete STORAGE_KEY ls.
Proof.
  unfold loadBuilderState, clearBuilderState.
  destruct (ls !! STORAGE_KEY) as [stored|].
  - destruct (String.eqb_spec stored "") as [->|Hne].
    + intros H. injection H as <-. left. auto.
    + destruct (JSON_parse stored) as [st|]; [|intros H; injection H as <-; now right].
      destruct (stateOk st) as [[]| |]; intros H; try discriminate;
        injection H as <-; now right.
  - intros H. injection H as <-. left. auto.
Qed.

(** A state that passes the checks has only complete nodes and edges. *)
Lemma stateOk_nodes (state : json) (ns : list json) (node : json) :
  stateOk state = Ret true ->
  getq (Some state) "nodes" = Some (JArr ns) -> List.In node ns ->
  nodeOk node = Ret true.
Proof.
  unfold stateOk. intros H Hn Hin.
  destruct (truthy (Some state)); [|discriminate]. cbn [negb] in H.
  bind_inv H. apply get_getq in Ha. bind_inv H. apply get_getq in Ha0. subst.
  rewrite Hn in H. destruct (getq (Some state) "edges") as [[]|]; try discriminate.
  bind_inv H. destruct a; [|discriminate].
  eapply every_true_In; eauto.
Qed.

Lemma stateOk_edges (state : json) (es : list json) (edge : json) :
  stateOk state = Ret true ->
  getq (Some state) "edges" = Some (JArr es) -> List.In edge es ->
  edgeOk edge = Ret true.
Proof.
  unfold stateOk. intros H He Hin.
  destruct (truthy (Some state)); [|discriminate]. cbn [negb] in H.
  bind_inv H. apply get_getq in Ha. bind_inv H. apply get_getq in Ha0. subst.
  rewrite He in H. destruct (getq (Some state) "nodes") as [[]|]; try discriminate.
  bind_inv H. destruct a; [|discriminate].
  eapply every_true_In; eauto.
Qed.

Lemma nodeOk_fields (node : json) :
  nodeOk node = Ret true ->
  truthy (getq (Some node) "id") = true /\
  truthy (getq (Some node) "position") = true /\
  truthy (getq (getq (Some node) "data") "schemaPath") = true /\
  truthy (getq (getq (Some node) "data") "instanceId") = true.
Proof.
  unfold nodeOk. intros H.
  bind_inv H. apply get_getq in Ha. bind_inv H. apply get_getq in Ha0.
  bind_inv H. apply get_getq in Ha1. subst. injection H as H.
  repeat (apply andb_prop in H; destruct H as [H ?]). auto.
Qed.

Lemma edgeOk_fields (edge : json) :
  edgeOk edge = Ret true ->
  truthy (getq (Some edge) "id") = true /\
  truthy (getq (Some edge) "source") = true /\
  truthy (getq (Some edge) "target") = true.
Proof.
  unfold edgeOk. intros H.
  bind_inv H. apply get_getq in Ha. bind_inv H. apply get_getq in Ha0.
  bind_inv H. apply get_getq in Ha1. subst. injection H as H.
  repeat (apply andb_prop in H; destruct H as [H ?]). auto.
Qed.

Lemma load_is_None (ls : gmap string string) (stored : string) (state : json) :
  ls !! STORAGE_KEY = Some stored -> JSON_parse stored = Some state ->
  stateOk state <> Ret true ->
  fst (loadBuilderState JSON_parse ls) = None /\
  (stored <> "" -> snd (loadBuilderState JSON_parse ls) = delete STORAGE_KEY ls).
Proof.
  intros Hs Hp Hbad. unfold loadBuilderState, clearBuilderState. rewrite Hs.
  destruct (String.eqb_spec stored "") as [->|Hne]; [split; [reflexivity|congruence]|].
  rewrite Hp. destruct (stateOk state) as [[]| |]; try congruence; split; auto.
Qed.

(** C8.  [loadBuilderState] is all-or-nothing.  When it returns a state, the
    state is the parsed saved text as it is, every check passed, and the
    storage is untouched; when it returns [null], the saved item is removed
    from the storage (or there was no item, or an empty one, to begin with).
    It returns [null] whenever a saved node has no (truthy) [id], [position]
    or [data.schemaPath], and whenever a saved edge has no (truthy) [id],
    [source] or [target]. *)
Theorem loadBuilderState_all_or_nothing :
  forall (ls : gmap string string),
    (forall state ls',
        loadBuilderState JSON_parse ls = (Some state, ls') ->
        ls' = ls /\
        exists stored, ls !! STORAGE_KEY = Some stored /\
                       JSON_parse stored = Some state /\ stateOk state = Ret true) /\
    (forall ls',
        loadBuilderState JSON_parse ls = (None, ls') ->
        (ls' = ls /\ (ls !! STORAGE_KEY = None \/ ls !! STORAGE_KEY = Some "")) \/
        ls' = delete STORAGE_KEY ls) /\
    (forall stored state ns node,
        ls !! STORAGE_KEY = Some stored -> JSON_parse stored = Some state ->
        getq (Some state) "nodes" = Some (JArr ns) -> List.In node ns ->
        truthy (getq (Some node) "id") = false \/
        truthy (getq (Some node) "position") = false \/
        truthy (getq (getq (Some node) "data") "schemaPath") = false ->
        fst (loadBuilderState JSON_parse ls) = None /\
        (stored <> "" -> snd (loadBuilderState JSON_parse ls) = delete STORAGE_KEY ls)) /\
    (forall stored state es edge,
        ls !! STORAGE_KEY = Some stored -> JSON_parse stored = Some state ->
        getq (Some state) "edges" = Some (JArr es) -> List.In edge es ->
        truthy (getq (Some edge) "id") = false \/
        truthy (getq (Some edge) "source") = false \/
        truthy (getq (Some edge) "target") = false ->
        fst (loadBuilderState JSON_parse ls) = None /\
        (stored <> "" -> snd (loadBuilderState JSON_parse ls) = delete STORAGE_KEY ls)).
Proof using Type.
  intros ls. split; [intros; now apply load_Some|].
  split; [intros; now apply load_None|]. split.
  - intros stored state ns node Hs Hp Hn Hin Hbad.
    eapply load_is_None; eauto. intros Ok.
    destruct (nodeOk_fields _ (stateOk_nodes _ _ _ Ok Hn Hin)) as (? & ? & ? & ?).
    destruct Hbad as [?|[?|?]]; congruence.
  - intros stored state es edge Hs Hp He Hin Hbad.
    eapply load_is_None; eauto. intros Ok.
    destruct (edgeOk_fields _ (stateOk_edges _ _ _ Ok He Hin)) as (? & ? & ?).
    destruct Hbad as [?|[?|?]]; congruence.
Qed.

(** C10.  [loadBuilderState] also requires [data.instanceId] on every saved
    node: a node without a (truthy) one makes the load return [null] and
    remove the saved item, whatever its other fields, while a node is accepted
    as soon as its [id], [position], [data.schemaPath] and [data.instanceId]
    are all truthy. *)
Theorem loadBuilderState_requires_instanceId :
  forall (ls : gmap string string) (stored : string) (state : json)
         (ns : list json) (node : json),
    ls !! STORAGE_KEY = Some stored -> JSON_parse stored = Some state ->
    getq (Some state) "nodes" = Some (JArr ns) -> List.In node ns ->
    truthy (getq (getq (Some node) "data") "instanceId") = false ->
    fst (loadBuilderState JSON_parse ls) = None /\
    (stored <> "" -> snd (loadBuilderState JSON_parse ls) = delete STORAGE_KEY ls) /\
    (forall other,
        truthy (getq (Some other) "id") = true ->
        truthy (getq (Some other) "position") = true ->
        truthy (getq (getq (Some other) "data") "schemaPath") = true ->
        (nodeOk other = Ret true <->
         truthy (getq (getq (Some other) "data") "instanceId") = true)).
Proof using Type.
  intros ls stored state ns node Hs Hp Hn Hin Hbad.
  assert (Hnot : stateOk state <> Ret true).
  { intros Ok. destruct (nodeOk_fields _ (stateOk_nodes _ _ _ Ok Hn Hin)) as (? & ? & ? & ?).
    congruence. }
  destruct (load_is_None ls stored state Hs Hp Hnot) as [H1 H2].
  split; [exact H1|]. split; [exact H2|].
  intros other Hid Hpos Hsp. split.
  - intros Ok. now apply nodeOk_fields in Ok as (? & ? & ? & ?).
  - intros Hi. unfold nodeOk.
    assert (Hnn : truthy (Some other) = true).
    { destruct other; simpl in *; try reflexivity; discriminate. }
    rewrite !(get_truthy _ _ Hnn). cbn [bind]. now rewrite Hid, Hpos, Hsp, Hi.
Qed.

End Loading.

Lemma loadBuilderState_requires_instanceId_witness :
  fst (loadBuilderState sampleParse sampleStorage) = None /\
  snd (loadBuilderState sampleParse sampleStorage) = delete STORAGE_KEY sampleStorage.
Proof.
  destruct (loadBuilderState_requires_instanceId sampleParse sampleStorage "saved"
              sampleState [sampleNode] sampleNode) as (H1 & H2 & _).
  - reflexivity.
  - reflexivity.
  - reflexivity.
  - simpl. now left.
  - reflexivity.
  - split; [exact H1|]. apply H2. discriminate.
Defined.

Lemma loadBuilderState_all_or_nothing_witness :
  fst (loadBuilderState noPositionParse sampleStorage) = None /\
  snd (loadBuilderState noPositionParse sampleStorage) = delete STORAGE_KEY sampleStorage.
Proof.
  destruct (loadBuilderState_all_or_nothing noPositionParse sampleStorage)
    as (_ & _ & Hnode & _).
  destruct (Hnode "saved" noPositionState [noPositionNode] noPositionNode) as [H1 H2].
  - reflexivity.
  - reflexivity.
  - reflexivity.
  - simpl. now left.
  - right. left. reflexivity.
  - split; [exact H1|]. apply H2. discriminate.
Defined.

End Storage.

(** ** The path resolver *)
Module Resolver.
Import JS SchemaRelationships ConnectionValidator PathSpec StringFacts.

Lemma hd_split_beforeHash (ref : string) : List.hd "" (split "#" ref) = beforeHash ref.
Proof.
  induction ref as [|a s IH]; simpl; [reflexivity|].
  destruct (Ascii.eqb a "#"); [reflexivity|].
  destruct (split "#" s) as [|h t] eqn:E; [now apply split_nonempty in E|].
  simpl in *. now rewrite IH.
Qed.

Lemma split_two (c : ascii) (s : string) :
  List.In c (chars s) -> exists h h' t, split c s = h :: h' :: t.
Proof.
  induction s as [|a s IH]; simpl; intros Hin; [destruct Hin|].
  destruct (Ascii.eqb_spec a c) as [->|Hne].
  - destruct (split c s) as [|h t] eqn:E; [now apply split_nonempty in E|]. eauto.
  - destruct Hin as [->|Hin]; [congruence|].
    destruct (IH Hin) as (h & h' & t & ->). eauto.
Qed.

Section LastIndex.
Variable c : ascii.

Lemma lastIndexOf_from_spec (s : string) :
  forall i f,
    (~ List.In c (chars s) -> lastIndexOf_from c s i f = f) /\
    (List.In c (chars s) ->
     lastIndexOf_from c s i f = (i + lastIndexOf_from c s 0 (-1))%Z /\
     (0 <= lastIndexOf_from c s 0 (-1))%Z).
Proof.
  induction s as [|a s IH]; intros i f; simpl.
  - split; [reflexivity|intros []].
  - destruct (in_dec ascii_dec c (chars s)) as [Hin|Hnin].
    + split; [intros H; exfalso; apply H; now right|]. intros _.
      destruct (IH (i + 1)%Z (if Ascii.eqb a c then i else f)) as [_ H1].
      destruct (IH (0 + 1)%Z (if Ascii.eqb a c then 0%Z else (-1)%Z)) as [_ H2].
      destruct (H1 Hin) as [E1 P]. destruct (H2 Hin) as [E2 _].
      rewrite E1, E2. split; lia.
    + destruct (IH (i + 1)%Z (if Ascii.eqb a c then i else f)) as [H1 _].
      destruct (IH (0 + 1)%Z (if Ascii.eqb a c then 0%Z else (-1)%Z)) as [H2 _].
      rewrite (H1 Hnin), (H2 Hnin).
      destruct (Ascii.eqb_spec a c) as [->|Hne].
      * split; [intros H; exfalso; apply H; now left|]. intros _. split; lia.
      * split; [reflexivity|]. intros [->|H]; [congruence|contradiction].
Qed.

Lemma lastIndexOf_absent (s : string) :
  ~ List.In c (chars s) -> lastIndexOf s c = (-1)%Z.
Proof. intros H. unfold lastIndexOf. now apply lastIndexOf_from_spec. Qed.

Lemma lastIndexOf_cons_present (a : ascii) (s : string) :
  List.In c (chars s) ->
  lastIndexOf (String a s) c = (1 + lastIndexOf s c)%Z /\ (0 <= lastIndexOf s c)%Z.
Proof.
  intros H. unfold lastIndexOf. simpl.
  destruct (lastIndexOf_from_spec s (0 + 1)%Z (if Ascii.eqb a c then 0%Z else (-1)%Z))
    as [_ H1].
  destruct (H1 H) as [E P]. rewrite E. split; [reflexivity|exact P].
Qed.

Lemma lastIndexOf_cons_absent (a : ascii) (s : string) :
  ~ List.In c (chars s) ->
  lastIndexOf (String a s) c = if Ascii.eqb a c then 0%Z else (-1)%Z.
Proof.
  intros H. unfold lastIndexOf. simpl. now apply lastIndexOf_from_spec.
Qed.

End LastIndex.

Lemma directory_cons_present (a : ascii) (s : string) :
  List.In "/"%char (chars s) -> directory (String a s) = String a (directory s).
Proof.
  intros Hin. unfold directory, join.
  destruct (split_two "/" s Hin) as (h & h' & t & Es). simpl. rewrite Es.
  destruct (Ascii.eqb_spec a "/") as [->|Hne].
  - cbn [removelast]. reflexivity.
  - cbn [removelast]. destruct t; reflexivity.
Qed.

Lemma directory_cons_absent (a : ascii) (s : string) :
  ~ List.In "/"%char (chars s) -> directory (String a s) = "".
Proof.
  intros Hnin. unfold directory, join. simpl.
  rewrite (split_no_sep "/" s Hnin).
  destruct (Ascii.eqb a "/"); reflexivity.
Qed.

(** The directory the code cuts out with [lastIndexOf] and [substring] is
    the path without its last segment. *)
Lemma baseDir_directory (basePath : string) :
  substring0 basePath (lastIndexOf basePath "/") = directory basePath.
Proof.
  unfold substring0.
  induction basePath as [|a s IH]; [reflexivity|].
  destruct (in_dec ascii_dec "/"%char (chars s)) as [Hin|Hnin].
  - destruct (lastIndexOf_cons_present "/" a s Hin) as [E P]. rewrite E.
    replace (Z.to_nat (1 + lastIndexOf s "/")) with (S (Z.to_nat (lastIndexOf s "/"))) by lia.
    cbn [String.substring]. rewrite IH. symmetry. now apply directory_cons_present.
  - rewrite (lastIndexOf_cons_absent "/" a s Hnin), (directory_cons_absent a s Hnin).
    destruct (Ascii.eqb a "/"); reflexivity.
Qed.

Lemma removelast_rev {A} (l : list A) : removelast (rev l) = rev (tl l).
Proof.
  destruct l as [|x l]; [reflexivity|]. simpl.
  rewrite removelast_app by discriminate. simpl. now rewrite app_nil_r.
Qed.

(** The array the code pushes on and pops from is the stack of the
    specification, read bottom-up. *)
Lemma fold_applyPart_walk (segs stack : list string) :
  fold_left applyPart segs (rev stack) = walk stack segs.
Proof.
  revert stack. induction segs as [|seg rest IH]; intros stack; simpl; [reflexivity|].
  unfold applyPart at 2.
  destruct (String.eqb seg "..").
  - rewrite removelast_rev. apply IH.
  - destruct (String.eqb seg "."); simpl; [apply IH|].
    change (rev stack ++ [seg]) with (rev (seg :: stack)). apply IH.
Qed.

Lemma relative_resolution (basePath path : string) :
  join "/" (fold_left applyPart (List.filter nonEmpty (split "/" path))
              (List.filter nonEmpty (split "/" (directory basePath)))) =
  join "/" (walk (rev (segments (directory basePath))) (segments path)).
Proof.
  unfold segments. rewrite <- fold_applyPart_walk, rev_involutive. reflexivity.
Qed.

Lemma resolveRefPath_resolve (basePath ref : string) :
  resolveRefPath ref basePath = resolve basePath ref.
Proof.
  unfold resolveRefPath, resolve, stripFragment.
  rewrite hd_split_beforeHash, !baseDir_directory, relative_resolution.
  rewrite orb_comm. unfold nonEmpty.
  destruct (String.eqb (directory basePath) ""); reflexivity.
Qed.

Lemma resolveRef_resolve (schemaPath ref : string) :
  resolveRef schemaPath (beforeHash ref) = resolve schemaPath ref.
Proof.
  unfold resolveRef, resolveRelativePath, baseDirOf, resolve, stripFragment.
  rewrite !baseDir_directory, relative_resolution.
  rewrite orb_comm. unfold nonEmpty.
  destruct (String.eqb (directory schemaPath) ""); reflexivity.
Qed.

Lemma directory_no_slash (basePath : string) :
  ~ List.In "/"%char (chars basePath) -> directory basePath = "".
Proof. intros H. unfold directory. now rewrite split_no_sep. Qed.

Lemma directory_file (dir file : string) :
  ~ List.In "/"%char (chars file) -> directory (dir +:+ "/" +:+ file) = dir.
Proof.
  intros H. change ("/" +:+ file) with (String "/" file).
  induction dir as [|a d IH]; unfold_append.
  - now apply directory_cons_absent.
  - rewrite directory_cons_present by apply chars_app_mid. now rewrite IH.
Qed.

(** C7.  Both resolvers of the repository compute the Path Resolver of the
    specification: [resolveRefPath] of the validator on every reference and
    base path, and the resolution the rule extractor applies to the part of a
    reference that its pattern captures.  The specification's [directory] is
    what precedes the last ['/'] of the base path, empty when the base path has
    none, so that a reference without ['/'] then resolves to itself.  The
    resolver is a function of the base path and the reference alone. *)
Theorem resolver_refines_spec :
  forall (basePath ref : string),
    resolveRefPath ref basePath = resolve basePath ref /\
    (forall m, matchRef ref = Some m -> resolveRef basePath m = resolve basePath ref) /\
    (forall dir file, ~ List.In "/"%char (chars file) ->
                      directory (dir +:+ "/" +:+ file) = dir) /\
    (~ List.In "/"%char (chars basePath) -> directory basePath = "") /\
    (~ List.In "/"%char (chars basePath) ->
     ~ List.In "/"%char (chars ref) -> ~ List.In "#"%char (chars ref) ->
     resolveRefPath ref basePath = ref).
Proof.
  intros basePath ref. split; [apply resolveRefPath_resolve|]. split.
  - intros m Hm. unfold matchRef in Hm.
    destruct (String.eqb (beforeHash ref) ""); [discriminate|].
    injection Hm as <-. apply resolveRef_resolve.
  - split; [apply directory_file|]. split; [apply directory_no_slash|].
    intros Hb Hr Hh. rewrite resolveRefPath_resolve. unfold resolve, stripFragment.
    rewrite (beforeHash_id _ Hh), (directory_no_slash _ Hb).
    rewrite (startsWith_absent ref "./" "/"), (startsWith_absent ref "../" "/"),
      (includes_absent ref "/" "/"); try assumption; simpl; auto.
Qed.

Lemma resolver_refines_spec_witness :
  resolveRefPath "../tag/./tag.schema.json#/definitions/x" "v1/user/user.schema.json"
    = "v1/tag/tag.schema.json" /\
  resolveRef "v1/user/user.schema.json" "address.schema.json"
    = "v1/user/address.schema.json" /\
  resolveRefPath "address.schema.json" "user.schema.json" = "address.schema.json".
Proof.
  destruct (resolver_refines_spec "v1/user/user.schema.json"
              "../tag/./tag.schema.json#/definitions/x") as (H1 & _).
  destruct (resolver_refines_spec "v1/user/user.schema.json" "address.schema.json")
    as (_ & H2 & _).
  destruct (resolver_refines_spec "user.schema.json" "address.schema.json")
    as (_ & _ & _ & _ & H3).
  split; [rewrite H1; reflexivity|]. split.
  - rewrite (H2 "address.schema.json" eq_refl). reflexivity.
  - apply H3; vm_compute; intros H;
      repeat (destruct H as [H|H]; [discriminate H|]); exact H.
Defined.

End Resolver.

(** ** The cardinality invariant of validated connections *)
Module Cardinality.
Import JS SchemaRelationships BuilderTypes ConnectionValidator GraphSpec OutcomeFacts.

Lemma occupies_true (i p : string) (c : DataConnection) :
  occupies i p c = true <-> sourceId c = i /\ conn_propertyPath c = p.
Proof.
  unfold occupies. rewrite andb_true_iff, !String.eqb_eq. reflexivity.
Qed.

Lemma sameTriple_true (s t p : string) (c : DataConnection) :
  sameTriple s t p c = true <-> triple c = (s, t, p).
Proof.
  unfold sameTriple, triple. rewrite !andb_true_iff, !String.eqb_eq.
  split; [intros [[-> ->] ->]; reflexivity|intros H; injection H; auto].
Qed.

Lemma existsb_false_filter {A} (f : A -> bool) (l : list A) :
  existsb f l = false -> List.filter f l = [].
Proof.
  induction l as [|x l IH]; simpl; [reflexivity|].
  destruct (f x); simpl; [discriminate|exact IH].
Qed.

Lemma no_sameTriple (s t p : string) (conns : list DataConnection) :
  existsb (sameTriple s t p) conns = false -> ~ List.In (s, t, p) (map triple conns).
Proof.
  intros H Hin. apply in_map_iff in Hin. destruct Hin as (c & E & Hc).
  assert (X : existsb (sameTriple s t p) conns = true).
  { apply existsb_exists. exists c. split; [exact Hc|]. now apply sameTriple_true. }
  congruence.
Qed.

(** What an accepting answer of the final checks guarantees. *)
Lemma checkCardinality_valid (rule : ConnectionRule) (s t p : string)
  (conns : list DataConnection) :
  valid (checkCardinality rule s t p conns) = true ->
  (cardinality rule = one -> existsb (occupies s p) conns = false) /\
  s <> t /\
  existsb (sameTriple s t p) conns = false.
Proof.
  unfold checkCardinality.
  destruct (cardinality rule) eqn:C.
  - destruct (existsb (occupies s p) conns); [discriminate|].
    destruct (String.eqb_spec s t); [discriminate|].
    destruct (existsb (sameTriple s t p) conns); [discriminate|]. auto.
  - destruct (String.eqb_spec s t); [discriminate|].
    destruct (existsb (sameTriple s t p) conns); [discriminate|].
    repeat split; auto. discriminate.
Qed.

(** An accepted proposal found its rule, and passed the final checks with
    it; for either revision of the validator. *)
Lemma validateConnection_valid (fuel : nat) (s t p : string)
  (conns : list DataConnection) (schemas : catalog)
  (instances : gmap string DataInstance) (r : ValidationResult) :
  validateConnection fuel s t p conns schemas instances = Ret r -> valid r = true ->
  exists inst rules rule,
    instances !! s = Some inst /\
    getSchemaConnectionRules (assoc (inst_schemaPath inst) schemas) (inst_schemaPath inst)
      (Some schemas) = Ret rules /\
    findRule rules p = Some rule /\
    valid (checkCardinality rule s t p conns) = true.
Proof.
  unfold validateConnection, getConnectionRulesForSchema. intros H V.
  destruct (instances !! s) as [si|]; [|injection H as <-; discriminate].
  destruct (instances !! t) as [ti|]; [|injection H as <-; discriminate].
  destruct (negb (truthy (assoc (inst_schemaPath si) schemas)));
    [injection H as <-; discriminate|].
  bind_inv H. destruct (findRule a p) as [rule|] eqn:F; [|injection H as <-; discriminate].
  bind_inv H.
  destruct (negb (existsb (String.eqb (inst_schemaPath ti)) a0));
    [injection H as <-; discriminate|].
  injection H as <-. exists si, a, rule. auto.
Qed.

Lemma validateConnectionExact_valid (s t p : string)
  (conns : list DataConnection) (schemas : catalog)
  (instances : gmap string DataInstance) (r : ValidationResult) :
  ConnectionValidatorExact.validateConnection s t p conns schemas instances = Ret r ->
  valid r = true ->
  exists inst rules rule,
    instances !! s = Some inst /\
    getSchemaConnectionRules (assoc (inst_schemaPath inst) schemas) (inst_schemaPath inst)
      None = Ret rules /\
    findRule rules p = Some rule /\
    valid (checkCardinality rule s t p conns) = true.
Proof.
  unfold ConnectionValidatorExact.validateConnection. intros H V.
  destruct (instances !! s) as [si|]; [|injection H as <-; discriminate].
  destruct (instances !! t) as [ti|]; [|injection H as <-; discriminate].
  destruct (negb (truthy (assoc (inst_schemaPath si) schemas)));
    [injection H as <-; discriminate|].
  bind_inv H. destruct (findRule a p) as [rule|] eqn:F; [|injection H as <-; discriminate].
  destruct (negb (String.eqb (targetSchemaPath rule) (inst_schemaPath ti)));
    [injection H as <-; discriminate|].
  injection H as <-. exists si, a, rule. auto.
Qed.

Section Preservation.
Variable rulesOf : value -> string -> outcome (list ConnectionRule).
Variable schemas : catalog.
Variable instances : gmap string DataInstance.

(** Appending a connection that passed the final checks under the rule of
    its source property keeps the invariant. *)
Lemma invariant_append (conns : list DataConnection) (c : DataConnection)
  (inst : DataInstance) (rules : list ConnectionRule) (rule : ConnectionRule) :
  Invariant rulesOf schemas instances conns ->
  instances !! sourceId c = Some inst ->
  rulesOf (assoc (inst_schemaPath inst) schemas) (inst_schemaPath inst) = Ret rules ->
  findRule rules (conn_propertyPath c) = Some rule ->
  valid (checkCardinality rule (sourceId c) (targetId c) (conn_propertyPath c) conns) = true ->
  Invariant rulesOf schemas instances (conns ++ [c]).
Proof using Type.
  intros [Hone Hdup] Hi Hr Hf Hv.
  apply checkCardinality_valid in Hv. destruct Hv as (Hocc & _ & Hsame).
  split.
  - intros i p Ho. rewrite List.filter_app, List.length_app. simpl.
    destruct (occupies i p c) eqn:Oc; simpl.
    + apply occupies_true in Oc. destruct Oc as [<- <-].
      destruct Ho as (inst' & rules' & rule' & Hi' & Hr' & Hf' & Hc').
      assert (inst' = inst) by congruence. subst inst'.
      assert (rules' = rules) by congruence. subst rules'.
      assert (rule' = rule) by congruence. subst rule'.
      rewrite (existsb_false_filter _ _ (Hocc Hc')). simpl. lia.
    + specialize (Hone i p Ho). lia.
  - rewrite List.map_app. simpl. apply List.NoDup_app.
    + exact Hdup.
    + constructor; [intros []|constructor].
    + intros x Hx [<-|[]]. revert Hx. now apply no_sameTriple.
Qed.

End Preservation.

Lemma propose_invariant (fuel : nat) (schemas : catalog)
  (instances : gmap string DataInstance) (conns : list DataConnection)
  (c : DataConnection) :
  Invariant (fun v p => getSchemaConnectionRules v p (Some schemas)) schemas instances conns ->
  Invariant (fun v p => getSchemaConnectionRules v p (Some schemas)) schemas instances
            (propose fuel schemas instances conns c).
Proof.
  intros Hinv. unfold propose.
  destruct (validateConnection _ _ _ _ _ _ _) as [r| |] eqn:V; try exact Hinv.
  destruct (valid r) eqn:Hv; [|exact Hinv].
  destruct (validateConnection_valid _ _ _ _ _ _ _ _ V Hv) as (inst & rules & rule & ? & ? & ? & ?).
  eapply invariant_append; eauto.
Qed.

Lemma proposeExact_invariant (schemas : catalog)
  (instances : gmap string DataInstance) (conns : list DataConnection)
  (c : DataConnection) :
  Invariant (fun v p => getSchemaConnectionRules v p None) schemas instances conns ->
  Invariant (fun v p => getSchemaConnectionRules v p None) schemas instances
            (ConnectionValidatorExact.propose schemas instances conns c).
Proof.
  intros Hinv. unfold ConnectionValidatorExact.propose.
  destruct (ConnectionValidatorExact.validateConnection _ _ _ _ _ _) as [r| |] eqn:V;
    try exact Hinv.
  destruct (valid r) eqn:Hv; [|exact Hinv].
  destruct (validateConnectionExact_valid _ _ _ _ _ _ _ V Hv)
    as (inst & rules & rule & ? & ? & ? & ?).
  eapply invariant_append; eauto.
Qed.

Lemma invariant_nil (rulesOf : value -> string -> outcome (list ConnectionRule))
  (schemas : catalog) (instances : gmap string DataInstance) :
  Invariant rulesOf schemas instances [].
Proof. split; [intros; simpl; lia|constructor]. Qed.

(** C1.  Start from the empty connection list and let any finite sequence of
    proposals through the validator, appending a proposal exactly when the
    validator answers [valid: true].  In the resulting list, a property whose
    rule on the source instance's schema has cardinality 'one' carries at
    most one connection of that instance, and no two connections have the
    same source, target and property.  This holds for both revisions of
    [validateConnection]. *)
Theorem validated_connections_invariant :
  forall (schemas : catalog) (instances : gmap string DataInstance)
         (proposals : list (nat * DataConnection))
         (proposalsExact : list DataConnection),
    Invariant (fun v p => getSchemaConnectionRules v p (Some schemas)) schemas instances
              (run schemas instances proposals) /\
    Invariant (fun v p => getSchemaConnectionRules v p None) schemas instances
              (runExact schemas instances proposalsExact).
Proof.
  intros schemas instances proposals proposalsExact. split.
  - unfold run. generalize (invariant_nil (fun v p => getSchemaConnectionRules v p (Some schemas))
                              schemas instances).
    generalize (@nil DataConnection) as acc.
    induction proposals as [|[fuel c] rest IH]; intros acc Hacc; simpl; [exact Hacc|].
    apply IH. now apply propose_invariant.
  - unfold runExact. generalize (invariant_nil (fun v p => getSchemaConnectionRules v p None)
                                   schemas instances).
    generalize (@nil DataConnection) as acc.
    induction proposalsExact as [|c rest IH]; intros acc Hacc; simpl; [exact Hacc|].
    apply IH. now apply proposeExact_invariant.
Qed.

(** The example of the specification: once [user-1] is connected to
    [address-1] on [address], the proposal to [address-2] is turned down, and
    so are a repeated proposal and a self-loop; the 'many' property [roles]
    still takes its connection. *)
Example run_user_example :
  run Samples.userCatalog Samples.userInstances
    [ (3, Samples.connection "user-1" "address-1" "address");
      (3, Samples.connection "user-1" "address-2" "address");
      (3, Samples.connection "user-1" "role-1" "roles");
      (3, Samples.connection "user-1" "role-1" "roles");
      (3, Samples.connection "user-1" "user-1" "roles") ] =
  [ Samples.connection "user-1" "address-1" "address";
    Samples.connection "user-1" "role-1" "roles" ].
Proof. vm_compute. reflexivity. Qed.

End Cardinality.

(** ** The rule extractor *)
Module Rules.
Import JS SchemaRelationships OutcomeFacts Samples.

(** C4 (evaluation of the code where the filter misses).  Three runs of
    [getSchemaConnectionRules].  A direct reference and a pattern-property
    reference are re-keyed to the catalog key that matches by suffix, and that
    key is primitive by the path heuristic; the rule targets it all the same.
    An array-item reference is looked up by its exact path only, so the
    string schema stored under a longer key is not seen and the rule is
    emitted, whereas the direct reference to the same file, in the same
    schema, is dropped. *)
Theorem primitive_filter_misses :
  getSchemaConnectionRules (Some directRefSchema) "s.schema.json" (Some primitiveDirCatalog)
    = Ret [ {| propertyPath := "d"; targetSchemaPath := "v1/primitives/d.schema.json";
               cardinality := one; required := false |} ] /\
  getSchemaConnectionRules (Some patternRefSchema) "s.schema.json" (Some primitiveDirCatalog)
    = Ret [ {| propertyPath := "byId"; targetSchemaPath := "v1/primitives/d.schema.json";
               cardinality := many; required := false |} ] /\
  isPrimitiveSchemaPath "v1/primitives/d.schema.json" = true /\
  getSchemaConnectionRules (Some labelsSchema) "s.schema.json" (Some labelCatalog)
    = Ret [ {| propertyPath := "labels"; targetSchemaPath := "label.schema.json";
               cardinality := many; required := false |} ] /\
  lookupFlexible (Some labelCatalog) "label.schema.json"
    = (Some (JObj [("type", JStr "string")]), "v1/label.schema.json") /\
  isPrimitiveSchema (Some (JObj [("type", JStr "string")])) = Ret true.
Proof. repeat split; vm_compute; reflexivity. Qed.

(** *** Rules of one property *)

Lemma patternRules_paths (schemaPath : string) (schemas : option catalog)
  (req : list json) (p : string) (patterns : list (string * json))
  (rs : list ConnectionRule) :
  patternRules schemaPath schemas req p patterns = Ret rs ->
  forall r, List.In r rs -> propertyPath r = p.
Proof.
  revert rs. induction patterns as [|[k d] rest IH]; intros rs H r Hin; simpl in H.
  - injection H as <-. destruct Hin.
  - bind_inv H.
    destruct (truthy a && typeof_string a); [|eauto].
    destruct (schemaFileRef a) as [m|]; [|eauto].
    destruct (isPrimitiveSchemaPath _); [eauto|].
    destruct (lookupFlexible schemas _) as [refSchema actual].
    bind_inv H. destruct a0; [eauto|].
    injection H as <-. destruct Hin as [<-|[]]. reflexivity.
Qed.

Ltac rule_path H Hin :=
  injection H as <-; simpl in Hin;
  repeat (destruct Hin as [<-|Hin]; [reflexivity|]); destruct Hin.

(** Every rule a property yields carries the name of that property. *)
Lemma processProperty_paths (schemaPath : string) (schemas : option catalog)
  (req : list json) (p : string) (v : json) (rs : list ConnectionRule) :
  processProperty schemaPath schemas req p v = Ret rs ->
  forall r, List.In r rs -> propertyPath r = p.
Proof.
  unfold processProperty. intros H r Hin.
  destruct (negb (truthy (Some v)) || negb (typeof_object (Some v))); [rule_path H Hin|].
  bind_inv H. destruct (truthy a && typeof_string a).
  - destruct (schemaFileRef a) as [m|]; [|rule_path H Hin].
    destruct (isPrimitiveSchemaPath _); [rule_path H Hin|].
    destruct (lookupFlexible schemas _) as [refSchema refPath].
    destruct (truthy refSchema); [|rule_path H Hin].
    bind_inv H. destruct a0; [rule_path H Hin|].
    bind_inv H. destruct a0; rule_path H Hin.
  - bind_inv H. bind_inv H.
    destruct (is_str a0 "array" && truthy a1).
    + bind_inv H. destruct (truthy a2 && typeof_string a2); [|rule_path H Hin].
      destruct (schemaFileRef a2) as [m|]; [|rule_path H Hin].
      destruct (isPrimitiveSchemaPath _); [rule_path H Hin|].
      bind_inv H. destruct a3; rule_path H Hin.
    + bind_inv H. destruct (is_str a0 "object" && truthy a2); [|rule_path H Hin].
      destruct a2 as [pp|]; [|rule_path H Hin].
      eapply patternRules_paths; eauto.
Qed.

(** *** The effective properties have pairwise distinct names *)

Lemma assign_keys {A} (kvs : list (string * A)) (k : string) (v : A) :
  List.NoDup (map fst kvs) ->
  List.NoDup (map fst (assign kvs k v)) /\
  (forall k', List.In k' (map fst (assign kvs k v)) -> k' = k \/ List.In k' (map fst kvs)).
Proof.
  induction kvs as [|[k0 v0] rest IH]; simpl; intros Hnd.
  - split; [constructor; [intros []|constructor]|]. intros k' [<-|[]]. now left.
  - inversion Hnd as [|? ? Hnin Hrest]; subst.
    destruct (String.eqb_spec k0 k) as [->|Hne]; simpl.
    + split; [exact Hnd|]. intros k' H. now right.
    + destruct (IH Hrest) as [Hnd' Hin']. split.
      * constructor; [|exact Hnd']. intros Hin. apply Hin' in Hin.
        destruct Hin as [->|Hin]; [congruence|contradiction].
      * intros k' [<-|H]; [right; now left|].
        apply Hin' in H. destruct H as [->|H]; [now left|right; now right].
Qed.

Lemma spread_keys (acc : list (string * json)) (v : json) :
  List.NoDup (map fst acc) -> List.NoDup (map fst (spread acc v)).
Proof.
  unfold spread. generalize (entries v) as es. intros es. revert acc.
  induction es as [|[k x] rest IH]; intros acc H; simpl; [exact H|].
  apply IH. now apply assign_keys.
Qed.

Lemma mergeProperties_keys (acc : list (string * json)) (v : value) :
  List.NoDup (map fst acc) -> List.NoDup (map fst (mergeProperties acc v)).
Proof.
  unfold mergeProperties. intros H. destruct v as [j|]; [|exact H].
  destruct (truthy (Some j) && typeof_object (Some j)); [|exact H].
  now apply spread_keys.
Qed.

Lemma mergeAllOf_keys (subs : list json) (acc props : list (string * json)) :
  List.NoDup (map fst acc) -> mergeAllOf acc subs = Ret props -> List.NoDup (map fst props).
Proof.
  revert acc. induction subs as [|sub rest IH]; intros acc N0 H; simpl in H.
  - injection H as <-. exact N0.
  - bind_inv H. eapply IH; [|exact H]. now apply mergeProperties_keys.
Qed.

Lemma getSchemaProperties_keys (schema : value) (props : list (string * json)) :
  getSchemaProperties schema = Ret props -> List.NoDup (map fst props).
Proof.
  unfold getSchemaProperties. intros H. bind_inv H. bind_inv H.
  assert (N0 : List.NoDup (map fst (mergeProperties [] a))).
  { apply mergeProperties_keys. constructor. }
  destruct a0 as [[| | | |subs|]|]; try (injection H as <-; exact N0).
  eapply mergeAllOf_keys; eauto.
Qed.

Lemma filter_keep (p : string) (rs : list ConnectionRule) :
  (forall r, List.In r rs -> propertyPath r = p) ->
  List.filter (fun r => String.eqb (propertyPath r) p) rs = rs.
Proof.
  induction rs as [|r rs IH]; intros H; simpl; [reflexivity|].
  rewrite (H r) by now left. rewrite String.eqb_refl. f_equal.
  apply IH. intros r' Hr'. apply H. now right.
Qed.

Lemma filter_drop (p q : string) (rs : list ConnectionRule) :
  q <> p -> (forall r, List.In r rs -> propertyPath r = q) ->
  List.filter (fun r => String.eqb (propertyPath r) p) rs = [].
Proof.
  intros Hne. induction rs as [|r rs IH]; intros H; simpl; [reflexivity|].
  rewrite (H r) by now left.
  destruct (String.eqb_spec q p); [contradiction|].
  apply IH. intros r' Hr'. apply H. now right.
Qed.

Section Collect.
Variable f : string * json -> outcome (list ConnectionRule).
Hypothesis f_paths :
  forall kv rs, f kv = Ret rs -> forall r, List.In r rs -> propertyPath r = fst kv.

Lemma collect_other (props : list (string * json)) (rules : list ConnectionRule)
  (p : string) :
  ~ List.In p (map fst props) -> collect f props = Ret rules ->
  List.filter (fun r => String.eqb (propertyPath r) p) rules = [].
Proof using f_paths.
  revert rules. induction props as [|kv rest IH]; intros rules Hnin H; simpl in H.
  - injection H as <-. reflexivity.
  - bind_inv H. bind_inv H. injection H as <-.
    rewrite List.filter_app, (filter_drop p (fst kv) a).
    + simpl. apply IH; [|exact Ha0]. intros Hin. apply Hnin. now right.
    + intros E. apply Hnin. now left.
    + intros r Hr. apply (f_paths _ _ Ha _ Hr).
Qed.

(** Among the rules of a schema, those of a property are what
    [processProperty] yields for it. *)
Lemma collect_property (props : list (string * json)) (rules : list ConnectionRule)
  (p : string) (v : json) :
  List.NoDup (map fst props) -> List.In (p, v) props ->
  collect f props = Ret rules ->
  exists rs, f (p, v) = Ret rs /\
             List.filter (fun r => String.eqb (propertyPath r) p) rules = rs.
Proof using f_paths.
  revert rules. induction props as [|kv rest IH]; intros rules Hnd Hin H.
  - destruct Hin.
  - simpl in H. bind_inv H. bind_inv H. injection H as <-.
    inversion Hnd as [|? ? Hnin Hrest]; subst.
    rewrite List.filter_app.
    destruct Hin as [->|Hin].
    + exists a. split; [exact Ha|].
      rewrite (filter_keep p a) by (intros r Hr; apply (f_paths _ _ Ha _ Hr)).
      rewrite (collect_other rest a0 p Hnin Ha0). apply app_nil_r.
    + destruct (IH a0 Hrest Hin Ha0) as (rs & Hrs & Efilter).
      exists rs. split; [exact Hrs|].
      rewrite (filter_drop p (fst kv) a).
      * simpl. exact Efilter.
      * intros E. apply Hnin. rewrite E. apply (in_map fst _ _ Hin).
      * intros r Hr. apply (f_paths _ _ Ha _ Hr).
Qed.

End Collect.

Lemma matchRef_nonempty (r m : string) : matchRef r = Some m -> String.eqb r "" = false.
Proof. destruct r; [discriminate|reflexivity]. Qed.

(** What [processProperty] yields for a direct reference to a schema file
    whose resolved path is not primitive by the heuristic and whose schema,
    found in the catalog, is not primitive by content. *)
Lemma processProperty_direct (schemaPath : string) (cat : catalog) (req : list json)
  (p : string) (kvs : list (string * json)) (r m : string)
  (refSchema : value) (key : string) (arr : bool) :
  assoc "$ref" kvs = Some (JStr r) ->
  matchRef r = Some m -> endsWith m ".json" = true ->
  isPrimitiveSchemaPath (resolveRef schemaPath m) = false ->
  lookupFlexible (Some cat) (resolveRef schemaPath m) = (refSchema, key) ->
  truthy refSchema = true ->
  isPrimitiveSchema refSchema = Ret false ->
  isArraySchemaWithItems refSchema = Ret arr ->
  processProperty schemaPath (Some cat) req p (JObj kvs) =
  Ret [mkRule p key (if arr then many else one) req].
Proof.
  intros Href Hm He Hp Hl Ht Hprim Harr.
  unfold processProperty. cbn [truthy typeof_object negb orb get bind].
  rewrite Href. cbn [truthy typeof_string andb].
  rewrite (matchRef_nonempty _ _ Hm). cbn [negb].
  unfold schemaFileRef. rewrite (matchRef_nonempty _ _ Hm), Hm, He, Hp, Hl, Ht, Hprim.
  cbn [bind]. rewrite Harr. cbn [bind]. destruct arr; reflexivity.
Qed.




(** *** The rule extractor has no recursion budget to exhaust *)

Lemma isPrimitiveSchema_nd (schema : value) : isPrimitiveSchema schema <> Diverge.
Proof. unfold isPrimitiveSchema, isPrimitiveSchemaPath_any, hasItemsRef. no_diverge. Qed.

Lemma isArraySchemaWithItems_nd (schema : value) : isArraySchemaWithItems schema <> Diverge.
Proof. unfold isArraySchemaWithItems, hasItemsRef. no_diverge. Qed.

Lemma patternRules_nd (schemaPath : string) (schemas : option catalog)
  (req : list json) (p : string) (patterns : list (string * json)) :
  patternRules schemaPath schemas req p patterns <> Diverge.
Proof.
  induction patterns as [|[k d] rest IH]; cbn [patternRules]; [discriminate|].
  apply bind_nd; [apply get_nd|]. intros ref.
  destruct (truthy ref && typeof_string ref); [|exact IH].
  destruct (schemaFileRef ref); [|exact IH].
  destruct (isPrimitiveSchemaPath _); [exact IH|].
  destruct (lookupFlexible schemas _) as [refSchema actual].
  apply bind_nd.
  - destruct (truthy refSchema); [apply isPrimitiveSchema_nd|discriminate].
  - intros []; [exact IH|discriminate].
Qed.

Lemma processProperty_nd (schemaPath : string) (schemas : option catalog)
  (req : list json) (p : string) (v : json) :
  processProperty schemaPath schemas req p v <> Diverge.
Proof.
  unfold processProperty.
  destruct (negb (truthy (Some v)) || negb (typeof_object (Some v))); [discriminate|].
  apply bind_nd; [apply get_nd|]. intros ref.
  destruct (truthy ref && typeof_string ref).
  - destruct (schemaFileRef ref); [|discriminate].
    destruct (isPrimitiveSchemaPath _); [discriminate|].
    destruct (lookupFlexible schemas _) as [refSchema refPath].
    destruct (truthy refSchema); [|discriminate].
    apply bind_nd; [apply isPrimitiveSchema_nd|]. intros []; [discriminate|].
    apply bind_nd; [apply isArraySchemaWithItems_nd|]. intros []; discriminate.
  - apply bind_nd; [apply get_nd|]. intros ty.
    apply bind_nd; [apply get_nd|]. intros items.
    destruct (is_str ty "array" && truthy items).
    + apply bind_nd; [apply get_nd|]. intros itemsRef.
      destruct (truthy itemsRef && typeof_string itemsRef); [|discriminate].
      destruct (schemaFileRef itemsRef); [|discriminate].
      destruct (isPrimitiveSchemaPath _); [discriminate|].
      apply bind_nd.
      * match goal with |- (if ?b then _ else _) <> _ => destruct b end;
          [apply isPrimitiveSchema_nd|discriminate].
      * intros []; discriminate.
    + apply bind_nd; [apply get_nd|]. intros pp.
      destruct (is_str ty "object" && truthy pp); [|discriminate].
      destruct pp; [apply patternRules_nd|discriminate].
Qed.

Lemma mergeAllOf_nd (subs : list json) (acc : list (string * json)) :
  mergeAllOf acc subs <> Diverge.
Proof.
  revert acc. induction subs as [|sub rest IH]; intros acc; cbn [mergeAllOf];
    [discriminate|].
  apply bind_nd; [apply get_nd|]. intros p. apply IH.
Qed.

Lemma getSchemaConnectionRules_nd (schema : value) (schemaPath : string)
  (schemas : option catalog) :
  getSchemaConnectionRules schema schemaPath schemas <> Diverge.
Proof.
  unfold getSchemaConnectionRules, requiredFieldsOf, getSchemaProperties.
  apply bind_nd; [no_diverge|]. intros req.
  apply bind_nd.
  - apply bind_nd; [apply get_nd|]. intros p.
    apply bind_nd; [apply get_nd|]. intros allOf.
    destruct allOf as [[| | | |subs|]|]; try discriminate. apply mergeAllOf_nd.
  - intros props. apply collect_nd. intros kv. apply processProperty_nd.
Qed.

End Rules.

(** ** Schema matching and import *)
Module Matching.
Import JS SchemaRelationships BuilderTypes DataModelExport DataModelImport.
Import MatchSpec OutcomeFacts Samples.

Section Match.
Variable stringify : jdata -> string.
Variable toPropertyKey : json -> string.

(** The required properties the code iterates over are the required list. *)
Lemma requiredProps_list (o : json) (xs : list json) :
  (if truthy (getq (Some o) "required")
   then match getq (Some o) "required" with
        | Some (JArr ys) => Ret ys
        | _ => Throw
        end
   else Ret []) = Ret xs ->
  xs = requiredList o.
Proof.
  unfold requiredList. destruct (getq (Some o) "required") as [[| | | |ys|]|]; simpl.
  all: try (intros H; injection H as <-; reflexivity).
  all: try discriminate.
  - destruct b; [discriminate|]. intros H. injection H as <-. reflexivity.
  - destruct (negb (n =? 0)%Z); [discriminate|]. intros H. injection H as <-. reflexivity.
  - destruct (negb (String.eqb s "")); [discriminate|]. intros H. injection H as <-. reflexivity.
Qed.

Lemma scoreSchema_Some (data : jdata) (o : json) (sc : Score) :
  scoreSchema toPropertyKey data (dataKeysOf data) o = Ret (Some sc) -> Qualifies toPropertyKey data o sc.
Proof using Type.
  unfold scoreSchema. intros H.
  bind_inv H. apply get_getq in Ha. bind_inv H. apply get_getq in Ha0. subst.
  destruct (getq (Some o) "properties") as [props|] eqn:Ep; [|discriminate].
  destruct (truthy (Some props)) eqn:Tp; [|discriminate].
  destruct (is_str (getq (Some o) "type") "object") eqn:Ty; [|discriminate].
  cbn [negb orb] in H.
  bind_inv H. apply get_getq in Ha. subst. bind_inv H. bind_inv H.
  destruct a0; [|discriminate]. cbn [negb] in H. injection H as <-.
  apply requiredProps_list in Ha. subst a.
  split; [exact Ty|].
  exists props. split; [exact Ep|]. split; [exact Tp|]. split.
  - intros prop Hin. eapply every_true_In; eauto.
  - split; reflexivity.
Qed.

Lemma scoreSchema_Qualifies (data : jdata) (o : json) (c : option Score) (sc : Score) :
  scoreSchema toPropertyKey data (dataKeysOf data) o = Ret c -> Qualifies toPropertyKey data o sc -> c = Some sc.
Proof using Type.
  unfold scoreSchema. intros H (Ty & props & Ep & Tp & Hreq & Hn & Hd).
  bind_inv H. apply get_getq in Ha. bind_inv H. apply get_getq in Ha0. subst.
  rewrite Ep, Tp, Ty in H. cbn [negb orb] in H.
  bind_inv H. apply get_getq in Ha. subst. bind_inv H.
  apply requiredProps_list in Ha. subst a.
  rewrite (every_all_true _ _ Hreq) in H. cbn [bind negb] in H.
  injection H as <-. destruct sc as [n d]. simpl in *. now subst.
Qed.

(** A qualifying score is a fraction between 0 and 1. *)
Lemma Qualifies_bounded (data : jdata) (o : json) (sc : Score) :
  Qualifies toPropertyKey data o sc -> num sc <= den sc /\ num sc <= length (dataKeysOf data).
Proof using Type.
  intros (_ & props & _ & _ & _ & Hn & Hd). rewrite Hn, Hd.
  pose proof (List.filter_length_le
                (fun key => existsb (String.eqb key) (keys props)) (dataKeysOf data)).
  split; lia.
Qed.

Lemma score_gt_false_le (a b : Score) :
  den a <> 0 -> den b <> 0 -> score_gt a b = false -> ScoreLe a b.
Proof.
  unfold score_gt, isNaN, ScoreLe. intros Ha Hb H.
  destruct (Nat.eqb_spec (den a) 0); [contradiction|].
  destruct (Nat.eqb_spec (den b) 0); [contradiction|].
  simpl in H. apply Nat.ltb_ge in H. lia.
Qed.

Lemma score_gt_true (a b : Score) :
  score_gt a b = true -> den a <> 0 /\ den b <> 0 /\ num b * den a < num a * den b.
Proof.
  unfold score_gt, isNaN. intros H.
  destruct (Nat.eqb_spec (den a) 0); [discriminate|].
  destruct (Nat.eqb_spec (den b) 0); [discriminate|].
  simpl in H. apply Nat.ltb_lt in H. auto.
Qed.

(** Replacing the best match by a strictly better one keeps it unbeaten. *)
Lemma score_gt_trans (s b sc : Score) :
  score_gt s b = false -> score_gt sc b = true -> score_gt s sc = false.
Proof.
  intros Hs Hsc. apply score_gt_true in Hsc. destruct Hsc as (Dsc & Db & Lt).
  destruct (Nat.eq_dec (den s) 0) as [Z|NZ].
  - unfold score_gt, isNaN. rewrite Z. reflexivity.
  - pose proof (score_gt_false_le s b NZ Db Hs) as Le. unfold ScoreLe in Le.
    unfold score_gt, isNaN.
    destruct (Nat.eqb_spec (den s) 0); [contradiction|].
    destruct (Nat.eqb_spec (den sc) 0); [contradiction|].
    simpl. apply Nat.ltb_ge.
    assert (X : num s * den sc * den b <= num sc * den s * den b) by nia.
    nia.
Qed.

Lemma scan_Scanned (data : jdata) (rest seen : catalog)
  (best res : option (string * Score)) :
  Scanned toPropertyKey data seen best ->
  scanSchemas toPropertyKey data (dataKeysOf data) rest best = Ret res ->
  Scanned toPropertyKey data (seen ++ rest) res.
Proof using Type.
  revert seen best. induction rest as [|[p o] rest IH]; intros seen best Inv H; simpl in H.
  - injection H as <-. now rewrite app_nil_r.
  - bind_inv H. replace (seen ++ (p, o) :: rest) with ((seen ++ [(p, o)]) ++ rest)
      by now rewrite <- app_assoc.
    eapply IH; [|exact H]. clear IH H.
    destruct Inv as [Hall Hbest]. split.
    + intros p' o' Hin. apply in_app_or in Hin. destruct Hin as [Hin|[E|[]]]; [eauto|].
      injection E as <- <-. eauto.
    + destruct a as [sc|].
      * (* the schema is a candidate *)
        unfold better. destruct best as [[bp bs]|].
        -- destruct Hbest as [(ob & Hob & Sob) Hmax].
           destruct (score_gt sc bs) eqn:G.
           ++ split.
              ** exists o. split; [apply in_or_app; right; now left|exact Ha].
              ** intros p' o' sc' Hin Hs'. apply in_app_or in Hin.
                 destruct Hin as [Hin|[E|[]]].
                 --- eapply score_gt_trans; eauto.
                 --- injection E as <- <-. assert (sc' = sc) by congruence. subst.
                     unfold score_gt. destruct (isNaN sc); simpl; [reflexivity|].
                     apply Nat.ltb_irrefl.
           ++ split.
              ** exists ob. split; [apply in_or_app; now left|exact Sob].
              ** intros p' o' sc' Hin Hs'. apply in_app_or in Hin.
                 destruct Hin as [Hin|[E|[]]]; [eauto|].
                 injection E as <- <-. assert (sc' = sc) by congruence. now subst.
        -- split.
           ++ exists o. split; [apply in_or_app; right; now left|exact Ha].
           ++ intros p' o' sc' Hin Hs'. apply in_app_or in Hin.
              destruct Hin as [Hin|[E|[]]].
              ** rewrite (Hbest _ _ Hin) in Hs'. discriminate.
              ** injection E as <- <-. assert (sc' = sc) by congruence. subst.
                 unfold score_gt. destruct (isNaN sc); simpl; [reflexivity|].
                 apply Nat.ltb_irrefl.
      * (* the schema is skipped *)
        destruct best as [[bp bs]|].
        -- destruct Hbest as [(ob & Hob & Sob) Hmax]. split.
           ++ exists ob. split; [apply in_or_app; now left|exact Sob].
           ++ intros p' o' sc' Hin Hs'. apply in_app_or in Hin.
              destruct Hin as [Hin|[E|[]]]; [eauto|].
              injection E as <- <-. congruence.
        -- intros p' o' Hin. apply in_app_or in Hin.
           destruct Hin as [Hin|[E|[]]]; [eauto|]. injection E as <- <-. exact Ha.
Qed.

Lemma findMatchingSchema_scan (data : jdata) (schemas : catalog)
  (res : option (string * Score)) :
  findMatchingSchema toPropertyKey data schemas = Ret res ->
  exists best,
    Scanned toPropertyKey data schemas best /\
    res = match best with
          | Some (p, sc) => if score_ge_half sc then Some (p, sc) else None
          | None => None
          end.
Proof using Type.
  unfold findMatchingSchema. intros H.
  assert (S0 : Scanned toPropertyKey data [] None).
  { split; intros ? ? []. }
  destruct data; try discriminate; bind_inv H; injection H as <-;
    exists a; (split; [exact (scan_Scanned _ _ [] None a S0 Ha)|reflexivity]).
Qed.

Lemma score_ge_half_true (sc : Score) : score_ge_half sc = true <-> AtLeastHalf sc.
Proof.
  unfold score_ge_half, isNaN, AtLeastHalf.
  destruct (Nat.eqb_spec (den sc) 0) as [Z|NZ]; simpl.
  - split; [discriminate|]. intros [H _]. lia.
  - rewrite Nat.leb_le. split; [intros; split; lia|intros [_ H]; exact H].
Qed.

(** What [findMatchingSchema] returns. *)
Lemma findMatchingSchema_spec (data : jdata) (schemas : catalog)
  (res : option (string * Score)) :
  findMatchingSchema toPropertyKey data schemas = Ret res ->
  match res with
  | Some (p, sc) =>
      (exists o, List.In (p, o) schemas /\ Qualifies toPropertyKey data o sc) /\
      AtLeastHalf sc /\
      (forall p' o' sc', List.In (p', o') schemas -> Qualifies toPropertyKey data o' sc' -> ScoreLe sc' sc)
  | None =>
      forall p' o' sc', List.In (p', o') schemas -> Qualifies toPropertyKey data o' sc' -> ~ AtLeastHalf sc'
  end.
Proof using Type.
  intros H. destruct (findMatchingSchema_scan _ _ _ H) as (best & [Hall Hbest] & ->).
  destruct best as [[p sc]|].
  - destruct Hbest as [(o & Ho & So) Hmax].
    destruct (score_ge_half sc) eqn:Half.
    + apply score_ge_half_true in Half. split; [|split; [exact Half|]].
      * exists o. split; [exact Ho|]. now apply scoreSchema_Some.
      * intros p' o' sc' Hin Q. destruct (Hall _ _ Hin) as [c Hc].
        pose proof (scoreSchema_Qualifies _ _ _ _ Hc Q). subst c.
        specialize (Hmax _ _ _ Hin Hc).
        destruct (Nat.eq_dec (den sc') 0) as [Z|NZ].
        -- destruct (Qualifies_bounded _ _ _ Q) as [B _]. unfold ScoreLe. rewrite Z in *.
           assert (num sc' = 0) by lia. lia.
        -- apply score_gt_false_le; [exact NZ| |exact Hmax]. destruct Half. lia.
    + intros p' o' sc' Hin Q [Pos Ge]. destruct (Hall _ _ Hin) as [c Hc].
      pose proof (scoreSchema_Qualifies _ _ _ _ Hc Q). subst c.
      specialize (Hmax _ _ _ Hin Hc).
      assert (NotHalf : ~ AtLeastHalf sc).
      { intros A. apply score_ge_half_true in A. congruence. }
      destruct (Nat.eq_dec (den sc) 0) as [Z|NZ].
      * (* the best score is NaN: the data has no key to match *)
        apply scoreSchema_Some in So. destruct So as (_ & props & _ & _ & _ & _ & Hd).
        destruct (Qualifies_bounded _ _ _ Q) as [_ B]. lia.
      * pose proof (score_gt_false_le sc' sc (ltac:(lia)) NZ Hmax) as Le.
        unfold ScoreLe in Le. apply NotHalf. split; [lia|]. nia.
  - intros p' o' sc' Hin Q _. destruct (Hall _ _ Hin) as [c Hc].
    pose proof (scoreSchema_Qualifies _ _ _ _ Hc Q). subst c.
    rewrite (Hbest _ _ Hin) in Hc. discriminate.
Qed.

(** An object that is not yet in the instance map and that no schema
    matches: an error is recorded, nothing else changes, nothing is created. *)
Lemma createNodeFromData_unmatched (fuel : nat) (schemas : catalog) (st : ImportState)
  (dataObj : jdata) (position : Position) (parentId propertyPath : option string) :
  match address dataObj with
  | Some a => instanceMap st !! a
  | None => None
  end = None ->
  findMatchingSchema toPropertyKey dataObj schemas = Ret None ->
  createNodeFromData stringify toPropertyKey (S fuel) schemas st dataObj position
    parentId propertyPath =
  Ret (None, pushError st (unmatchedMessage stringify dataObj)).
Proof using Type.
  intros Hu Hm. cbn [createNodeFromData]. rewrite Hu, Hm. reflexivity.
Qed.


End Match.


Example import_after_stray :
  match importFromJson sampleStringify sampleToKey 3 (DArr 0 [strayData; alData])
          importCatalog startAt ∅ with
  | Ret (r, _) =>
      (success r, map node_id (res_nodes r), map edge_id (res_edges r), res_errors r)
  | _ => (true, [], [], [])
  end =
  (false, ["user-1"; "address-1"], ["e-user-1-address-1-address"],
   ["Could not find matching schema for object: {...}..."]).
Proof. vm_compute. reflexivity. Qed.

End Matching.

(** ** Resolved targets and the schema check of the validator *)
Module Targets.
Import JS SchemaRelationships BuilderTypes ConnectionValidator TargetSpec.
Import OutcomeFacts Samples.

(** *** [collect] and [dedupe] *)

Lemma collect_In {A B} (f : A -> outcome (list B)) (xs : list A) (ys : list B) (y : B) :
  collect f xs = Ret ys -> List.In y ys ->
  exists x zs, List.In x xs /\ f x = Ret zs /\ List.In y zs.
Proof.
  revert ys. induction xs as [|x xs IH]; intros ys H Hin; simpl in H.
  - injection H as <-. destruct Hin.
  - bind_inv H. bind_inv H. injection H as <-.
    apply in_app_or in Hin. destruct Hin as [Hin|Hin].
    + exists x, a. split; [now left|]. auto.
    + destruct (IH _ Ha0 Hin) as (x' & zs & Hx & Hf & Hz).
      exists x', zs. split; [now right|]. auto.
Qed.

Lemma collect_incl {A B} (f : A -> outcome (list B)) (xs : list A) (ys : list B) (x : A) :
  collect f xs = Ret ys -> List.In x xs ->
  exists zs, f x = Ret zs /\ forall y, List.In y zs -> List.In y ys.
Proof.
  revert ys. induction xs as [|x0 xs IH]; intros ys H Hin; simpl in H; [destruct Hin|].
  bind_inv H. bind_inv H. injection H as <-. destruct Hin as [<-|Hin].
  - exists a. split; [exact Ha|]. intros y Hy. apply in_or_app. now left.
  - destruct (IH _ Ha0 Hin) as (zs & Hf & Hz). exists zs. split; [exact Hf|].
    intros y Hy. apply in_or_app. right. now apply Hz.
Qed.

Lemma collect_mono {A B} (f g : A -> outcome (list B)) (xs : list A) (ys : list B) :
  (forall x zs, f x = Ret zs -> g x = Ret zs) ->
  collect f xs = Ret ys -> collect g xs = Ret ys.
Proof.
  intros Hfg. revert ys. induction xs as [|x xs IH]; intros ys H; simpl in *; [exact H|].
  bind_inv H. bind_inv H. rewrite (Hfg _ _ Ha). simpl. rewrite (IH _ Ha0). exact H.
Qed.

Lemma existsb_eqb_In (x : string) (l : list string) :
  existsb (String.eqb x) l = true <-> List.In x l.
Proof.
  rewrite existsb_exists. split.
  - intros (y & Hy & E). apply String.eqb_eq in E. now subst.
  - intros H. exists x. split; [exact H|apply String.eqb_refl].
Qed.

Lemma setAdd_spec (seen : list string) (x : string) :
  List.NoDup seen ->
  List.NoDup (setAdd seen x) /\
  (forall y, List.In y (setAdd seen x) <-> List.In y seen \/ y = x).
Proof.
  intros Hnd. unfold setAdd. destruct (existsb (String.eqb x) seen) eqn:E.
  - apply existsb_eqb_In in E. split; [exact Hnd|].
    intros y. split; [now left|]. intros [H| ->]; assumption.
  - split.
    + apply List.NoDup_app; [exact Hnd|constructor; [intros []|constructor]|].
      intros a Ha [<-|[]]. apply existsb_eqb_In in Ha. congruence.
    + intros y. rewrite in_app_iff. simpl. intuition.
Qed.

Lemma fold_setAdd_spec (xs seen : list string) :
  List.NoDup seen ->
  List.NoDup (fold_left setAdd xs seen) /\
  (forall y, List.In y (fold_left setAdd xs seen) <-> List.In y seen \/ List.In y xs).
Proof.
  revert seen. induction xs as [|x xs IH]; intros seen Hnd; simpl.
  - split; [exact Hnd|]. intros y. intuition.
  - destruct (setAdd_spec seen x Hnd) as [Hnd' Hin'].
    destruct (IH _ Hnd') as [Hnd'' Hin'']. split; [exact Hnd''|].
    intros y. rewrite Hin'', Hin'. intuition.
Qed.

Lemma dedupe_NoDup (xs : list string) : List.NoDup (dedupe xs).
Proof. apply fold_setAdd_spec. constructor. Qed.

Lemma dedupe_In (xs : list string) (y : string) : List.In y (dedupe xs) <-> List.In y xs.
Proof.
  unfold dedupe. destruct (fold_setAdd_spec xs [] (List.NoDup_nil _)) as [_ H].
  rewrite H. simpl. intuition.
Qed.

(** *** One step of the resolution *)

Lemma Unwraps_cases (schema v : value) :
  Unwraps schema v ->
  truthy v = true /\
  (v = getq (getq schema "items") "$ref" \/
   (exists subs sub, getq schema "allOf" = Some (JArr subs) /\ List.In sub subs /\
                     v = getq (getq (Some sub) "items") "$ref") \/
   (exists subs sub, getq schema "anyOf" = Some (JArr subs) /\ List.In sub subs /\
                     v = getq (Some sub) "$ref") \/
   (exists subs sub, getq schema "oneOf" = Some (JArr subs) /\ List.In sub subs /\
                     v = getq (Some sub) "$ref")).
Proof.
  intros U. destruct U; (split; [assumption|]).
  - now left.
  - right. left. eauto.
  - right. right. left. eauto.
  - right. right. right. eauto.
Qed.

Section Step.
Variable schemas : catalog.
Variable recur : string -> outcome (list string).

Lemma follow_inv (actualPath : string) (ref : value) (zs : list string) :
  follow recur actualPath ref = Ret zs ->
  exists r rec, ref = Some (JStr r) /\
                recur (resolveRefPath r actualPath) = Ret rec /\
                zs = resolveRefPath r actualPath :: rec.
Proof using Type.
  unfold follow. intros H. bind_inv H.
  destruct ref as [[| | |r| |]|]; try discriminate. injection Ha as <-.
  bind_inv H. injection H as <-. eauto.
Qed.

(** What a returning step put in its result, before the duplicates went:
    the start, and for each reference the schema unwraps to, the resolved
    reference and what the recursive call returned for it. *)
Lemma resolveStep_inv (p : string) (l : list string) :
  resolveStep recur p schemas = Ret l ->
  List.NoDup l /\
  List.In (startOf schemas p) l /\
  (forall t, List.In t l ->
             t = startOf schemas p \/
             (truthy (fst (locate schemas p)) = true /\
              exists r rec,
                Unwraps (fst (locate schemas p)) (Some (JStr r)) /\
                recur (resolveRefPath r (snd (locate schemas p))) = Ret rec /\
                (t = resolveRefPath r (snd (locate schemas p)) \/ List.In t rec))) /\
  (truthy (fst (locate schemas p)) = true ->
   forall r, Unwraps (fst (locate schemas p)) (Some (JStr r)) ->
             exists rec,
               recur (resolveRefPath r (snd (locate schemas p))) = Ret rec /\
               List.In (resolveRefPath r (snd (locate schemas p))) l /\
               (forall t, List.In t rec -> List.In t l)).
Proof using Type.
  unfold resolveStep, startOf.
  set (schema := fst (locate schemas p)). set (actual := snd (locate schemas p)).
  destruct (truthy schema) eqn:T; cbn [negb].
  2:{ intros H. injection H as <-. split; [constructor; [intros []|constructor]|].
      split; [now left|]. split; [|discriminate].
      intros t [<-|[]]. now left. }
  intros H.
  bind_inv H. apply get_getq in Ha. subst a. rename H into H1.
  bind_inv H1. rename a into r1, Ha into Hr1.
  bind_inv H1. apply get_getq in Ha. subst a.
  bind_inv H1. rename a into r2, Ha into Hr2.
  bind_inv H1. apply get_getq in Ha. subst a.
  bind_inv H1. rename a into r3, Ha into Hr3.
  bind_inv H1. apply get_getq in Ha. subst a.
  bind_inv H1. rename a into r4, Ha into Hr4.
  injection H1 as <-.
  split; [apply dedupe_NoDup|]. split; [apply dedupe_In; now left|]. split.
  - (* soundness *)
    intros t Ht. apply (proj1 (dedupe_In _ _)) in Ht. cbn [List.In] in Ht.
    destruct Ht as [<-|Ht]; [now left|].
    right. split; [reflexivity|].
    apply in_app_or in Ht. destruct Ht as [Ht|Ht].
    { destruct (truthy (getq (getq schema "items") "$ref")) eqn:Ti;
        [|injection Hr1 as <-; destruct Ht].
      apply follow_inv in Hr1. destruct Hr1 as (r & rec & Er & Hrec & ->).
      exists r, rec. split; [rewrite <- Er; now constructor|]. split; [exact Hrec|].
      destruct Ht as [<-|Ht]; auto. }
    apply in_app_or in Ht. destruct Ht as [Ht|Ht].
    { destruct (getq schema "allOf") as [[| | | |subs|]|] eqn:Ea;
        try (injection Hr2 as <-; destruct Ht).
      destruct (collect_In _ _ _ _ Hr2 Ht) as (sub & zs & Hsub & Hf & Hz).
      unfold followItems in Hf. bind_inv Hf. apply get_getq in Ha. subst a.
      destruct (truthy (getq (getq (Some sub) "items") "$ref")) eqn:Ti;
        [|injection Hf as <-; destruct Hz].
      apply follow_inv in Hf. destruct Hf as (r & rec & Er & Hrec & ->).
      exists r, rec. split; [rewrite <- Er; econstructor 2; eauto|]. split; [exact Hrec|].
      destruct Hz as [<-|Hz]; auto. }
    apply in_app_or in Ht. destruct Ht as [Ht|Ht].
    { destruct (getq schema "anyOf") as [[| | | |subs|]|] eqn:Ea;
        try (injection Hr3 as <-; destruct Ht).
      destruct (collect_In _ _ _ _ Hr3 Ht) as (sub & zs & Hsub & Hf & Hz).
      unfold followRef in Hf. bind_inv Hf. apply get_getq in Ha. subst a.
      destruct (truthy (getq (Some sub) "$ref")) eqn:Ti;
        [|injection Hf as <-; destruct Hz].
      apply follow_inv in Hf. destruct Hf as (r & rec & Er & Hrec & ->).
      exists r, rec. split; [rewrite <- Er; econstructor 3; eauto|]. split; [exact Hrec|].
      destruct Hz as [<-|Hz]; auto. }
    { destruct (getq schema "oneOf") as [[| | | |subs|]|] eqn:Ea;
        try (injection Hr4 as <-; destruct Ht).
      destruct (collect_In _ _ _ _ Hr4 Ht) as (sub & zs & Hsub & Hf & Hz).
      unfold followRef in Hf. bind_inv Hf. apply get_getq in Ha. subst a.
      destruct (truthy (getq (Some sub) "$ref")) eqn:Ti;
        [|injection Hf as <-; destruct Hz].
      apply follow_inv in Hf. destruct Hf as (r & rec & Er & Hrec & ->).
      exists r, rec. split; [rewrite <- Er; econstructor 4; eauto|]. split; [exact Hrec|].
      destruct Hz as [<-|Hz]; auto. }
  - (* completeness *)
    intros _ r U.
    assert (Found : exists rec zs,
               recur (resolveRefPath r actual) = Ret rec /\
               zs = resolveRefPath r actual :: rec /\
               (forall t, List.In t zs -> List.In t (r1 ++ r2 ++ r3 ++ r4))).
    { destruct (Unwraps_cases _ _ U) as [Ti [Er|[(subs & sub & Ea & Hsub & Er)|
                                          [(subs & sub & Ea & Hsub & Er)|
                                           (subs & sub & Ea & Hsub & Er)]]]].
      - fold schema in Er. rewrite <- Er, Ti in Hr1.
        apply follow_inv in Hr1. destruct Hr1 as (r' & rec & E' & Hrec & ->).
        injection E' as <-. exists rec, (resolveRefPath r actual :: rec).
        split; [exact Hrec|]. split; [reflexivity|].
        intros t Ht. apply in_or_app. now left.
      - fold schema in Ea. rewrite Ea in Hr2.
        destruct (collect_incl _ _ _ _ Hr2 Hsub) as (zs & Hf & Hz).
        unfold followItems in Hf. bind_inv Hf. apply get_getq in Ha. subst a.
        rewrite <- Er, Ti in Hf.
        apply follow_inv in Hf. destruct Hf as (r' & rec & E' & Hrec & ->).
        injection E' as <-. exists rec, (resolveRefPath r actual :: rec).
        split; [exact Hrec|]. split; [reflexivity|].
        intros t Ht. apply in_or_app. right. apply in_or_app. left. now apply Hz.
      - fold schema in Ea. rewrite Ea in Hr3.
        destruct (collect_incl _ _ _ _ Hr3 Hsub) as (zs & Hf & Hz).
        unfold followRef in Hf. bind_inv Hf. apply get_getq in Ha. subst a.
        rewrite <- Er, Ti in Hf.
        apply follow_inv in Hf. destruct Hf as (r' & rec & E' & Hrec & ->).
        injection E' as <-. exists rec, (resolveRefPath r actual :: rec).
        split; [exact Hrec|]. split; [reflexivity|].
        intros t Ht. apply in_or_app. right. apply in_or_app. right.
        apply in_or_app. left. now apply Hz.
      - fold schema in Ea. rewrite Ea in Hr4.
        destruct (collect_incl _ _ _ _ Hr4 Hsub) as (zs & Hf & Hz).
        unfold followRef in Hf. bind_inv Hf. apply get_getq in Ha. subst a.
        rewrite <- Er, Ti in Hf.
        apply follow_inv in Hf. destruct Hf as (r' & rec & E' & Hrec & ->).
        injection E' as <-. exists rec, (resolveRefPath r actual :: rec).
        split; [exact Hrec|]. split; [reflexivity|].
        intros t Ht. apply in_or_app. right. apply in_or_app. right.
        apply in_or_app. right. now apply Hz. }
    destruct Found as (rec & zs & Hrec & -> & Hz).
    exists rec. split; [exact Hrec|]. split.
    + apply dedupe_In. right. apply Hz. now left.
    + intros t Ht. apply dedupe_In. right. apply Hz. now right.
Qed.

End Step.
(** *** The recursion *)

Lemma resolve_sound (schemas : catalog) (fuel : nat) :
  forall p l, resolveTargetSchemaPath fuel p schemas = Ret l ->
              forall t, List.In t l -> Resolved schemas p t.
Proof.
  induction fuel as [|fuel IH]; intros p l H t Ht; [discriminate|].
  cbn [resolveTargetSchemaPath] in H.
  destruct (resolveStep_inv _ _ _ _ H) as (_ & _ & Hsound & _).
  destruct (Hsound t Ht) as [->|(T & r & rec & U & Hrec & [->|Hin])].
  - constructor.
  - now apply resolved_ref.
  - eapply resolved_trans; eauto.
Qed.

Lemma resolve_complete (schemas : catalog) (p t : string) :
  Resolved schemas p t ->
  forall fuel l, resolveTargetSchemaPath fuel p schemas = Ret l -> List.In t l.
Proof.
  induction 1 as [p|p r T U|p r t T U R IH]; intros [|fuel] l H; try discriminate;
    cbn [resolveTargetSchemaPath] in H;
    destruct (resolveStep_inv _ _ _ _ H) as (_ & Hstart & _ & Hcomplete).
  - exact Hstart.
  - destruct (Hcomplete T r U) as (rec & _ & Hin & _). exact Hin.
  - destruct (Hcomplete T r U) as (rec & Hrec & _ & Hsub). apply Hsub. eapply IH; eauto.
Qed.

Lemma follow_mono (rec1 rec2 : string -> outcome (list string))
  (actualPath : string) (ref : value) (zs : list string) :
  (forall q l, rec1 q = Ret l -> rec2 q = Ret l) ->
  follow rec1 actualPath ref = Ret zs -> follow rec2 actualPath ref = Ret zs.
Proof.
  intros Hm H. unfold follow in *. bind_inv H. bind_inv H.
  rewrite Ha. cbn [bind]. rewrite (Hm _ _ Ha0). exact H.
Qed.

Lemma resolveStep_mono (schemas : catalog) (rec1 rec2 : string -> outcome (list string))
  (p : string) (l : list string) :
  (forall q l', rec1 q = Ret l' -> rec2 q = Ret l') ->
  resolveStep rec1 p schemas = Ret l -> resolveStep rec2 p schemas = Ret l.
Proof.
  intros Hm. unfold resolveStep.
  destruct (negb (truthy (fst (locate schemas p)))); [auto|]. intros H.
  assert (Fi : forall sub zs, followItems rec1 (snd (locate schemas p)) sub = Ret zs ->
                              followItems rec2 (snd (locate schemas p)) sub = Ret zs).
  { intros sub zs Hf. unfold followItems in *. bind_inv Hf. rewrite Ha. cbn [bind].
    destruct (truthy (getq a "$ref")); [|exact Hf]. eapply follow_mono; eauto. }
  assert (Fr : forall sub zs, followRef rec1 (snd (locate schemas p)) sub = Ret zs ->
                              followRef rec2 (snd (locate schemas p)) sub = Ret zs).
  { intros sub zs Hf. unfold followRef in *. bind_inv Hf. rewrite Ha. cbn [bind].
    destruct (truthy a); [|exact Hf]. eapply follow_mono; eauto. }
  bind_inv H. rewrite Ha. cbn [bind]. clear Ha.
  bind_inv H.
  assert (E1 : (if truthy (getq a "$ref")
                then follow rec2 (snd (locate schemas p)) (getq a "$ref")
                else Ret []) = Ret a0).
  { destruct (truthy (getq a "$ref")); [|exact Ha]. eapply follow_mono; eauto. }
  rewrite E1. cbn [bind]. clear Ha E1.
  bind_inv H. rewrite Ha. cbn [bind]. clear Ha.
  bind_inv H.
  assert (E2 : match a1 with
               | Some (JArr subs) => collect (followItems rec2 (snd (locate schemas p))) subs
               | _ => Ret []
               end = Ret a2).
  { destruct a1 as [[| | | |subs|]|]; try exact Ha. eapply collect_mono; eauto. }
  rewrite E2. cbn [bind]. clear Ha E2.
  bind_inv H. rewrite Ha. cbn [bind]. clear Ha.
  bind_inv H.
  assert (E3 : match a3 with
               | Some (JArr subs) => collect (followRef rec2 (snd (locate schemas p))) subs
               | _ => Ret []
               end = Ret a4).
  { destruct a3 as [[| | | |subs|]|]; try exact Ha. eapply collect_mono; eauto. }
  rewrite E3. cbn [bind]. clear Ha E3.
  bind_inv H. rewrite Ha. cbn [bind]. clear Ha.
  bind_inv H.
  assert (E4 : match a5 with
               | Some (JArr subs) => collect (followRef rec2 (snd (locate schemas p))) subs
               | _ => Ret []
               end = Ret a6).
  { destruct a5 as [[| | | |subs|]|]; try exact Ha. eapply collect_mono; eauto. }
  rewrite E4. cbn [bind]. exact H.
Qed.

(** A result does not depend on the budget that produced it. *)
Lemma resolve_mono (schemas : catalog) (fuel : nat) :
  forall p l, resolveTargetSchemaPath fuel p schemas = Ret l ->
              forall fuel', fuel <= fuel' -> resolveTargetSchemaPath fuel' p schemas = Ret l.
Proof.
  induction fuel as [|fuel IH]; intros p l H fuel' Hle; [discriminate|].
  destruct fuel' as [|fuel']; [lia|].
  cbn [resolveTargetSchemaPath] in *.
  eapply resolveStep_mono; [|exact H].
  intros q l' Hq. apply (IH _ _ Hq). lia.
Qed.




End Targets.

(** ** Export: termination and the cycle guard *)
Module ExportFacts.
Import JS SchemaRelationships BuilderTypes DataModelExport ExportSpec.
Import OutcomeFacts Samples.

Lemma mem_In (x : string) (l : list string) :
  existsb (String.eqb x) l = true <-> List.In x l.
Proof.
  rewrite existsb_exists. split.
  - intros (y & Hy & E). apply String.eqb_eq in E. now subst.
  - intros H. exists x. split; [exact H|apply String.eqb_refl].
Qed.

Lemma visitedAdd_incl (visited : list string) (id x : string) :
  List.In x visited -> List.In x (visitedAdd visited id).
Proof.
  unfold visitedAdd. destruct (existsb (String.eqb id) visited); [auto|].
  intros H. apply in_or_app. now left.
Qed.

Lemma visitedAdd_In (visited : list string) (id : string) :
  List.In id (visitedAdd visited id).
Proof.
  unfold visitedAdd. destruct (existsb (String.eqb id) visited) eqn:E.
  - now apply mem_In.
  - apply in_or_app. right. now left.
Qed.

Lemma unvisited_mono (nodes : list Node) (v v' : list string) :
  (forall x, List.In x v -> List.In x v') -> unvisited nodes v' <= unvisited nodes v.
Proof.
  intros Hsub. unfold unvisited. induction nodes as [|n nodes IH]; simpl; [lia|].
  destruct (existsb (String.eqb (node_id n)) v) eqn:E; simpl.
  - apply mem_In in E. apply Hsub in E. apply mem_In in E. rewrite E. simpl. exact IH.
  - destruct (existsb (String.eqb (node_id n)) v'); simpl; lia.
Qed.

(** Visiting a node that exists and was not visited leaves fewer nodes. *)
Lemma unvisited_decrease (nodes : list Node) (visited : list string) (id : string)
  (node : Node) :
  List.find (fun n => String.eqb (node_id n) id) nodes = Some node ->
  existsb (String.eqb id) visited = false ->
  unvisited nodes (visitedAdd visited id) < unvisited nodes visited.
Proof.
  intros Hfind Hnew. unfold unvisited.
  induction nodes as [|n nodes IH]; simpl in *; [discriminate|].
  destruct (String.eqb_spec (node_id n) id) as [E|Hne].
  - rewrite E, Hnew. simpl.
    pose proof (visitedAdd_In visited id) as Hin. apply mem_In in Hin. rewrite Hin. simpl.
    pose proof (unvisited_mono nodes visited (visitedAdd visited id)
                  (visitedAdd_incl visited id)) as Hm.
    unfold unvisited in Hm. lia.
  - specialize (IH Hfind).
    destruct (existsb (String.eqb (node_id n)) visited) eqn:Ev; simpl.
    + assert (Ev' : existsb (String.eqb (node_id n)) (visitedAdd visited id) = true).
      { apply mem_In. apply visitedAdd_incl. now apply mem_In. }
      rewrite Ev'. simpl. exact IH.
    + destruct (existsb (String.eqb (node_id n)) (visitedAdd visited id)); simpl; lia.
Qed.

(** *** The loops, for a recursive call that completes *)

Section Loops.
Variable nodes : list Node.
Variable build : string -> list string -> outcome (built * list string).
Variable budget : nat.
Hypothesis build_ok : Completes nodes build budget.

Lemma buildItems_completes (connections : list Edge) (visited : list string) :
  unvisited nodes visited < budget ->
  buildItems build connections visited <> Diverge.
Proof using build_ok.
  intros Hlt. induction connections as [|c rest IH]; cbn [buildItems]; [discriminate|].
  destruct (build_ok (target c) visited Hlt) as [Hnd _].
  destruct (build (target c) visited) as [r| |]; cbn [bind]; [|discriminate|congruence].
  destruct (buildItems build rest visited); cbn [bind]; [discriminate|discriminate|congruence].
Qed.

Lemma buildProperty_completes (rules : list ConnectionRule)
  (byProperty : gmap string (list Edge)) (nodeValues : list (string * json))
  (result : list (string * json)) (visited : list string) (prop : string * json) :
  unvisited nodes visited < budget ->
  buildProperty build rules byProperty nodeValues (result, visited) prop <> Diverge /\
  (forall result' v',
      buildProperty build rules byProperty nodeValues (result, visited) prop
        = Ret (result', v') ->
      forall x, List.In x visited -> List.In x v').
Proof using build_ok.
  intros Hlt. unfold buildProperty. destruct prop as [propName propDef].
  destruct (existsb (String.eqb propName) (map propertyPath rules)).
  2:{ split; [discriminate|]. intros ? ? H. injection H as <- <-. auto. }
  destruct (List.find _ rules) as [rule|].
  2:{ split; [discriminate|]. intros ? ? H. injection H as <- <-. auto. }
  destruct (cardinality rule).
  - destruct (default [] (byProperty !! propName)) as [|first rest].
    + split; [discriminate|]. intros ? ? H. injection H as <- <-. auto.
    + destruct (build_ok (target first) visited Hlt) as [Hnd Hsub].
      destruct (build (target first) visited) as [[b v1]| |]; cbn [bind];
        [|split; [discriminate|intros ? ? HH; discriminate HH]|congruence].
      split; [discriminate|]. intros ? ? H. injection H as <- <-. eauto.
  - pose proof (buildItems_completes (default [] (byProperty !! propName)) visited Hlt)
      as Hitems.
    destruct (buildItems build _ visited); cbn [bind];
      [|split; [discriminate|intros ? ? HH; discriminate HH]|congruence].
    split; [discriminate|]. intros ? ? H. injection H as <- <-. auto.
Qed.

Lemma buildProperties_completes (rules : list ConnectionRule)
  (byProperty : gmap string (list Edge)) (nodeValues : list (string * json))
  (props : list (string * json)) :
  forall result visited,
    unvisited nodes visited < budget ->
    buildProperties build rules byProperty nodeValues props (result, visited) <> Diverge /\
    (forall result' v',
        buildProperties build rules byProperty nodeValues props (result, visited)
          = Ret (result', v') ->
        forall x, List.In x visited -> List.In x v').
Proof using build_ok.
  induction props as [|prop rest IH]; intros result visited Hlt; cbn [buildProperties].
  - split; [discriminate|]. intros ? ? H. injection H as <- <-. auto.
  - destruct (buildProperty_completes rules byProperty nodeValues result visited prop Hlt)
      as [Hnd Hsub].
    destruct (buildProperty build rules byProperty nodeValues (result, visited) prop)
      as [[res1 v1]| |]; cbn [bind]; [|split; [discriminate|intros ? ? HH; discriminate HH]|congruence].
    assert (Hlt1 : unvisited nodes v1 < budget).
    { apply Nat.le_lt_trans with (unvisited nodes visited); [|exact Hlt].
      apply unvisited_mono. exact (Hsub res1 v1 eq_refl). }
    destruct (IH res1 v1 Hlt1) as [Hnd1 Hsub1]. split; [exact Hnd1|].
    intros ? ? H x Hx. eapply Hsub1; eauto.
Qed.

End Loops.

(** [buildObjectFromInstance] completes within a budget of one call per
    unvisited node, plus one. *)
Lemma build_completes (nodes : list Node) (edges : list Edge) (schemas : catalog)
  (options : option ExportOptions) (fuel : nat) :
  Completes nodes
    (fun id v => buildObjectFromInstance fuel id nodes edges schemas v options) fuel.
Proof.
  induction fuel as [|fuel IH]; intros id visited Hlt; [lia|].
  cbn [buildObjectFromInstance].
  destruct (existsb (String.eqb id) visited) eqn:Seen.
  { split; [discriminate|]. intros ? ? H. injection H as <- <-. auto. }
  assert (Radd : forall x, List.In x visited -> List.In x (visitedAdd visited id))
    by apply visitedAdd_incl.
  destruct (List.find _ nodes) as [node|] eqn:Hfind.
  2:{ split; [discriminate|]. intros ? ? H. injection H as <- <-. auto. }
  destruct (node_data node) as [data|].
  2:{ split; [discriminate|]. intros ? ? H. injection H as <- <-. auto. }
  destruct (String.eqb (nd_schemaPath data) "").
  { split; [discriminate|]. intros ? ? H. injection H as <- <-. auto. }
  destruct (negb (truthy (assoc (nd_schemaPath data) schemas))).
  { split; [discriminate|]. intros ? ? H. injection H as <- <-. auto. }
  pose proof (Rules.getSchemaConnectionRules_nd (assoc (nd_schemaPath data) schemas)
                (nd_schemaPath data) None) as Hrules.
  destruct (getSchemaConnectionRules _ _ None) as [rules| |]; cbn [bind];
    [|split; [discriminate|intros ? ? HH; discriminate HH]|congruence].
  pose proof (get_nd (assoc (nd_schemaPath data) schemas) "properties") as Hget.
  destruct (get _ "properties") as [properties| |]; cbn [bind];
    [|split; [discriminate|intros ? ? HH; discriminate HH]|congruence].
  destruct properties as [props|].
  2:{ split; [discriminate|]. intros ? ? H. injection H as <- <-. auto. }
  destruct (truthy (Some props) && typeof_object (Some props)).
  2:{ split; [discriminate|]. intros ? ? H. injection H as <- <-. auto. }
  assert (Hlt1 : unvisited nodes (visitedAdd visited id) < fuel).
  { pose proof (unvisited_decrease nodes visited id node Hfind Seen). lia. }
  match goal with
  | |- context [buildProperties ?b ?r ?c ?n ?p (?res, ?v)] =>
      destruct (buildProperties_completes nodes b fuel IH r c n p res v Hlt1)
        as [Hnd Hsub];
      destruct (buildProperties b r c n p (res, v)) as [[res1 v1]| |]
  end; cbn [bind]; try congruence.
  - split; [discriminate|]. intros ? ? H x Hx. injection H as <- <-.
    eapply Hsub; eauto.
  - split; [discriminate|intros ? ? HH; discriminate HH].
Qed.

Lemma Completes_le (nodes : list Node)
  (build : string -> list string -> outcome (built * list string)) (m n : nat) :
  m <= n -> Completes nodes build n -> Completes nodes build m.
Proof. intros Hle H id visited Hlt. apply H. lia. Qed.

(** *** The loops, for two recursive calls that agree *)

Section Agree.
Variable nodes : list Node.
Variables build1 build2 : string -> list string -> outcome (built * list string).
Variable budget : nat.
Hypothesis build_ok : Completes nodes build1 budget.
Hypothesis agree :
  forall id visited, unvisited nodes visited < budget -> build1 id visited = build2 id visited.

Lemma buildItems_agree (connections : list Edge) (visited : list string) :
  unvisited nodes visited < budget ->
  buildItems build1 connections visited = buildItems build2 connections visited.
Proof using agree.
  intros Hlt. induction connections as [|c rest IH]; cbn [buildItems]; [reflexivity|].
  now rewrite (agree _ _ Hlt), IH.
Qed.

Lemma buildProperty_agree (rules : list ConnectionRule)
  (byProperty : gmap string (list Edge)) (nodeValues : list (string * json))
  (st : list (string * json) * list string) (prop : string * json) :
  unvisited nodes (snd st) < budget ->
  buildProperty build1 rules byProperty nodeValues st prop =
  buildProperty build2 rules byProperty nodeValues st prop.
Proof using agree.
  destruct st as [result visited]. intros Hlt. unfold buildProperty.
  destruct prop as [propName propDef].
  destruct (existsb _ _); [|reflexivity].
  destruct (List.find _ rules) as [rule|]; [|reflexivity].
  destruct (cardinality rule).
  - destruct (default [] (byProperty !! propName)); [reflexivity|].
    now rewrite (agree _ _ Hlt).
  - now rewrite (buildItems_agree _ _ Hlt).
Qed.

Lemma buildProperties_agree (rules : list ConnectionRule)
  (byProperty : gmap string (list Edge)) (nodeValues : list (string * json))
  (props : list (string * json)) :
  forall result visited,
    unvisited nodes visited < budget ->
    buildProperties build1 rules byProperty nodeValues props (result, visited) =
    buildProperties build2 rules byProperty nodeValues props (result, visited).
Proof using agree build_ok.
  induction props as [|prop rest IH]; intros result visited Hlt; cbn [buildProperties];
    [reflexivity|].
  rewrite <- (buildProperty_agree rules byProperty nodeValues (result, visited) prop Hlt).
  destruct (buildProperty_completes nodes build1 budget build_ok rules byProperty
              nodeValues result visited prop Hlt) as [_ Hsub].
  destruct (buildProperty build1 rules byProperty nodeValues (result, visited) prop)
    as [[res1 v1]| |]; cbn [bind]; try reflexivity.
  apply IH. apply Nat.le_lt_trans with (unvisited nodes visited); [|exact Hlt].
  apply unvisited_mono. exact (Hsub res1 v1 eq_refl).
Qed.

End Agree.

(** Two budgets that both exceed the number of unvisited nodes give the same
    result. *)
Lemma build_stable (nodes : list Node) (edges : list Edge) (schemas : catalog)
  (options : option ExportOptions) (fuel1 : nat) :
  forall fuel2 id visited,
    unvisited nodes visited < fuel1 -> unvisited nodes visited < fuel2 ->
    buildObjectFromInstance fuel1 id nodes edges schemas visited options =
    buildObjectFromInstance fuel2 id nodes edges schemas visited options.
Proof.
  induction fuel1 as [|fuel1 IH]; intros [|fuel2] id visited H1 H2; try lia.
  cbn [buildObjectFromInstance].
  destruct (existsb (String.eqb id) visited) eqn:Seen; [reflexivity|].
  destruct (List.find _ nodes) as [node|] eqn:Hfind; [|reflexivity].
  destruct (node_data node) as [data|]; [|reflexivity].
  destruct (String.eqb (nd_schemaPath data) ""); [reflexivity|].
  destruct (negb (truthy (assoc (nd_schemaPath data) schemas))); [reflexivity|].
  destruct (getSchemaConnectionRules _ _ None) as [rules| |]; cbn [bind]; try reflexivity.
  destruct (get _ "properties") as [properties| |]; cbn [bind]; try reflexivity.
  destruct properties as [props|]; [|reflexivity].
  destruct (truthy (Some props) && typeof_object (Some props)); [|reflexivity].
  pose proof (unvisited_decrease nodes visited id node Hfind Seen) as Hdec.
  rewrite (buildProperties_agree nodes
             (fun id0 v => buildObjectFromInstance fuel1 id0 nodes edges schemas v options)
             (fun id0 v => buildObjectFromInstance fuel2 id0 nodes edges schemas v options)
             (S (unvisited nodes (visitedAdd visited id)))).
  - reflexivity.
  - apply (Completes_le nodes _ _ fuel1); [lia|apply build_completes].
  - intros id0 v Hv. apply IH; lia.
  - lia.
Qed.

Lemma unvisited_nil (nodes : list Node) : unvisited nodes [] = length nodes.
Proof.
  unfold unvisited. induction nodes as [|n nodes IH]; [reflexivity|].
  cbn [List.filter existsb negb length]. f_equal. exact IH.
Qed.

Lemma exportRoots_stable (nodes : list Node) (edges : list Edge) (schemas : catalog)
  (options : option ExportOptions) (fuel1 fuel2 : nat) (ids : list string) :
  length nodes < fuel1 -> length nodes < fuel2 ->
  exportRoots fuel1 ids nodes edges schemas options =
  exportRoots fuel2 ids nodes edges schemas options /\
  exportRoots fuel1 ids nodes edges schemas options <> Diverge.
Proof.
  intros H1 H2. induction ids as [|rootId rest [IHe IHn]]; cbn [exportRoots].
  - split; [reflexivity|discriminate].
  - rewrite (build_stable nodes edges schemas options fuel1 fuel2 rootId [])
      by (rewrite unvisited_nil; assumption).
    rewrite IHe.
    destruct (build_completes nodes edges schemas options fuel2 rootId [])
      as [Hnd _]; [rewrite unvisited_nil; assumption|].
    split; [reflexivity|].
    destruct (buildObjectFromInstance fuel2 rootId nodes edges schemas [] options)
      as [r| |]; cbn [bind]; [|discriminate|congruence].
    rewrite <- IHe.
    destruct (exportRoots fuel1 rest nodes edges schemas options); cbn [bind];
      [discriminate|discriminate|congruence].
Qed.

Lemma exportToJson_stable (nodes : list Node) (edges : list Edge) (schemas : catalog)
  (options : option ExportOptions) (fuel1 fuel2 : nat) :
  length nodes < fuel1 -> length nodes < fuel2 ->
  exportToJson fuel1 nodes edges schemas options =
  exportToJson fuel2 nodes edges schemas options /\
  exportToJson fuel1 nodes edges schemas options <> Diverge.
Proof.
  intros H1 H2. unfold exportToJson.
  destruct nodes as [|n0 nodes0] eqn:En; [split; [reflexivity|discriminate]|].
  rewrite <- En in *.
  match goal with
  | |- context [match ?root with Some _ => _ | None => _ end] =>
      destruct root as [r|]
  end.
  - rewrite (build_stable nodes edges schemas options fuel1 fuel2 r [])
      by (rewrite unvisited_nil; assumption).
    split; [reflexivity|].
    destruct (build_completes nodes edges schemas options fuel2 r [])
      as [Hnd _]; [rewrite unvisited_nil; assumption|].
    destruct (buildObjectFromInstance fuel2 r nodes edges schemas [] options)
      as [res| |]; cbn [bind]; [discriminate|discriminate|congruence].
  - match goal with
    | |- context [exportRoots fuel1 ?ids _ _ _ _] =>
        destruct (exportRoots_stable nodes edges schemas options fuel1 fuel2 ids H1 H2)
          as [E N]; rewrite <- E;
        destruct (exportRoots fuel1 ids nodes edges schemas options) as [results| |]
    end; cbn [bind]; [|split; [reflexivity|discriminate]|congruence].
    split; [reflexivity|]. destruct results as [|x [|y l]]; discriminate.
Qed.

Lemma find_rule_named (rules : list ConnectionRule) (p : string) (rule : ConnectionRule) :
  List.find (fun r => String.eqb (propertyPath r) p) rules = Some rule ->
  existsb (String.eqb p) (map propertyPath rules) = true.
Proof.
  intros H. apply find_some in H. destruct H as [Hin E].
  apply existsb_exists. exists (propertyPath rule). split; [now apply in_map|].
  rewrite String.eqb_sym. exact E.
Qed.



(** The export of the cycle.  Starting from A: its 'one' property [b] holds
    B, whose own 'one' property [a] is [null] at the revisit of A; by then B
    is in the set A works with, so the 'many' property [bs] of A omits it. *)
Example export_cycle :
  exportToJson 3 cycleNodes cycleEdges cycleCatalog
    (Some {| includeMetadata := false; rootInstanceId := Some "A" |}) =
  Ret (JObj [("n", JNull);
             ("b", JObj [("a", JNull); ("k", JArr [])]);
             ("bs", JArr [])]).
Proof. vm_compute. reflexivity. Qed.

End ExportFacts.

(** ** One rule per property *)
Module RuleFacts.
Import JS SchemaRelationships ConnectionValidator OutcomeFacts Rules.

Lemma patternRules_single (schemaPath : string) (schemas : option catalog)
  (req : list json) (p : string) (patterns : list (string * json))
  (rs : list ConnectionRule) :
  patternRules schemaPath schemas req p patterns = Ret rs -> length rs <= 1.
Proof.
  revert rs. induction patterns as [|[k d] rest IH]; intros rs H; simpl in H.
  - injection H as <-. simpl. lia.
  - bind_inv H.
    destruct (truthy a && typeof_string a); [|eauto].
    destruct (schemaFileRef a) as [m|]; [|eauto].
    destruct (isPrimitiveSchemaPath _); [eauto|].
    destruct (lookupFlexible schemas _) as [refSchema actual].
    bind_inv H. destruct a0; [eauto|].
    injection H as <-. simpl. lia.
Qed.

Ltac at_most_one H := injection H as <-; simpl; lia.

(** A property yields one rule at most. *)
Lemma processProperty_single (schemaPath : string) (schemas : option catalog)
  (req : list json) (p : string) (v : json) (rs : list ConnectionRule) :
  processProperty schemaPath schemas req p v = Ret rs -> length rs <= 1.
Proof.
  unfold processProperty. intros H.
  destruct (negb (truthy (Some v)) || negb (typeof_object (Some v))); [at_most_one H|].
  bind_inv H. destruct (truthy a && typeof_string a).
  - destruct (schemaFileRef a) as [m|]; [|at_most_one H].
    destruct (isPrimitiveSchemaPath _); [at_most_one H|].
    destruct (lookupFlexible schemas _) as [refSchema refPath].
    destruct (truthy refSchema); [|at_most_one H].
    bind_inv H. destruct a0; [at_most_one H|].
    bind_inv H. destruct a0; at_most_one H.
  - bind_inv H. bind_inv H.
    destruct (is_str a0 "array" && truthy a1).
    + bind_inv H. destruct (truthy a2 && typeof_string a2); [|at_most_one H].
      destruct (schemaFileRef a2) as [m|]; [|at_most_one H].
      destruct (isPrimitiveSchemaPath _); [at_most_one H|].
      bind_inv H. destruct a3; at_most_one H.
    + bind_inv H. destruct (is_str a0 "object" && truthy a2); [|at_most_one H].
      destruct a2 as [pp|]; [|at_most_one H].
      eapply patternRules_single; eauto.
Qed.

Section Collect.
Variable f : string * json -> outcome (list ConnectionRule).
Hypothesis f_paths :
  forall kv rs, f kv = Ret rs -> forall r, List.In r rs -> propertyPath r = fst kv.
Hypothesis f_single : forall kv rs, f kv = Ret rs -> length rs <= 1.

Lemma collect_paths (props : list (string * json)) (rules : list ConnectionRule) :
  collect f props = Ret rules ->
  forall r, List.In r rules -> List.In (propertyPath r) (map fst props).
Proof using f_paths.
  revert rules. induction props as [|kv rest IH]; intros rules H r Hin; simpl in H.
  - injection H as <-. destruct Hin.
  - bind_inv H. bind_inv H. injection H as <-.
    apply in_app_or in Hin. destruct Hin as [Hin|Hin].
    + left. symmetry. apply (f_paths _ _ Ha _ Hin).
    + right. eapply IH; eauto.
Qed.

Lemma collect_distinct (props : list (string * json)) (rules : list ConnectionRule) :
  List.NoDup (map fst props) -> collect f props = Ret rules ->
  List.NoDup (map propertyPath rules).
Proof using f_paths f_single.
  revert rules. induction props as [|kv rest IH]; intros rules N H; simpl in H.
  - injection H as <-. constructor.
  - bind_inv H. bind_inv H. injection H as <-.
    inversion N as [|? ? Hnin N']; subst.
    pose proof (f_single _ _ Ha) as L. pose proof (f_paths _ _ Ha) as P.
    destruct a as [|r [|r' a]]; simpl in L; [eauto| |lia].
    simpl. constructor; [|eauto].
    intros Hin. apply in_map_iff in Hin. destruct Hin as (r2 & E & Hin).
    apply Hnin. rewrite <- (P r) by now left. rewrite <- E.
    eapply collect_paths; eauto.
Qed.

End Collect.

(** The rules of a schema have pairwise distinct property paths. *)
Lemma rules_distinct (schema : value) (schemaPath : string) (schemas : option catalog)
  (rules : list ConnectionRule) :
  getSchemaConnectionRules schema schemaPath schemas = Ret rules ->
  List.NoDup (map propertyPath rules).
Proof.
  unfold getSchemaConnectionRules. intros H. bind_inv H. bind_inv H.
  eapply collect_distinct; [| |eapply getSchemaProperties_keys; eauto|exact H].
  - intros [k v] rs. apply processProperty_paths.
  - intros [k v] rs. apply processProperty_single.
Qed.

Lemma findRule_In (rules : list ConnectionRule) (p : string) (rule : ConnectionRule) :
  findRule rules p = Some rule -> List.In rule rules /\ propertyPath rule = p.
Proof.
  unfold findRule. intros H. apply find_some in H.
  destruct H as (Hin & E). apply String.eqb_eq in E. auto.
Qed.

Lemma In_findRule (rules : list ConnectionRule) (rule : ConnectionRule) :
  List.NoDup (map propertyPath rules) -> List.In rule rules ->
  findRule rules (propertyPath rule) = Some rule.
Proof.
  unfold findRule. induction rules as [|r rest IH]; simpl; intros N Hin; [destruct Hin|].
  inversion N as [|? ? Hnin N']; subst.
  destruct Hin as [->|Hin]; [now rewrite String.eqb_refl|].
  destruct (String.eqb_spec (propertyPath r) (propertyPath rule)) as [E|Hne]; [|now apply IH].
  exfalso. apply Hnin. rewrite E. now apply in_map.
Qed.

End RuleFacts.

(** ** The queries of the canvas and the validator *)
Module QueryFacts.
Import JS SchemaRelationships BuilderTypes ConnectionValidator ConnectionQueries QuerySpec.
Import OutcomeFacts Cardinality Rules RuleFacts Samples MoreSamples.

Lemma asMap_lookup (instances : InstanceMap) (k : string) :
  asMap instances !! k = instanceAt instances k.
Proof.
  unfold asMap, instanceAt. induction instances as [|[k' v] rest IH]; simpl.
  - apply lookup_empty.
  - destruct (String.eqb_spec k' k) as [->|Hne].
    + apply lookup_insert_eq.
    + rewrite lookup_insert_ne by exact Hne. exact IH.
Qed.

Lemma instanceAt_In (instances : InstanceMap) (k : string) (v : DataInstance) :
  instanceAt instances k = Some v -> List.In (k, v) instances.
Proof.
  unfold instanceAt. induction instances as [|[k' v'] rest IH]; simpl; [discriminate|].
  destruct (String.eqb_spec k' k) as [->|Hne].
  - intros H. injection H as ->. now left.
  - intros H. right. now apply IH.
Qed.

Lemma In_instanceAt (instances : InstanceMap) (k : string) (v : DataInstance) :
  List.NoDup (map fst instances) -> List.In (k, v) instances ->
  instanceAt instances k = Some v.
Proof.
  unfold instanceAt. induction instances as [|[k' v'] rest IH]; simpl; intros N Hin;
    [destruct Hin|].
  inversion N as [|? ? Hnin N']; subst.
  destruct Hin as [E|Hin].
  - injection E as -> ->. now rewrite String.eqb_refl.
  - destruct (String.eqb_spec k' k) as [->|Hne]; [|now apply IH].
    exfalso. apply Hnin. apply in_map_iff. exists (k, v). auto.
Qed.

Lemma occupied_no_triple (s t p : string) (conns : list DataConnection) :
  existsb (occupies s p) conns = false -> existsb (sameTriple s t p) conns = false.
Proof.
  intros H. destruct (existsb (sameTriple s t p) conns) eqn:E; [|reflexivity].
  apply existsb_exists in E. destruct E as (c & Hc & E).
  assert (X : existsb (occupies s p) conns = true).
  { apply existsb_exists. exists c. split; [exact Hc|].
    unfold sameTriple in E. unfold occupies.
    apply andb_prop in E. destruct E as [E E3]. apply andb_prop in E.
    destruct E as [E1 E2]. now rewrite E1, E3. }
  congruence.
Qed.

(** What the checks that end [validateConnection] ask for. *)
Lemma checkCardinality_accepted (rule : ConnectionRule) (s t p : string)
  (conns : list DataConnection) :
  checkCardinality rule s t p conns = accepted <->
  match cardinality rule with
  | one => existsb (occupies s p) conns = false
  | many => True
  end /\ String.eqb s t = false /\ existsb (sameTriple s t p) conns = false.
Proof.
  unfold checkCardinality, accepted, rejected.
  destruct (cardinality rule).
  - destruct (existsb (occupies s p) conns); [split; [discriminate|intros (H & _); discriminate H]|].
    destruct (String.eqb s t); [split; [discriminate|intros (_ & H & _); discriminate H]|].
    destruct (existsb (sameTriple s t p) conns);
      [split; [discriminate|intros (_ & _ & H); discriminate H]|].
    split; auto.
  - destruct (String.eqb s t); [split; [discriminate|intros (_ & H & _); discriminate H]|].
    destruct (existsb (sameTriple s t p) conns);
      [split; [discriminate|intros (_ & _ & H); discriminate H]|].
    split; auto.
Qed.

(** When [validateConnection] answers [valid: true]. *)
Lemma validateConnection_accepts (fuel : nat) (s t p : string)
  (conns : list DataConnection) (schemas : catalog)
  (instances : gmap string DataInstance) :
  validateConnection fuel s t p conns schemas instances = Ret accepted <->
  exists si ti rules rule resolved,
    instances !! s = Some si /\ instances !! t = Some ti /\
    truthy (assoc (inst_schemaPath si) schemas) = true /\
    getSchemaConnectionRules (assoc (inst_schemaPath si) schemas) (inst_schemaPath si)
      (Some schemas) = Ret rules /\
    findRule rules p = Some rule /\
    resolveTargetSchemaPath fuel (targetSchemaPath rule) schemas = Ret resolved /\
    existsb (String.eqb (inst_schemaPath ti)) resolved = true /\
    checkCardinality rule s t p conns = accepted.
Proof.
  unfold validateConnection, getConnectionRulesForSchema. split.
  - intros H.
    destruct (instances !! s) as [si|]; [|discriminate H].
    destruct (instances !! t) as [ti|]; [|discriminate H].
    destruct (truthy (assoc (inst_schemaPath si) schemas)) eqn:T; [|discriminate H].
    cbn [negb] in H. bind_inv H.
    destruct (findRule a p) as [rule|] eqn:F; [|discriminate H].
    bind_inv H.
    destruct (existsb (String.eqb (inst_schemaPath ti)) a0) eqn:E; [|discriminate H].
    cbn [negb] in H. injection H as H.
    exists si, ti, a, rule, a0. repeat split; auto.
  - intros (si & ti & rules & rule & resolved & -> & -> & T & R & F & Z & E & C).
    rewrite T. cbn [negb]. rewrite R. cbn [bind]. rewrite F, Z. cbn [bind].
    rewrite E. cbn [negb]. now rewrite C.
Qed.


(** The targets [getValidTargets] offers are the instances
    [validateConnection] accepts: the revision with
    [resolveTargetSchemaPath]. *)
Lemma valid_targets_resolved :
  forall (fuel : nat) (s p : string) (instances : InstanceMap) (schemas : catalog)
         (conns : list DataConnection) (targets : list string),
    List.NoDup (map fst instances) ->
    getValidTargets fuel s p instances schemas conns = Ret targets ->
    forall t,
      List.In t targets <->
      validateConnection fuel s t p conns schemas (asMap instances) = Ret accepted.
Proof.
  intros fuel s p instances schemas conns targets N H t.
  rewrite validateConnection_accepts. rewrite !asMap_lookup.
  unfold getValidTargets, getConnectionRulesForSchema in H.
  destruct (instanceAt instances s) as [si|] eqn:Es.
  2:{ injection H as <-. split; [intros []|].
      intros (si & ti & rules & rule & resolved & X & _). discriminate X. }
  destruct (truthy (assoc (inst_schemaPath si) schemas)) eqn:T; cbn [negb] in H.
  2:{ injection H as <-. split; [intros []|].
      intros (si' & ti & rules & rule & resolved & X & _ & T' & _).
      injection X as <-. congruence. }
  bind_inv H. rename a into rules, Ha into R.
  destruct (findRule rules p) as [rule|] eqn:F.
  2:{ injection H as <-. split; [intros []|].
      intros (si' & ti & rules' & rule & resolved & X & _ & _ & R' & F' & _).
      injection X as <-. rewrite R in R'. injection R' as <-. congruence. }
  bind_inv H. rename a into resolved, Ha into Z.
  destruct (match cardinality rule with
            | one => existsb (occupies s p) conns
            | many => false
            end) eqn:Occ.
  - injection H as <-. split; [intros []|].
    intros (si' & ti & rules' & rule' & resolved' & X & _ & _ & R' & F' & _ & _ & C).
    injection X as <-. rewrite R in R'. injection R' as <-.
    rewrite F in F'. injection F' as <-.
    apply checkCardinality_accepted in C. destruct C as (C & _).
    destruct (cardinality rule); [congruence|discriminate Occ].
  - injection H as <-. rewrite in_map_iff. split.
    + intros ([t' ti] & <- & Hin). apply filter_In in Hin. destruct Hin as (Hin & V).
      cbn [fst]. cbn [isValidTarget] in V.
      destruct (String.eqb t' s) eqn:Ets; [discriminate V|].
      destruct (existsb (String.eqb (inst_schemaPath ti)) resolved) eqn:E; [|discriminate V].
      exists si, ti, rules, rule, resolved.
      rewrite (In_instanceAt _ _ _ N Hin). repeat split; auto.
      apply checkCardinality_accepted. rewrite String.eqb_sym, Ets.
      destruct (cardinality rule).
      * repeat split; auto. now apply occupied_no_triple.
      * repeat split; auto. now apply negb_true_iff in V.
    + intros (si' & ti & rules' & rule' & resolved' & X & Y & _ & R' & F' & Z' & E & C).
      injection X as <-. rewrite R in R'. injection R' as <-.
      rewrite F in F'. injection F' as <-. rewrite Z in Z'. injection Z' as <-.
      apply checkCardinality_accepted in C. destruct C as (C1 & C2 & C3).
      exists (t, ti). split; [reflexivity|]. apply filter_In.
      split; [now apply instanceAt_In|].
      cbn [isValidTarget]. rewrite String.eqb_sym, C2, E.
      destruct (cardinality rule); [reflexivity|]. now rewrite C3.
Qed.


(** When the validator under src/utils answers [valid: true]. *)
Lemma validateConnectionExact_accepts (s t p : string)
  (conns : list DataConnection) (schemas : catalog)
  (instances : gmap string DataInstance) :
  ConnectionValidatorExact.validateConnection s t p conns schemas instances = Ret accepted <->
  exists si ti rules rule,
    instances !! s = Some si /\ instances !! t = Some ti /\
    truthy (assoc (inst_schemaPath si) schemas) = true /\
    getSchemaConnectionRules (assoc (inst_schemaPath si) schemas) (inst_schemaPath si)
      None = Ret rules /\
    findRule rules p = Some rule /\
    targetSchemaPath rule = inst_schemaPath ti /\
    checkCardinality rule s t p conns = accepted.
Proof.
  unfold ConnectionValidatorExact.validateConnection. split.
  - intros H.
    destruct (instances !! s) as [si|]; [|discriminate H].
    destruct (instances !! t) as [ti|]; [|discriminate H].
    destruct (truthy (assoc (inst_schemaPath si) schemas)) eqn:T; [|discriminate H].
    cbn [negb] in H. bind_inv H.
    destruct (findRule a p) as [rule|] eqn:F; [|discriminate H].
    destruct (String.eqb_spec (targetSchemaPath rule) (inst_schemaPath ti)) as [E|];
      [|discriminate H].
    cbn [negb] in H. injection H as H.
    exists si, ti, a, rule. repeat split; auto.
  - intros (si & ti & rules & rule & -> & -> & T & R & F & E & C).
    rewrite T. cbn [negb]. rewrite R. cbn [bind]. rewrite F, E, String.eqb_refl.
    cbn [negb]. now rewrite C.
Qed.

Lemma hasRoom_accepted (rule : ConnectionRule) (s t : string)
  (conns : list DataConnection) :
  checkCardinality rule s t (propertyPath rule) conns = accepted <->
  hasRoom rule s t conns = true /\ String.eqb s t = false.
Proof.
  rewrite checkCardinality_accepted. unfold hasRoom.
  destruct (cardinality rule); rewrite negb_true_iff.
  - split; [intros (A & B & _); auto|].
    intros (A & B). repeat split; auto. now apply occupied_no_triple.
  - split; [intros (_ & B & C); auto|]. intros (A & B). auto.
Qed.

(** The same for the revision under src/utils. *)
Lemma valid_targets_exact :
  forall (s p : string) (instances : InstanceMap) (schemas : catalog)
         (conns : list DataConnection) (targets : list string),
    List.NoDup (map fst instances) ->
    ConnectionQueriesExact.getValidTargets s p instances schemas conns = Ret targets ->
    forall t,
      List.In t targets <->
      ConnectionValidatorExact.validateConnection s t p conns schemas (asMap instances)
        = Ret accepted.
Proof.
  intros s p instances schemas conns targets N H t.
  rewrite validateConnectionExact_accepts. rewrite !asMap_lookup.
  unfold ConnectionQueriesExact.getValidTargets in H.
  destruct (instanceAt instances s) as [si|] eqn:Es.
  2:{ injection H as <-. split; [intros []|].
      intros (si & ti & rules & rule & X & _). discriminate X. }
  destruct (truthy (assoc (inst_schemaPath si) schemas)) eqn:T; cbn [negb] in H.
  2:{ injection H as <-. split; [intros []|].
      intros (si' & ti & rules & rule & X & _ & T' & _).
      injection X as <-. congruence. }
  bind_inv H. rename a into rules, Ha into R.
  destruct (findRule rules p) as [rule|] eqn:F.
  2:{ injection H as <-. split; [intros []|].
      intros (si' & ti & rules' & rule & X & _ & _ & R' & F' & _).
      injection X as <-. rewrite R in R'. injection R' as <-. congruence. }
  destruct (match cardinality rule with
            | one => existsb (occupies s p) conns
            | many => false
            end) eqn:Occ.
  - injection H as <-. split; [intros []|].
    intros (si' & ti & rules' & rule' & X & _ & _ & R' & F' & _ & C).
    injection X as <-. rewrite R in R'. injection R' as <-.
    rewrite F in F'. injection F' as <-.
    apply checkCardinality_accepted in C. destruct C as (C & _).
    destruct (cardinality rule); [congruence|discriminate Occ].
  - injection H as <-. rewrite in_map_iff. split.
    + intros ([t' ti] & <- & Hin). apply filter_In in Hin. destruct Hin as (Hin & V).
      cbn [fst]. cbn [ConnectionQueriesExact.isValidTarget] in V.
      destruct (String.eqb t' s) eqn:Ets; [discriminate V|].
      destruct (String.eqb_spec (inst_schemaPath ti) (targetSchemaPath rule)) as [E|];
        [|discriminate V].
      exists si, ti, rules, rule.
      rewrite (In_instanceAt _ _ _ N Hin). repeat split; auto.
      apply checkCardinality_accepted. rewrite String.eqb_sym, Ets.
      destruct (cardinality rule).
      * repeat split; auto. now apply occupied_no_triple.
      * repeat split; auto. now apply negb_true_iff in V.
    + intros (si' & ti & rules' & rule' & X & Y & _ & R' & F' & E & C).
      injection X as <-. rewrite R in R'. injection R' as <-.
      rewrite F in F'. injection F' as <-.
      apply checkCardinality_accepted in C. destruct C as (C1 & C2 & C3).
      exists (t, ti). split; [reflexivity|]. apply filter_In.
      split; [now apply instanceAt_In|].
      cbn [ConnectionQueriesExact.isValidTarget].
      rewrite String.eqb_sym, C2, E, String.eqb_refl.
      destruct (cardinality rule); [reflexivity|]. now rewrite C3.
Qed.

(** X1.  In the revision under src/utils, the properties
    [getConnectableProperties] lists for a pair of instances are the
    properties on which [validateConnection] accepts the pair. *)
Theorem getConnectableProperties_exact_accepted :
  forall (s t : string) (instances : InstanceMap) (schemas : catalog)
         (conns : list DataConnection) (props : list string),
    ConnectionQueriesExact.getConnectableProperties s t instances schemas conns = Ret props ->
    forall p,
      List.In p props <->
      ConnectionValidatorExact.validateConnection s t p conns schemas (asMap instances)
        = Ret accepted.
Proof.
  intros s t instances schemas conns props H p.
  rewrite validateConnectionExact_accepts. rewrite !asMap_lookup.
  unfold ConnectionQueriesExact.getConnectableProperties in H.
  destruct (instanceAt instances s) as [si|] eqn:Es.
  2:{ injection H as <-. split; [intros []|].
      intros (si & ti & rules & rule & X & _). discriminate X. }
  destruct (instanceAt instances t) as [ti|] eqn:Et.
  2:{ injection H as <-. split; [intros []|].
      intros (si' & ti & rules & rule & _ & X & _). discriminate X. }
  destruct (String.eqb s t) eqn:Est.
  { injection H as <-. split; [intros []|].
    intros (si' & ti' & rules & rule & _ & _ & _ & _ & F & _ & C).
    apply findRule_In in F. destruct F as (_ & <-).
    apply hasRoom_accepted in C. destruct C as (_ & C). congruence. }
  destruct (truthy (assoc (inst_schemaPath si) schemas)) eqn:T; cbn [negb] in H.
  2:{ injection H as <-. split; [intros []|].
      intros (si' & ti' & rules & rule & X & _ & T' & _).
      injection X as <-. congruence. }
  bind_inv H. rename a into rules, Ha into R. injection H as <-.
  rewrite in_map_iff. split.
  - intros (rule & <- & Hin). apply filter_In in Hin. destruct Hin as (Hin & V).
    apply andb_prop in V. destruct V as (V1 & V2). apply String.eqb_eq in V1.
    exists si, ti, rules, rule. repeat split; auto.
    + apply In_findRule; [|exact Hin]. eapply rules_distinct; eauto.
    + apply hasRoom_accepted. auto.
  - intros (si' & ti' & rules' & rule & X & Y & _ & R' & F & E & C).
    injection X as <-. injection Y as <-. rewrite R in R'. injection R' as <-.
    apply findRule_In in F. destruct F as (Hin & <-).
    apply hasRoom_accepted in C. destruct C as (C & _).
    exists rule. split; [reflexivity|]. apply filter_In. split; [exact Hin|].
    now rewrite E, String.eqb_refl, C.
Qed.

(** The first step of [resolveTargetSchemaPath] for a path that is a key of
    the catalog: the path itself is among the results. *)
Lemma resolved_key (fuel : nat) (path : string) (schemas : catalog)
  (resolved : list string) :
  truthy (assoc path schemas) = true ->
  resolveTargetSchemaPath fuel path schemas = Ret resolved ->
  List.In path resolved.
Proof.
  intros T H. destruct fuel as [|fuel]; [discriminate H|].
  cbn [resolveTargetSchemaPath] in H. unfold resolveStep, locate in H.
  rewrite T in H. cbn [negb fst snd] in H. rewrite T in H. cbn [negb] in H.
  bind_inv H. bind_inv H. bind_inv H. bind_inv H. bind_inv H. bind_inv H.
  bind_inv H. bind_inv H. injection H as <-.
  apply Targets.dedupe_In. now left.
Qed.


(** X2.  In the revision with [resolveTargetSchemaPath],
    [getConnectableProperties] still compares schema paths directly.  A
    property it lists is accepted by [validateConnection] when the schema path
    of the target instance is a key of the catalog and the resolution of that
    path returns. *)
Theorem getConnectableProperties_accepted :
  forall (fuel : nat) (s t : string) (instances : InstanceMap) (schemas : catalog)
         (conns : list DataConnection) (props : list string)
         (ti : DataInstance) (resolved : list string) (p : string),
    getConnectableProperties s t instances schemas conns = Ret props ->
    instanceAt instances t = Some ti ->
    truthy (assoc (inst_schemaPath ti) schemas) = true ->
    resolveTargetSchemaPath fuel (inst_schemaPath ti) schemas = Ret resolved ->
    List.In p props ->
    validateConnection fuel s t p conns schemas (asMap instances) = Ret accepted.
Proof.
  intros fuel s t instances schemas conns props ti resolved p H Et T Z Hin.
  apply validateConnection_accepts. rewrite !asMap_lookup.
  unfold getConnectableProperties, getConnectionRulesForSchema in H. rewrite Et in H.
  destruct (instanceAt instances s) as [si|] eqn:Es; [|injection H as <-; destruct Hin].
  destruct (String.eqb s t) eqn:Est; [injection H as <-; destruct Hin|].
  destruct (truthy (assoc (inst_schemaPath si) schemas)) eqn:Ts; cbn [negb] in H;
    [|injection H as <-; destruct Hin].
  bind_inv H. rename a into rules, Ha into R. injection H as <-.
  apply in_map_iff in Hin. destruct Hin as (rule & <- & Hin).
  apply filter_In in Hin. destruct Hin as (Hin & V).
  apply andb_prop in V. destruct V as (V1 & V2). apply String.eqb_eq in V1.
  exists si, ti, rules, rule, resolved. repeat split; auto.
  - apply In_findRule; [|exact Hin]. eapply rules_distinct; eauto.
  - now rewrite V1.
  - apply existsb_exists. exists (inst_schemaPath ti).
    split; [eapply resolved_key; eauto|apply String.eqb_refl].
  - apply hasRoom_accepted. auto.
Qed.

Lemma pushOnce_In (vs : list string) (s x : string) :
  List.In x (pushOnce vs s) <-> List.In x vs \/ x = s.
Proof.
  unfold pushOnce. destruct (existsb (String.eqb s) vs) eqn:E.
  - split; [auto|]. intros [H|E0]; [exact H|subst x].
    apply existsb_exists in E. destruct E as (y & Hy & E).
    apply String.eqb_eq in E. now subst.
  - rewrite in_app_iff. simpl. intuition.
Qed.

Lemma pushOnce_NoDup (vs : list string) (s : string) :
  List.NoDup vs -> List.NoDup (pushOnce vs s).
Proof.
  unfold pushOnce. intros N. destruct (existsb (String.eqb s) vs) eqn:E; [exact N|].
  apply List.NoDup_app; [exact N|repeat constructor; intros []|].
  intros x Hx [E0|[]]. subst x.
  assert (X : existsb (String.eqb s) vs = true).
  { apply existsb_exists. exists s. split; [exact Hx|apply String.eqb_refl]. }
  congruence.
Qed.

Lemma scanRules_spec (fuel : nat) (schemas : catalog) (conns : list DataConnection)
  (tpath s t : string) (rules : list ConnectionRule) (vs vs' : list string) :
  scanRules fuel schemas conns tpath s t rules vs = Ret vs' ->
  (forall x, List.In x vs' <->
             List.In x vs \/ (x = s /\ Offers fuel schemas conns tpath s t rules)) /\
  (List.NoDup vs -> List.NoDup vs').
Proof.
  revert vs. induction rules as [|rule rest IH]; intros vs H; cbn [scanRules] in H.
  - injection H as <-. split; [|auto]. intros x. split; [auto|].
    intros [Hx|(_ & rule & resolved & [] & _)]. exact Hx.
  - bind_inv H. rename a into resolved, Ha into Z.
    apply IH in H. destruct H as (H & N). split.
    + intros x. rewrite H. clear H N. split.
      * intros [Hx|(-> & rule' & resolved' & Hin & Z' & E & V)].
        -- destruct (existsb (String.eqb tpath) resolved) eqn:E; [|auto].
           destruct (hasRoom rule s t conns) eqn:V; [|auto].
           apply pushOnce_In in Hx. destruct Hx as [Hx|Hx]; [auto|subst x].
           right. split; [reflexivity|]. exists rule, resolved. repeat split; auto.
           now left.
        -- right. split; [reflexivity|]. exists rule', resolved'. repeat split; auto.
           now right.
      * intros [Hx|(-> & rule' & resolved' & [<-|Hin] & Z' & E & V)].
        -- left. destruct (existsb (String.eqb tpath) resolved); [|exact Hx].
           destruct (hasRoom rule s t conns); [|exact Hx]. apply pushOnce_In. auto.
        -- rewrite Z in Z'. injection Z' as <-. rewrite E, V. left.
           apply pushOnce_In. auto.
        -- right. split; [reflexivity|]. exists rule', resolved'. auto.
    + intros N0. apply N.
      destruct (existsb (String.eqb tpath) resolved); [|exact N0].
      destruct (hasRoom rule s t conns); [|exact N0]. now apply pushOnce_NoDup.
Qed.

Lemma scanSources_spec (fuel : nat) (schemas : catalog) (conns : list DataConnection)
  (tpath t : string) (entries : InstanceMap) (vs vs' : list string) :
  scanSources fuel schemas conns tpath t entries vs = Ret vs' ->
  (forall x, List.In x vs' <->
             List.In x vs \/
             exists si rules,
               List.In (x, si) entries /\ String.eqb x t = false /\
               truthy (assoc (inst_schemaPath si) schemas) = true /\
               getSchemaConnectionRules (assoc (inst_schemaPath si) schemas)
                 (inst_schemaPath si) (Some schemas) = Ret rules /\
               Offers fuel schemas conns tpath x t rules) /\
  (List.NoDup vs -> List.NoDup vs').
Proof.
  revert vs. induction entries as [|[s si] rest IH]; intros vs H; cbn [scanSources] in H.
  - injection H as <-. split; [|auto]. intros x. split; [auto|].
    intros [Hx|(si & rules & [] & _)]. exact Hx.
  - destruct (String.eqb s t) eqn:Est.
    { apply IH in H. destruct H as (H & N). split; [|exact N].
      intros x. rewrite H. split.
      - intros [Hx|(si' & rules & Hin & R)]; [auto|].
        right. exists si', rules. split; [now right|exact R].
      - intros [Hx|(si' & rules & [E|Hin] & Ext & R)]; [auto| |].
        + injection E as <- <-. congruence.
        + right. exists si', rules. auto. }
    destruct (truthy (assoc (inst_schemaPath si) schemas)) eqn:T; cbn [negb] in H.
    2:{ apply IH in H. destruct H as (H & N). split; [|exact N].
        intros x. rewrite H. split.
        - intros [Hx|(si' & rules & Hin & R)]; [auto|].
          right. exists si', rules. split; [now right|exact R].
        - intros [Hx|(si' & rules & [E|Hin] & Ext & T' & R)]; [auto| |].
          + injection E as <- <-. congruence.
          + right. exists si', rules. auto. }
    unfold getConnectionRulesForSchema in H.
    bind_inv H. rename a into rules, Ha into R.
    bind_inv H. rename a into vs1, Ha into S1.
    apply scanRules_spec in S1. destruct S1 as (S1 & N1).
    apply IH in H. destruct H as (H & N). split; [|auto].
    intros x. rewrite H, S1. clear H N S1 N1. split.
    + intros [[Hx|(-> & O)]|(si' & rules' & Hin & R')]; [auto | |].
      * right. exists si, rules. repeat split; auto. now left.
      * right. exists si', rules'. split; [now right|exact R'].
    + intros [Hx|(si' & rules' & [E|Hin] & Ext & T' & R' & O)]; [auto| |].
      * injection E as <- <-. rewrite R in R'. injection R' as <-. auto.
      * right. exists si', rules'. auto.
Qed.

(** The sources [getValidSources] offers are the instances with a property
    on which [validateConnection] accepts the connection; none is listed
    twice: the revision with [resolveTargetSchemaPath]. *)
Lemma valid_sources_resolved :
  forall (fuel : nat) (t : string) (instances : InstanceMap) (schemas : catalog)
         (conns : list DataConnection) (sources : list string),
    List.NoDup (map fst instances) ->
    getValidSources fuel t instances schemas conns = Ret sources ->
    List.NoDup sources /\
    forall s,
      List.In s sources <->
      exists p,
        validateConnection fuel s t p conns schemas (asMap instances) = Ret accepted.
Proof.
  intros fuel t instances schemas conns sources N H.
  unfold getValidSources in H.
  destruct (instanceAt instances t) as [ti|] eqn:Et.
  2:{ injection H as <-. split; [constructor|]. intros s. split; [intros []|].
      intros (p & V). apply validateConnection_accepts in V.
      destruct V as (si & ti & rules & rule & resolved & _ & X & _).
      rewrite asMap_lookup in X. congruence. }
  apply scanSources_spec in H. destruct H as (H & ND).
  split; [apply ND; constructor|].
  intros s. rewrite H. clear H ND. split.
  - intros [[]|(si & rules & Hin & Est & T & R & rule & resolved & Hr & Z & E & V)].
    exists (propertyPath rule). apply validateConnection_accepts.
    exists si, ti, rules, rule, resolved. rewrite !asMap_lookup.
    rewrite (In_instanceAt _ _ _ N Hin). repeat split; auto.
    + apply In_findRule; [|exact Hr]. eapply rules_distinct; eauto.
    + apply hasRoom_accepted. auto.
  - intros (p & V). apply validateConnection_accepts in V.
    destruct V as (si & ti' & rules & rule & resolved & X & Y & T & R & F & Z & E & C).
    rewrite asMap_lookup in X, Y. rewrite Et in Y. injection Y as <-.
    apply findRule_In in F. destruct F as (Hr & <-).
    apply hasRoom_accepted in C. destruct C as (V & Est).
    right. exists si, rules. repeat split; auto; [now apply instanceAt_In|].
    exists rule, resolved. auto.
Qed.


Lemma scanRulesExact_spec (conns : list DataConnection)
  (tpath s t : string) (rules : list ConnectionRule) (vs : list string) :
  (forall x, List.In x (ConnectionQueriesExact.scanRules conns tpath s t rules vs) <->
             List.In x vs \/ (x = s /\ OffersExact conns tpath s t rules)) /\
  (List.NoDup vs ->
   List.NoDup (ConnectionQueriesExact.scanRules conns tpath s t rules vs)).
Proof.
  unfold ConnectionQueriesExact.scanRules, OffersExact.
  revert vs. induction rules as [|rule rest IH]; intros vs; cbn [fold_left].
  - split; [|auto]. intros x. split; [auto|].
    intros [Hx|(_ & rule & [] & _)]. exact Hx.
  - match goal with
    | |- context [fold_left _ rest ?v] => destruct (IH v) as (H & N)
    end.
    split.
    + intros x. rewrite H. clear H N. split.
      * intros [Hx|(-> & rule' & Hin & E & V)].
        -- destruct (String.eqb_spec (targetSchemaPath rule) tpath) as [E|]; [|auto].
           destruct (hasRoom rule s t conns) eqn:V; [|auto].
           apply pushOnce_In in Hx. destruct Hx as [Hx|Hx]; [auto|subst x].
           right. split; [reflexivity|]. exists rule. repeat split; auto. now left.
        -- right. split; [reflexivity|]. exists rule'. repeat split; auto. now right.
      * intros [Hx|(-> & rule' & [<-|Hin] & E & V)].
        -- left. destruct (String.eqb (targetSchemaPath rule) tpath); [|exact Hx].
           destruct (hasRoom rule s t conns); [|exact Hx]. apply pushOnce_In. auto.
        -- rewrite E, String.eqb_refl, V. left. apply pushOnce_In. auto.
        -- right. split; [reflexivity|]. exists rule'. auto.
    + intros N0. apply N.
      destruct (String.eqb (targetSchemaPath rule) tpath); [|exact N0].
      destruct (hasRoom rule s t conns); [|exact N0]. now apply pushOnce_NoDup.
Qed.

Lemma scanSourcesExact_spec (schemas : catalog) (conns : list DataConnection)
  (tpath t : string) (entries : InstanceMap) (vs vs' : list string) :
  ConnectionQueriesExact.scanSources schemas conns tpath t entries vs = Ret vs' ->
  (forall x, List.In x vs' <->
             List.In x vs \/
             exists si rules,
               List.In (x, si) entries /\ String.eqb x t = false /\
               truthy (assoc (inst_schemaPath si) schemas) = true /\
               getSchemaConnectionRules (assoc (inst_schemaPath si) schemas)
                 (inst_schemaPath si) None = Ret rules /\
               OffersExact conns tpath x t rules) /\
  (List.NoDup vs -> List.NoDup vs').
Proof.
  revert vs. induction entries as [|[s si] rest IH]; intros vs H;
    cbn [ConnectionQueriesExact.scanSources] in H.
  - injection H as <-. split; [|auto]. intros x. split; [auto|].
    intros [Hx|(si & rules & [] & _)]. exact Hx.
  - destruct (String.eqb s t) eqn:Est.
    { apply IH in H. destruct H as (H & N). split; [|exact N].
      intros x. rewrite H. split.
      - intros [Hx|(si' & rules & Hin & R)]; [auto|].
        right. exists si', rules. split; [now right|exact R].
      - intros [Hx|(si' & rules & [E|Hin] & Ext & R)]; [auto| |].
        + injection E as <- <-. congruence.
        + right. exists si', rules. auto. }
    destruct (truthy (assoc (inst_schemaPath si) schemas)) eqn:T; cbn [negb] in H.
    2:{ apply IH in H. destruct H as (H & N). split; [|exact N].
        intros x. rewrite H. split.
        - intros [Hx|(si' & rules & Hin & R)]; [auto|].
          right. exists si', rules. split; [now right|exact R].
        - intros [Hx|(si' & rules & [E|Hin] & Ext & T' & R)]; [auto| |].
          + injection E as <- <-. congruence.
          + right. exists si', rules. auto. }
    bind_inv H. rename a into rules, Ha into R.
    destruct (scanRulesExact_spec conns tpath s t rules vs) as (S1 & N1).
    apply IH in H. destruct H as (H & N). split; [|auto].
    intros x. rewrite H, S1. clear H N S1 N1. split.
    + intros [[Hx|(-> & O)]|(si' & rules' & Hin & R')]; [auto | |].
      * right. exists si, rules. repeat split; auto. now left.
      * right. exists si', rules'. split; [now right|exact R'].
    + intros [Hx|(si' & rules' & [E|Hin] & Ext & T' & R' & O)]; [auto| |].
      * injection E as <- <-. rewrite R in R'. injection R' as <-. auto.
      * right. exists si', rules'. auto.
Qed.

Lemma valid_sources_exact :
  forall (t : string) (instances : InstanceMap) (schemas : catalog)
         (conns : list DataConnection) (sources : list string),
    List.NoDup (map fst instances) ->
    ConnectionQueriesExact.getValidSources t instances schemas conns = Ret sources ->
    List.NoDup sources /\
    forall s,
      List.In s sources <->
      exists p,
        ConnectionValidatorExact.validateConnection s t p conns schemas (asMap instances)
          = Ret accepted.
Proof.
  intros t instances schemas conns sources N H.
  unfold ConnectionQueriesExact.getValidSources in H.
  destruct (instanceAt instances t) as [ti|] eqn:Et.
  2:{ injection H as <-. split; [constructor|]. intros s. split; [intros []|].
      intros (p & V). apply validateConnectionExact_accepts in V.
      destruct V as (si & ti & rules & rule & _ & X & _).
      rewrite asMap_lookup in X. congruence. }
  apply scanSourcesExact_spec in H. destruct H as (H & ND).
  split; [apply ND; constructor|].
  intros s. rewrite H. clear H ND. split.
  - intros [[]|(si & rules & Hin & Est & T & R & rule & Hr & E & V)].
    exists (propertyPath rule). apply validateConnectionExact_accepts.
    exists si, ti, rules, rule. rewrite !asMap_lookup.
    rewrite (In_instanceAt _ _ _ N Hin). repeat split; auto.
    + apply In_findRule; [|exact Hr]. eapply rules_distinct; eauto.
    + apply hasRoom_accepted. auto.
  - intros (p & V). apply validateConnectionExact_accepts in V.
    destruct V as (si & ti' & rules & rule & X & Y & T & R & F & E & C).
    rewrite asMap_lookup in X, Y. rewrite Et in Y. injection Y as <-.
    apply findRule_In in F. destruct F as (Hr & <-).
    apply hasRoom_accepted in C. destruct C as (V & Est).
    right. exists si, rules. repeat split; auto; [now apply instanceAt_In|].
    exists rule. auto.
Qed.

Lemma findM_None {A} (f : A -> outcome bool) (xs : list A) :
  findM f xs = Ret None -> forall x, List.In x xs -> f x = Ret false.
Proof.
  induction xs as [|y xs IH]; cbn [findM]; intros H x Hin; [destruct Hin|].
  bind_inv H. destruct a; [discriminate H|].
  destruct Hin as [<-|Hin]; [exact Ha|]. now apply IH.
Qed.

Lemma findM_Some {A} (f : A -> outcome bool) (xs : list A) (x : A) :
  findM f xs = Ret (Some x) -> List.In x xs /\ f x = Ret true.
Proof.
  induction xs as [|y xs IH]; cbn [findM]; intros H; [discriminate H|].
  bind_inv H. destruct a.
  - injection H as <-. split; [now left|exact Ha].
  - apply IH in H. destruct H as (Hin & Hf). split; [now right|exact Hf].
Qed.

(** [canConnect] agrees with an accepted connection: the revision with
    [resolveTargetSchemaPath], where the search may stop at an earlier rule
    or fail on one. *)
Lemma canConnect_resolved (fuel : nat) (s t p : string) (conns : list DataConnection)
  (schemas : catalog) (instances : gmap string DataInstance)
  (si ti : DataInstance) (r : ConnectionValidation) :
  instances !! s = Some si -> instances !! t = Some ti ->
  validateConnection fuel s t p conns schemas instances = Ret accepted ->
  canConnect fuel (inst_schemaPath si) (inst_schemaPath ti) schemas = Ret r ->
  cv_valid r = true /\
  exists rules rule,
    getSchemaConnectionRules (assoc (inst_schemaPath si) schemas) (inst_schemaPath si)
      (Some schemas) = Ret rules /\
    List.In rule rules /\
    cv_propertyPath r = Some (propertyPath rule) /\
    cv_cardinality r = Some (cardinality rule).
Proof.
  intros Es Et V H. apply validateConnection_accepts in V.
  destruct V as (si' & ti' & rules & rule & resolved & X & Y & T & R & F & Z & E & C).
  rewrite Es in X. injection X as <-. rewrite Et in Y. injection Y as <-.
  unfold canConnect, getConnectionRulesForSchema in H. rewrite T, R in H.
  cbn [negb bind] in H. bind_inv H. destruct a as [found|].
  - injection H as <-. split; [reflexivity|].
    apply findM_Some in Ha. destruct Ha as (Hin & _).
    exists rules, found. auto.
  - exfalso. apply findRule_In in F. destruct F as (Hin & _).
    pose proof (findM_None _ _ Ha rule Hin) as Hf. cbn beta in Hf.
    destruct (String.eqb (targetSchemaPath rule) (inst_schemaPath ti)); [discriminate Hf|].
    rewrite Z in Hf. cbn [bind] in Hf. rewrite E in Hf. discriminate Hf.
Qed.

(** The same for the revision under src/utils, where [canConnect] always
    returns once the rules are extracted. *)
Lemma canConnect_exact (s t p : string) (conns : list DataConnection)
  (schemas : catalog) (instances : gmap string DataInstance)
  (si ti : DataInstance) :
  instances !! s = Some si -> instances !! t = Some ti ->
  ConnectionValidatorExact.validateConnection s t p conns schemas instances = Ret accepted ->
  exists rules rule,
    getSchemaConnectionRules (assoc (inst_schemaPath si) schemas) (inst_schemaPath si)
      None = Ret rules /\
    List.In rule rules /\
    targetSchemaPath rule = inst_schemaPath ti /\
    ConnectionQueriesExact.canConnect (inst_schemaPath si) (inst_schemaPath ti) schemas =
    Ret {| cv_valid := true; cv_propertyPath := Some (propertyPath rule);
           cv_cardinality := Some (cardinality rule); cv_reason := None |}.
Proof.
  intros Es Et V. apply validateConnectionExact_accepts in V.
  destruct V as (si' & ti' & rules & rule & X & Y & T & R & F & E & C).
  rewrite Es in X. injection X as <-. rewrite Et in Y. injection Y as <-.
  unfold ConnectionQueriesExact.canConnect. rewrite T, R. cbn [negb bind].
  apply findRule_In in F. destruct F as (Hin & _).
  destruct (List.find _ rules) as [found|] eqn:Ef.
  - apply find_some in Ef. destruct Ef as (Hf & Ef). apply String.eqb_eq in Ef.
    exists rules, found. auto.
  - exfalso. pose proof (find_none _ _ Ef rule Hin) as Hn. cbn beta in Hn.
    rewrite E, String.eqb_refl in Hn. discriminate Hn.
Qed.


Lemma userEntries_distinct : List.NoDup (map fst userEntries).
Proof.
  apply NoDup_ListNoDup. apply (bool_decide_unpack _). vm_compute. reflexivity.
Qed.

(** X3.  The targets [getValidTargets] offers for a property of a source
    instance are the instances [validateConnection] accepts for it, no more
    and no fewer, in either revision of the validator. *)
Theorem getValidTargets_accepted :
  forall (s p : string) (instances : InstanceMap) (schemas : catalog)
         (conns : list DataConnection),
    List.NoDup (map fst instances) ->
    (forall fuel targets,
        getValidTargets fuel s p instances schemas conns = Ret targets ->
        forall t,
          List.In t targets <->
          validateConnection fuel s t p conns schemas (asMap instances) = Ret accepted) /\
    (forall targets,
        ConnectionQueriesExact.getValidTargets s p instances schemas conns = Ret targets ->
        forall t,
          List.In t targets <->
          ConnectionValidatorExact.validateConnection s t p conns schemas (asMap instances)
            = Ret accepted).
Proof.
  intros s p instances schemas conns N. split.
  - intros fuel targets. now apply valid_targets_resolved.
  - intros targets. now apply valid_targets_exact.
Qed.

(** The user of the sample catalog: both addresses are offered for
    [address], and connecting the first is accepted; once it is connected no
    target is offered. *)
Lemma getValidTargets_accepted_witness :
  List.NoDup (map fst userEntries) /\
  getValidTargets 3 "user-1" "address" userEntries userCatalog [] =
    Ret ["address-1"; "address-2"] /\
  validateConnection 3 "user-1" "address-1" "address" [] userCatalog (asMap userEntries)
    = Ret accepted /\
  getValidTargets 3 "user-1" "address" userEntries userCatalog
    [connection "user-1" "address-1" "address"] = Ret [].
Proof.
  assert (E : getValidTargets 3 "user-1" "address" userEntries userCatalog [] =
              Ret ["address-1"; "address-2"]) by (vm_compute; reflexivity).
  split; [exact userEntries_distinct|]. split; [exact E|]. split.
  - apply (proj1 (getValidTargets_accepted "user-1" "address" userEntries userCatalog []
                    userEntries_distinct) 3 _ E "address-1").
    simpl. auto.
  - vm_compute. reflexivity.
Defined.

Lemma getConnectableProperties_exact_accepted_witness :
  ConnectionQueriesExact.getConnectableProperties "user-1" "address-2" userEntries
    userCatalog [] = Ret ["address"] /\
  ConnectionValidatorExact.validateConnection "user-1" "address-2" "address" []
    userCatalog (asMap userEntries) = Ret accepted.
Proof.
  assert (E : ConnectionQueriesExact.getConnectableProperties "user-1" "address-2"
                userEntries userCatalog [] = Ret ["address"]) by (vm_compute; reflexivity).
  split; [exact E|].
  apply (getConnectableProperties_exact_accepted _ _ _ _ _ _ E "address").
  simpl. auto.
Defined.

Lemma getConnectableProperties_accepted_witness :
  getConnectableProperties "user-1" "address-2" userEntries userCatalog [] =
    Ret ["address"] /\
  validateConnection 3 "user-1" "address-2" "address" [] userCatalog (asMap userEntries)
    = Ret accepted.
Proof.
  assert (E : getConnectableProperties "user-1" "address-2" userEntries userCatalog [] =
              Ret ["address"]) by (vm_compute; reflexivity).
  split; [exact E|].
  apply (getConnectableProperties_accepted 3 "user-1" "address-2" userEntries userCatalog []
           ["address"] (instanceOf "address-2" "v1/user/address.schema.json")
           ["v1/user/address.schema.json"] "address" E).
  - vm_compute. reflexivity.
  - vm_compute. reflexivity.
  - vm_compute. reflexivity.
  - simpl. auto.
Defined.

(** X4.  The sources [getValidSources] offers for a target instance are
    the instances that have a property on which [validateConnection] accepts
    the connection to that target, and none is listed twice; in either
    revision of the validator. *)
Theorem getValidSources_accepted :
  forall (t : string) (instances : InstanceMap) (schemas : catalog)
         (conns : list DataConnection),
    List.NoDup (map fst instances) ->
    (forall fuel sources,
        getValidSources fuel t instances schemas conns = Ret sources ->
        List.NoDup sources /\
        forall s,
          List.In s sources <->
          exists p,
            validateConnection fuel s t p conns schemas (asMap instances) = Ret accepted) /\
    (forall sources,
        ConnectionQueriesExact.getValidSources t instances schemas conns = Ret sources ->
        List.NoDup sources /\
        forall s,
          List.In s sources <->
          exists p,
            ConnectionValidatorExact.validateConnection s t p conns schemas
              (asMap instances) = Ret accepted).
Proof.
  intros t instances schemas conns N. split.
  - intros fuel sources. now apply valid_sources_resolved.
  - intros sources. now apply valid_sources_exact.
Qed.

(** The role of the sample catalog: the user is its one source, through the
    array wrapper of [roles]. *)
Lemma getValidSources_accepted_witness :
  List.NoDup (map fst userEntries) /\
  getValidSources 3 "role-1" userEntries userCatalog [] = Ret ["user-1"] /\
  exists p,
    validateConnection 3 "user-1" "role-1" p [] userCatalog (asMap userEntries)
      = Ret accepted.
Proof.
  assert (E : getValidSources 3 "role-1" userEntries userCatalog [] = Ret ["user-1"])
    by (vm_compute; reflexivity).
  split; [exact userEntries_distinct|]. split; [exact E|].
  apply (proj2 (proj1 (getValidSources_accepted "role-1" userEntries userCatalog []
                         userEntries_distinct) 3 _ E) "user-1").
  simpl. auto.
Defined.

(** X5.  A connection [validateConnection] accepts is one [canConnect]
    allows between the two schemas.  In the revision under src/utils
    [canConnect] returns [valid: true] with a rule that targets the schema of
    the target instance; in the revision with [resolveTargetSchemaPath] it
    answers [valid: true], with a rule of the source schema, whenever it
    returns. *)
Theorem canConnect_accepted :
  forall (s t p : string) (conns : list DataConnection) (schemas : catalog)
         (instances : gmap string DataInstance) (si ti : DataInstance),
    instances !! s = Some si -> instances !! t = Some ti ->
    (ConnectionValidatorExact.validateConnection s t p conns schemas instances
       = Ret accepted ->
     exists rules rule,
       getSchemaConnectionRules (assoc (inst_schemaPath si) schemas) (inst_schemaPath si)
         None = Ret rules /\
       List.In rule rules /\
       targetSchemaPath rule = inst_schemaPath ti /\
       ConnectionQueriesExact.canConnect (inst_schemaPath si) (inst_schemaPath ti) schemas =
       Ret {| cv_valid := true; cv_propertyPath := Some (propertyPath rule);
              cv_cardinality := Some (cardinality rule); cv_reason := None |}) /\
    (forall fuel r,
        validateConnection fuel s t p conns schemas instances = Ret accepted ->
        canConnect fuel (inst_schemaPath si) (inst_schemaPath ti) schemas = Ret r ->
        cv_valid r = true /\
        exists rules rule,
          getSchemaConnectionRules (assoc (inst_schemaPath si) schemas) (inst_schemaPath si)
            (Some schemas) = Ret rules /\
          List.In rule rules /\
          cv_propertyPath r = Some (propertyPath rule) /\
          cv_cardinality r = Some (cardinality rule)).
Proof.
  intros s t p conns schemas instances si ti Es Et. split.
  - intros V. eapply canConnect_exact; eauto.
  - intros fuel r V H. eapply canConnect_resolved; eauto.
Qed.

Lemma canConnect_accepted_witness :
  ConnectionValidatorExact.validateConnection "user-1" "address-1" "address" []
    userCatalog (asMap userEntries) = Ret accepted /\
  exists rules rule,
    getSchemaConnectionRules (assoc "v1/user/user.schema.json" userCatalog)
      "v1/user/user.schema.json" None = Ret rules /\
    List.In rule rules /\
    targetSchemaPath rule = "v1/user/address.schema.json" /\
    ConnectionQueriesExact.canConnect "v1/user/user.schema.json"
      "v1/user/address.schema.json" userCatalog =
    Ret {| cv_valid := true; cv_propertyPath := Some (propertyPath rule);
           cv_cardinality := Some (cardinality rule); cv_reason := None |}.
Proof.
  assert (V : ConnectionValidatorExact.validateConnection "user-1" "address-1" "address" []
                userCatalog (asMap userEntries) = Ret accepted) by (vm_compute; reflexivity).
  split; [exact V|].
  apply (proj1 (canConnect_accepted "user-1" "address-1" "address" [] userCatalog
                  (asMap userEntries)
                  (instanceOf "user-1" "v1/user/user.schema.json")
                  (instanceOf "address-1" "v1/user/address.schema.json")
                  ltac:(vm_compute; reflexivity) ltac:(vm_compute; reflexivity)) V).
Defined.

(** X6.  The rules [getSchemaConnectionRules] returns for a schema have
    pairwise distinct property paths, each the name of one of the schema's
    effective properties; so the lookup of a rule by its property path, as the
    validator and the canvas do it, finds that very rule. *)
Theorem connection_rules_distinct :
  forall (schema : value) (schemaPath : string) (schemas : option catalog)
         (rules : list ConnectionRule),
    getSchemaConnectionRules schema schemaPath schemas = Ret rules ->
    List.NoDup (map propertyPath rules) /\
    (forall rule, List.In rule rules -> findRule rules (propertyPath rule) = Some rule) /\
    (exists props,
        getSchemaProperties schema = Ret props /\
        forall rule, List.In rule rules -> List.In (propertyPath rule) (map fst props)).
Proof.
  intros schema schemaPath schemas rules H.
  pose proof (rules_distinct _ _ _ _ H) as N.
  split; [exact N|]. split; [intros rule; now apply In_findRule|].
  unfold getSchemaConnectionRules in H. bind_inv H. bind_inv H.
  exists a0. split; [exact Ha0|].
  eapply collect_paths; [|exact H].
  intros [k v] rs. apply processProperty_paths.
Qed.

Lemma connection_rules_distinct_witness :
  getSchemaConnectionRules (Some userSchema) "v1/user/user.schema.json" (Some userCatalog) =
    Ret [ mkRule "roles" "v1/user/roles.schema.json" many [JStr "name"; JStr "roles"];
          mkRule "address" "v1/user/address.schema.json" one [JStr "name"; JStr "roles"] ] /\
  List.NoDup (map propertyPath
                [ mkRule "roles" "v1/user/roles.schema.json" many [JStr "name"; JStr "roles"];
                  mkRule "address" "v1/user/address.schema.json" one
                    [JStr "name"; JStr "roles"] ]).
Proof.
  assert (E : getSchemaConnectionRules (Some userSchema) "v1/user/user.schema.json"
                (Some userCatalog) =
              Ret [ mkRule "roles" "v1/user/roles.schema.json" many
                      [JStr "name"; JStr "roles"];
                    mkRule "address" "v1/user/address.schema.json" one
                      [JStr "name"; JStr "roles"] ]) by (vm_compute; reflexivity).
  split; [exact E|].
  apply (proj1 (connection_rules_distinct _ _ _ _ E)).
Defined.

End QueryFacts.

(** ** Restoring the instance counters *)
Module CounterFacts.
Import JS BuilderTypes BuilderStorage BuilderPersistence.
Import StringFacts Naming OutcomeFacts Samples MoreSamples.

Lemma dashSplits_no_dash (d : string) :
  ~ List.In "-"%char (chars d) -> dashSplits d = [].
Proof.
  induction d as [|a d IH]; simpl; intros H; [reflexivity|].
  rewrite IH by (intros Hin; apply H; now right). simpl.
  destruct (Ascii.eqb_spec a "-") as [->|]; [|reflexivity].
  exfalso. apply H. now left.
Qed.

(** The first cut of a stem, a dash and a number is the one at that dash. *)
Lemma dashSplits_stem (b d : string) :
  ~ List.In "-"%char (chars d) ->
  exists rest, dashSplits (b +:+ "-" +:+ d) = (b, d) :: rest.
Proof.
  intros H. induction b as [|a b (rest & IH)]; unfold_append.
  - cbn [dashSplits]. rewrite dashSplits_no_dash by exact H. simpl. eauto.
  - cbn [dashSplits]. rewrite IH. simpl. eauto.
Qed.

Lemma string_of_uint_digits (d : Decimal.uint) :
  allChars isDigit (NilEmpty.string_of_uint d) = true.
Proof. induction d; simpl; auto. Qed.

Lemma numberToString_digits (n : N) :
  allChars isDigit (numberToString n) = true /\ numberToString n <> "".
Proof.
  unfold numberToString. pose proof (N_to_uint_nonnil n) as H.
  destruct (N.to_uint n) eqn:E; try contradiction; simpl;
    (split; [apply string_of_uint_digits|discriminate]).
Qed.

Lemma parseInt10_numberToString (n : N) : parseInt10 (numberToString n) = n.
Proof.
  unfold parseInt10, numberToString.
  rewrite NilZero.usu by apply N_to_uint_nonnil.
  apply DecimalN.Unsigned.of_to.
Qed.

(** The pattern reads an identifier made of a readable stem and a counter
    back into the two. *)
Lemma matchInstanceId_generated (b : string) (n : N) :
  readableStem b = true ->
  matchInstanceId (b +:+ "-" +:+ numberToString n) = Some (b, numberToString n).
Proof.
  intros R. unfold matchInstanceId.
  destruct (dashSplits_stem b (numberToString n) (numberToString_no_dash n)) as (rest & ->).
  cbn [List.find fst snd]. unfold readableStem in R. apply andb_prop in R.
  destruct R as (R & _). rewrite R.
  destruct (numberToString_digits n) as (D & Hne). rewrite D.
  destruct (String.eqb_spec (numberToString n) ""); [contradiction|]. reflexivity.
Qed.

(** A round of the extraction never lowers a counter, and records the
    counter of the node it reads. *)
Lemma countNode_keeps (c c' : gmap string N) (node : json) (b : string) (k : N) :
  countNode c node = Ret c' -> c !! b = Some k ->
  exists k', c' !! b = Some k' /\ (k <= k')%N.
Proof.
  unfold countNode. intros H Hb. bind_inv H. bind_inv H.
  destruct a0 as [[| | |id| |]|]; try discriminate H.
  destruct (matchInstanceId id) as [[b0 digits]|];
    [|injection H as <-; exists k; split; [exact Hb|lia]].
  destruct (inherits b0); [injection H as <-; exists k; split; [exact Hb|lia]|].
  injection H as <-.
  destruct (decide (b0 = b)) as [->|Hne].
  - rewrite Hb. destruct (N.eqb_spec k 0) as [->|Hk]; cbn [orb].
    + rewrite lookup_insert_eq. eexists. split; [reflexivity|lia].
    + destruct (N.ltb_spec k (parseInt10 digits)).
      * rewrite lookup_insert_eq. eexists. split; [reflexivity|lia].
      * exists k. split; [exact Hb|lia].
  - destruct (c !! b0) as [known|].
    + destruct (N.eqb known 0 || N.ltb known (parseInt10 digits)).
      * rewrite lookup_insert_ne by exact Hne. exists k. split; [exact Hb|lia].
      * exists k. split; [exact Hb|lia].
    + rewrite lookup_insert_ne by exact Hne. exists k. split; [exact Hb|lia].
Qed.

Lemma countNode_records (c c' : gmap string N) (node : json) (id b digits : string) :
  countNode c node = Ret c' ->
  getq (getq (Some node) "data") "instanceId" = Some (JStr id) ->
  matchInstanceId id = Some (b, digits) -> inherits b = false ->
  exists k', c' !! b = Some k' /\ (parseInt10 digits <= k')%N.
Proof.
  unfold countNode. intros H Hid M I. bind_inv H. bind_inv H.
  apply get_getq in Ha. apply get_getq in Ha0. subst a a0. rewrite Hid, M, I in H.
  injection H as <-.
  destruct (c !! b) as [known|] eqn:Hb.
  - destruct (N.eqb_spec known 0) as [->|Hk]; cbn [orb].
    + rewrite lookup_insert_eq. eexists. split; [reflexivity|lia].
    + destruct (N.ltb_spec known (parseInt10 digits)).
      * rewrite lookup_insert_eq. eexists. split; [reflexivity|lia].
      * exists known. split; [exact Hb|lia].
  - rewrite lookup_insert_eq. eexists. split; [reflexivity|lia].
Qed.

Lemma countNodes_keeps (nodes : list json) (c c' : gmap string N) (b : string) (k : N) :
  countNodes c nodes = Ret c' -> c !! b = Some k ->
  exists k', c' !! b = Some k' /\ (k <= k')%N.
Proof.
  revert c k. induction nodes as [|node rest IH]; intros c k H Hb; cbn [countNodes] in H.
  - injection H as <-. exists k. split; [exact Hb|lia].
  - bind_inv H. destruct (countNode_keeps _ _ _ _ _ Ha Hb) as (k1 & H1 & L1).
    destruct (IH _ _ H H1) as (k2 & H2 & L2). exists k2. split; [exact H2|lia].
Qed.

Lemma countNodes_records (nodes : list json) (c c' : gmap string N)
  (node : json) (id b digits : string) :
  countNodes c nodes = Ret c' -> List.In node nodes ->
  getq (getq (Some node) "data") "instanceId" = Some (JStr id) ->
  matchInstanceId id = Some (b, digits) -> inherits b = false ->
  exists k', c' !! b = Some k' /\ (parseInt10 digits <= k')%N.
Proof.
  revert c. induction nodes as [|n rest IH]; intros c H Hin Hid M I; [destruct Hin|].
  cbn [countNodes] in H. bind_inv H. destruct Hin as [->|Hin].
  - destruct (countNode_records _ _ _ _ _ _ Ha Hid M I) as (k1 & H1 & L1).
    destruct (countNodes_keeps _ _ _ _ _ H H1) as (k2 & H2 & L2).
    exists k2. split; [exact H2|lia].
  - eapply IH; eauto.
Qed.

(** Setting the counters of pairwise distinct names, in any order, leaves
    each of them at the value set. *)
Lemma set_counters_lookup (entries : list (string * N)) (cs : gmap string N)
  (b : string) (k : N) :
  List.NoDup (map fst entries) -> List.In (b, k) entries ->
  fold_left (fun st kv => setInstanceCounter (fst kv) (snd kv) st) entries cs !! b = Some k.
Proof.
  revert cs. induction entries as [|[b0 k0] rest IH]; intros cs ND Hin; [destruct Hin|].
  inversion ND as [|? ? Hnin ND']; subst. cbn [fold_left fst snd].
  destruct Hin as [E|Hin]; [|now apply IH].
  injection E as -> ->.
  assert (G : forall l (m : gmap string N),
             ~ List.In b (map fst l) -> m !! b = Some k ->
             fold_left (fun st kv => setInstanceCounter (fst kv) (snd kv) st) l m !! b
             = Some k).
  { induction l as [|[b1 k1] l IHl]; intros m Hn Hm; [exact Hm|].
    cbn [fold_left fst snd]. apply IHl; [intros X; apply Hn; now right|].
    unfold setInstanceCounter. rewrite lookup_insert_ne; [exact Hm|].
    intros ->. apply Hn. now left. }
  apply G; [exact Hnin|]. unfold setInstanceCounter. apply lookup_insert_eq.
Qed.

Lemma restore_lookup (nodes : list json) (cs cs' counters : gmap string N)
  (b : string) (k : N) :
  extractCounterState nodes = Ret counters ->
  restoreInstanceCounters nodes setInstanceCounter cs = Ret cs' ->
  counters !! b = Some k -> cs' !! b = Some k.
Proof.
  unfold restoreInstanceCounters. intros E H Hb. rewrite E in H. cbn [bind] in H.
  injection H as <-. apply set_counters_lookup.
  - pose proof (NoDup_fst_map_to_list counters) as ND. apply NoDup_ListNoDup in ND.
    replace (map fst (map_to_list counters)) with ((map_to_list counters).*1); [exact ND|].
    generalize (map_to_list counters). intros l. induction l as [|x l IHl];
      [reflexivity|cbn; f_equal; auto].
  - apply list_elem_of_In. now apply elem_of_map_to_list.
Qed.

(** Every identifier of a run carries the stem of one of its paths and a
    number above the counter of that stem at the start. *)
Lemma generateAll_stems (paths : list string) (cs : gmap string N) (i : string) :
  List.In i (fst (generateAll paths cs)) ->
  exists p n, List.In p paths /\
              i = baseNameOf p +:+ "-" +:+ numberToString n /\
              (countOf cs (baseNameOf p) < n)%N.
Proof.
  revert cs. induction paths as [|p rest IH]; intros cs Hin.
  - destruct Hin.
  - rewrite generateAll_cons in Hin. simpl in Hin. destruct Hin as [<-|Hin].
    + exists p, (countOf cs (baseNameOf p) + 1)%N.
      split; [now left|]. split; [reflexivity|lia].
    + destruct (IH _ Hin) as (q & n & Hq & -> & Hlt).
      exists q, n. split; [now right|]. split; [reflexivity|].
      eapply N.le_lt_trans; [|exact Hlt]. apply countOf_after.
Qed.



End CounterFacts.

(** ** Saving and loading the canvas *)
Module PersistenceFacts.
Import JS BuilderTypes DataModelExport BuilderStorage BuilderPersistence.
Import OutcomeFacts Samples MoreSamples.

Lemma truthy_nonEmpty (s : string) :
  truthy (Some (JStr s)) = SchemaRelationships.nonEmpty s.
Proof. reflexivity. Qed.

Lemma nodeOk_serialized (n : FlowNode) (j : json) :
  serializeNode n = Ret j -> nodeOk j = Ret (nodeLoads n).
Proof.
  unfold serializeNode, nodeLoads. destruct (node_data (fn_node n)) as [d|]; [|discriminate].
  intros H. injection H as <-. unfold nodeOk. cbn.
  unfold SchemaRelationships.nonEmpty.
  now rewrite andb_true_r, andb_assoc.
Qed.

Lemma edgeOk_serialized (e : FlowEdge) : edgeOk (serializeEdge e) = Ret (edgeLoads e).
Proof. reflexivity. Qed.

Lemma every_nodes (nodes : list FlowNode) (js : list json) :
  serializeNodes nodes = Ret js -> every nodeOk js = Ret (forallb nodeLoads nodes).
Proof.
  revert js. induction nodes as [|n rest IH]; intros js H; cbn [serializeNodes] in H.
  - injection H as <-. reflexivity.
  - bind_inv H. bind_inv H. injection H as <-.
    cbn [every forallb]. rewrite (nodeOk_serialized _ _ Ha). cbn [bind].
    destruct (nodeLoads n); [now apply IH|reflexivity].
Qed.

Lemma every_edges (edges : list FlowEdge) :
  every edgeOk (map serializeEdge edges) = Ret (forallb edgeLoads edges).
Proof.
  induction edges as [|e rest IH]; [reflexivity|].
  cbn [map every forallb]. rewrite edgeOk_serialized. cbn [bind].
  destruct (edgeLoads e); [exact IH|reflexivity].
Qed.

Section RoundTrip.
Variable JSON_stringify : json -> string.
Variable JSON_parse : string -> option json.

(** X8.  What [loadBuilderState] returns after [saveBuilderState], for a
    [JSON.parse] that reads the text of [JSON.stringify] back into the state
    it was made from.  When every node has a non-empty [id], schema path and
    instance identifier and every edge a non-empty [id], [source] and
    [target], the load returns the saved state and leaves the storage as the
    save left it; otherwise it returns [null] and the save is removed from the
    storage. *)
Theorem save_then_load :
  forall (lastSaved : string) (nodes : list FlowNode) (edges : list FlowEdge)
         (localStorage : gmap string string) (state : json),
    builderState lastSaved nodes edges = Ret state ->
    JSON_parse (JSON_stringify state) = Some state ->
    JSON_stringify state <> "" ->
    loadBuilderState JSON_parse
      (saveBuilderState JSON_stringify lastSaved nodes edges localStorage) =
    if forallb nodeLoads nodes && forallb edgeLoads edges
    then (Some state, <[STORAGE_KEY := JSON_stringify state]> localStorage)
    else (None, delete STORAGE_KEY localStorage).
Proof using Type.
  intros lastSaved nodes edges ls state B P Hne.
  unfold saveBuilderState. rewrite B. unfold loadBuilderState.
  rewrite lookup_insert_eq.
  destruct (String.eqb_spec (JSON_stringify state) ""); [contradiction|].
  rewrite P. unfold builderState in B. bind_inv B. injection B as <-.
  unfold stateOk. cbn [truthy negb get assoc String.eqb Ascii.eqb Bool.eqb bind].
  rewrite (every_nodes _ _ Ha). cbn [bind].
  destruct (forallb nodeLoads nodes); cbn [andb].
  - rewrite every_edges. destruct (forallb edgeLoads edges); [reflexivity|].
    unfold clearBuilderState. now rewrite delete_insert_eq.
  - unfold clearBuilderState. now rewrite delete_insert_eq.
Qed.

End RoundTrip.

Lemma save_then_load_witness :
  builderState "2024-01-01T00:00:00.000Z" [canvasUser] [] = Ret canvasState /\
  loadBuilderState canvasParse
    (saveBuilderState canvasStringify "2024-01-01T00:00:00.000Z" [canvasUser] [] ∅) =
  (Some canvasState, {[ STORAGE_KEY := "canvas" ]}).
Proof.
  assert (B : builderState "2024-01-01T00:00:00.000Z" [canvasUser] [] = Ret canvasState)
    by (vm_compute; reflexivity).
  split; [exact B|].
  apply (save_then_load canvasStringify canvasParse _ _ _ ∅ _ B).
  - vm_compute. reflexivity.
  - discriminate.
Defined.

End PersistenceFacts.

(** ** The graph an import builds *)
Module ImportFacts.
Import JS SchemaRelationships BuilderTypes DataModelExport DataModelImport ImportSpec.
Import StringFacts Naming OutcomeFacts Samples.

Lemma generateAll_snoc (paths : list string) (p : string) (cs : gmap string N) :
  generateAll (paths ++ [p]) cs =
  (fst (generateAll paths cs) ++ [fst (generateInstanceId p (snd (generateAll paths cs)))],
   snd (generateInstanceId p (snd (generateAll paths cs)))).
Proof.
  revert cs. induction paths as [|q rest IH]; intros cs.
  - reflexivity.
  - cbn [app]. rewrite !generateAll_cons, IH. reflexivity.
Qed.

Section Invariant.
Variable stringify : jdata -> string.
Variable toPropertyKey : json -> string.
Variable schemas : catalog.
Variable c0 : gmap string N.

(** What a call of [createNodeFromData] keeps: from a sound state, and with
    a parent that is a node of it, the state it leaves is sound and holds the
    nodes it found. *)
Section Loops.
Variable create :
  ImportState -> jdata -> Position -> option string -> option string ->
  outcome (option string * ImportState).
Hypothesis create_sound :
  forall st d pos parent prop r st',
    create st d pos parent prop = Ret (r, st') ->
    Sound c0 st ->
    (forall p q, parentLink parent prop = Some (p, q) -> List.In p (nodeIds st)) ->
    Sound c0 st' /\ incl (nodeIds st) (nodeIds st').

Lemma parentLink_parent (parent prop p q : string) :
  parentLink (Some parent) (Some prop) = Some (p, q) -> p = parent.
Proof.
  unfold parentLink. destruct (nonEmpty parent && nonEmpty prop); [|discriminate].
  intros H. now injection H as <- _.
Qed.

Lemma createItems_sound (items : list jdata) (st st' : ImportState) (i : nat)
  (pos : Position) (childX : Z) (childIndex : nat) (instanceId prop : string) :
  createItems create st items i pos childX childIndex instanceId prop = Ret st' ->
  Sound c0 st -> List.In instanceId (nodeIds st) ->
  Sound c0 st' /\ incl (nodeIds st) (nodeIds st').
Proof using create_sound.
  revert st i. induction items as [|item rest IH]; intros st i H S Hin;
    cbn [createItems] in H.
  - injection H as <-. split; [exact S|apply incl_refl].
  - bind_inv H. rename a into st1.
    assert (X : Sound c0 st1 /\ incl (nodeIds st) (nodeIds st1)).
    { destruct (isObjectLike item).
      - bind_inv Ha. destruct a as [r st2]. injection Ha as <-.
        eapply create_sound; [exact Ha0|exact S|].
        intros p q E. apply parentLink_parent in E. now subst.
      - injection Ha as <-. split; [exact S|apply incl_refl]. }
    destruct X as (S1 & I1).
    destruct (IH _ _ H S1 (I1 _ Hin)) as (S2 & I2).
    split; [exact S2|]. eapply incl_tran; eauto.
Qed.

Lemma createChildren_sound (rules : list ConnectionRule) (st st' : ImportState)
  (childIndex : nat) (dataObj : jdata) (pos : Position) (instanceId : string) :
  createChildren create st rules childIndex dataObj pos instanceId = Ret st' ->
  Sound c0 st -> List.In instanceId (nodeIds st) ->
  Sound c0 st' /\ incl (nodeIds st) (nodeIds st').
Proof using create_sound.
  revert st childIndex. induction rules as [|rule rest IH]; intros st childIndex H S Hin;
    cbn [createChildren] in H.
  - injection H as <-. split; [exact S|apply incl_refl].
  - destruct (assoc (propertyPath rule) (dentries dataObj)) as [[| | | |a items|a fields]|];
      destruct (cardinality rule); try (eapply IH; eassumption).
    + bind_inv H. rename a0 into st1.
      destruct (createItems_sound _ _ _ _ _ _ _ _ _ Ha S Hin) as (S1 & I1).
      destruct (IH _ _ H S1 (I1 _ Hin)) as (S2 & I2).
      split; [exact S2|]. eapply incl_tran; eauto.
    + bind_inv H. destruct a0 as [r st1]. cbn [snd] in H.
      assert (X : Sound c0 st1 /\ incl (nodeIds st) (nodeIds st1)).
      { eapply create_sound; [exact Ha|exact S|].
        intros p q E. apply parentLink_parent in E. now subst. }
      destruct X as (S1 & I1).
      destruct (IH _ _ H S1 (I1 _ Hin)) as (S2 & I2).
      split; [exact S2|]. eapply incl_tran; eauto.
Qed.

End Loops.

Lemma pushEdge_sound (st : ImportState) (id p t q : string) (isArray : bool) :
  Sound c0 st -> List.In p (nodeIds st) -> List.In t (nodeIds st) ->
  Sound c0 (pushEdge st (createEdge id p t q isArray)).
Proof using Type.
  intros ((Ce & Cm) & G) Hp Ht. split; [split|exact G].
  - intros e Hin. cbn in Hin. apply in_app_or in Hin.
    destruct Hin as [Hin|[<-|[]]]; [now apply Ce|]. cbn. auto.
  - exact Cm.
Qed.

Lemma createNodeFromData_sound (fuel : nat) :
  forall st d pos parent prop r st',
    createNodeFromData stringify toPropertyKey fuel schemas st d pos parent prop
      = Ret (r, st') ->
    Sound c0 st ->
    (forall p q, parentLink parent prop = Some (p, q) -> List.In p (nodeIds st)) ->
    Sound c0 st' /\ incl (nodeIds st) (nodeIds st').
Proof using Type.
  induction fuel as [|fuel IH]; intros st d pos parent prop r st' H S Hp;
    [discriminate H|].
  cbn [createNodeFromData] in H.
  destruct (match address d with
            | Some a => instanceMap st !! a
            | None => None
            end) as [existingId|] eqn:Em.
  - injection H as <- <-. split; [|destruct (parentLink parent prop) as [[p q]|];
      [destruct (existsb _ (edges st))|]; apply incl_refl].
    destruct (parentLink parent prop) as [[p q]|] eqn:L; [|exact S].
    destruct (existsb _ (edges st)); [exact S|].
    apply pushEdge_sound; [exact S|now apply (Hp p q)|].
    destruct S as ((_ & Cm) & _).
    destruct (address d) as [a|]; [|discriminate Em]. eapply Cm; eauto.
  - bind_inv H. destruct a as [[schemaPath score]|].
    2:{ injection H as <- <-. split; [exact S|apply incl_refl]. }
    destruct (generateInstanceId schemaPath (instanceCounters st))
      as [instanceId counters] eqn:Eg.
    bind_inv H. rename a into connectionRules. bind_inv H. rename a into st4.
    injection H as <- <-.
    match type of Ha1 with
    | createChildren _ ?st3 _ _ _ _ _ = _ =>
        assert (X : (Sound c0 st3 /\ List.In instanceId (nodeIds st3)) /\
                    incl (nodeIds st) (nodeIds st3))
    end.
    { destruct S as ((Ce & Cm) & (paths & Gi & Gc)).
      assert (Sound c0
                (pushNode (registerInstance st d instanceId counters)
                   {| node_id := instanceId;
                      node_position := pos;
                      node_data :=
                        Some {| nd_instanceId := instanceId;
                                nd_schemaPath := schemaPath;
                                nd_schemaTitle := titleOf (assoc schemaPath schemas) schemaPath;
                                nd_values :=
                                  Some (plainValues
                                          (map SchemaRelationships.propertyPath connectionRules)
                                          d) |} |})) as S2.
      { split; [split|].
        - intros e Hin. cbn in Hin. unfold nodeIds. cbn. rewrite map_app.
          destruct (Ce e Hin) as (A & B). split; apply in_or_app; now left.
        - intros a id Hl. unfold nodeIds. cbn. rewrite map_app. apply in_or_app.
          cbn in Hl. destruct (address d) as [a0|].
          + destruct (decide (a0 = a)) as [->|Hne].
            * rewrite lookup_insert_eq in Hl. injection Hl as <-. right. now left.
            * rewrite lookup_insert_ne in Hl by exact Hne. left. eapply Cm; eauto.
          + left. eapply Cm; eauto.
        - exists (paths ++ [schemaPath]). rewrite generateAll_snoc. cbn [fst snd].
          rewrite <- Gc, Eg. cbn [fst snd]. unfold nodeIds. cbn. rewrite map_app.
          unfold nodeIds in Gi. rewrite Gi. split; reflexivity. }
      assert (I2 : List.In instanceId
                (nodeIds (pushNode (registerInstance st d instanceId counters)
                   {| node_id := instanceId;
                      node_position := pos;
                      node_data :=
                        Some {| nd_instanceId := instanceId;
                                nd_schemaPath := schemaPath;
                                nd_schemaTitle := titleOf (assoc schemaPath schemas) schemaPath;
                                nd_values :=
                                  Some (plainValues
                                          (map SchemaRelationships.propertyPath connectionRules)
                                          d) |} |}))).
      { unfold nodeIds. cbn. rewrite map_app. apply in_or_app. right. now left. }
      assert (I0 : incl (nodeIds st)
                (nodeIds (pushNode (registerInstance st d instanceId counters)
                   {| node_id := instanceId;
                      node_position := pos;
                      node_data :=
                        Some {| nd_instanceId := instanceId;
                                nd_schemaPath := schemaPath;
                                nd_schemaTitle := titleOf (assoc schemaPath schemas) schemaPath;
                                nd_values :=
                                  Some (plainValues
                                          (map SchemaRelationships.propertyPath connectionRules)
                                          d) |} |}))).
      { intros x Hx. unfold nodeIds. cbn. rewrite map_app. apply in_or_app. now left. }
      destruct (parentLink parent prop) as [[p q]|] eqn:L.
      - split; [split|exact I0]; [|exact I2].
        apply pushEdge_sound; [exact S2|apply I0; now apply (Hp p q)|exact I2].
      - split; [split|exact I0]; [exact S2|exact I2]. }
    destruct X as ((S3 & I3) & I03).
    destruct (createChildren_sound _ IH _ _ _ _ _ _ _ Ha1 S3 I3) as (S4 & I34).
    split; [exact S4|]. eapply incl_tran; eauto.
Qed.

Lemma importItems_sound (fuel : nat) (items : list jdata) (st st' : ImportState)
  (x yOffset : Z) :
  importItems stringify toPropertyKey fuel schemas st items x yOffset = Ret st' ->
  Sound c0 st -> Sound c0 st'.
Proof using Type.
  revert st yOffset. induction items as [|item rest IH]; intros st yOffset H S;
    cbn [importItems] in H.
  - now injection H as <-.
  - destruct item; try (eapply IH; eassumption).
    bind_inv H. destruct a as [r st1]. cbn [snd] in H.
    eapply IH; [exact H|].
    eapply createNodeFromData_sound; [exact Ha|exact S|]. discriminate.
Qed.

End Invariant.

Lemma emptyState_sound (c0 : gmap string N) : Sound c0 (emptyState c0).
Proof.
  split; [split|].
  - intros e [].
  - intros a id H. cbn in H. rewrite lookup_empty in H. discriminate H.
  - exists []. split; reflexivity.
Qed.

(** The state an import ends in is sound. *)
Lemma importFromJson_sound (stringify : jdata -> string) (toPropertyKey : json -> string)
  (fuel : nat) (data : jdata) (schemas : catalog) (startPosition : Position)
  (c0 c' : gmap string N) (res : ImportResult) :
  importFromJson stringify toPropertyKey fuel data schemas startPosition c0 = Ret (res, c') ->
  exists st, Sound c0 st /\ finish st = (res, c').
Proof.
  unfold importFromJson. intros H.
  destruct data; bind_inv H.
  1-4,6: destruct a as [r st]; cbn [snd] in H; exists st;
    (split; [|congruence]);
    eapply createNodeFromData_sound; [exact Ha|apply emptyState_sound|discriminate].
  exists a. split; [|congruence].
  eapply importItems_sound; [exact Ha|apply emptyState_sound].
Qed.

(** X9.  In the result of [importFromJson], every edge joins two of the
    nodes of the result. *)
Theorem import_edges_join_nodes :
  forall (stringify : jdata -> string) (toPropertyKey : json -> string)
         (fuel : nat) (data : jdata) (schemas : catalog) (startPosition : Position)
         (c0 c' : gmap string N) (res : ImportResult),
    importFromJson stringify toPropertyKey fuel data schemas startPosition c0
      = Ret (res, c') ->
    forall e, List.In e (res_edges res) ->
      List.In (source e) (map node_id (res_nodes res)) /\
      List.In (target e) (map node_id (res_nodes res)).
Proof.
  intros stringify toPropertyKey fuel data schemas startPosition c0 c' res H e Hin.
  apply importFromJson_sound in H. destruct H as (st & ((Ce & _) & _) & F).
  unfold finish in F. injection F as <- _. apply Ce. exact Hin.
Qed.

(** The import of a user with a nested address: one edge, from the user to
    the address. *)
Lemma import_edges_join_nodes_witness :
  exists res c',
    importFromJson sampleStringify sampleToKey 3 alData importCatalog startAt ∅
      = Ret (res, c') /\
    map node_id (res_nodes res) = ["user-1"; "address-1"] /\
    map (fun e => (source e, target e)) (res_edges res) = [("user-1", "address-1")] /\
    forall e, List.In e (res_edges res) ->
      List.In (source e) (map node_id (res_nodes res)) /\
      List.In (target e) (map node_id (res_nodes res)).
Proof.
  destruct (importFromJson sampleStringify sampleToKey 3 alData importCatalog startAt ∅)
    as [[res c']| |] eqn:E; [|vm_compute in E; discriminate E..].
  exists res, c'. split; [reflexivity|].
  pose proof (import_edges_join_nodes _ _ _ _ _ _ _ _ _ E) as W.
  vm_compute in E. injection E as <- <-.
  split; [reflexivity|]. split; [reflexivity|]. exact W.
Defined.



End ImportFacts.

(** ** The schema graph *)
Module GraphFacts.
Import JS SchemaRelationships SchemaGraph SchemaGraphSpec PathSpec.
Import StringFacts OutcomeFacts Resolver Samples.

(** Induction on a JSON tree, with the property at hand for every element
    of an array and every value of an object. *)
Lemma json_tree_ind (P : json -> Prop) :
  P JNull -> (forall b, P (JBool b)) -> (forall n, P (JNum n)) -> (forall s, P (JStr s)) ->
  (forall xs, List.Forall P xs -> P (JArr xs)) ->
  (forall kvs, List.Forall (fun kv => P (snd kv)) kvs -> P (JObj kvs)) ->
  forall j, P j.
Proof.
  intros Hnull Hbool Hnum Hstr Harr Hobj. fix IH 1. intros [|b|n|s|xs|kvs].
  - exact Hnull.
  - apply Hbool.
  - apply Hnum.
  - apply Hstr.
  - apply Harr. induction xs as [|x xs IHxs]; constructor; [apply IH|exact IHxs].
  - apply Hobj. induction kvs as [|[k v] kvs IHkvs]; constructor; [apply IH|exact IHkvs].
Qed.

Lemma ownReference_from (name : string) (ref : value) (pname : string) (isArr : bool)
  (rel : SchemaRelationship) :
  List.In rel (ownReference name ref pname isArr) -> FromSchema name rel.
Proof.
  unfold ownReference. destruct ref as [[| | |r| |]|]; try (intros []).
  destruct (schemaFileRef (Some (JStr r))) as [m|] eqn:E; [|intros []].
  intros [<-|[]]. cbn [schemaFileRef] in E.
  destruct (String.eqb r ""); [discriminate E|].
  unfold matchRef in E. destruct (String.eqb (beforeHash r) ""); [discriminate E|].
  destruct (endsWith (beforeHash r) ".json") eqn:J; [|discriminate E].
  injection E as <-. unfold FromSchema. cbn.
  split; [reflexivity|]. split; [apply resolveRef_resolve|]. split; [exact J|].
  split; [destruct isArr; discriminate|discriminate].
Qed.

Lemma traverse_from (name : string) (obj : json) :
  forall (pname : string) (isArr : bool) (rel : SchemaRelationship),
    List.In rel (traverse name obj pname isArr) -> FromSchema name rel.
Proof.
  induction obj as [|b|n|s|xs IH|kvs IH] using json_tree_ind;
    intros pname isArr rel Hin; try (destruct Hin).
  - cbn [traverse] in Hin. revert Hin. generalize 0 as i.
    induction IH as [|x xs Hx Hxs IHxs]; intros i Hin; [destruct Hin|].
    apply in_app_or in Hin. destruct Hin as [Hin|Hin]; [|eapply IHxs; eauto].
    destruct (isNested x); [eapply Hx; eauto|destruct Hin].
  - cbn [traverse] in Hin. apply in_app_or in Hin. destruct Hin as [Hin|Hin];
      [eapply ownReference_from; eauto|].
    apply in_app_or in Hin. destruct Hin as [Hin|Hin].
    + destruct (is_str (assoc "type" kvs) "array" && truthy (assoc "items" kvs));
        [|destruct Hin].
      induction IH as [|[k v] rest Hv Hrest IHrest]; [destruct Hin|].
      destruct (String.eqb k "items"); [eapply Hv; eauto|now apply IHrest].
    + induction IH as [|[k v] rest Hv Hrest IHrest]; [destruct Hin|].
      apply in_app_or in Hin. destruct Hin as [Hin|Hin]; [|now apply IHrest].
      destruct (isNested v && negb (String.eqb k "items")); [eapply Hv; eauto|destruct Hin].
Qed.

(** X11.  Every relationship [extractSchemaReferences] returns starts at the
    schema at hand and leads to the path that the Path Resolver gives for its
    reference from that schema; the reference names a JSON file, and the
    relationship is one-to-one or one-to-many and carries a property name. *)
Theorem extracted_references_resolved :
  forall (schema : value) (name : string) (rel : SchemaRelationship),
    List.In rel (extractSchemaReferences schema name) ->
    from rel = name /\
    to rel = resolve name (refPath rel) /\
    endsWith (beforeHash (refPath rel)) ".json" = true /\
    rel_type rel <> multiple /\
    propertyName rel <> None.
Proof.
  intros schema name rel Hin. unfold extractSchemaReferences in Hin.
  destruct schema as [obj|]; [|destruct Hin].
  exact (traverse_from _ _ _ _ _ Hin).
Qed.

Lemma extracted_references_resolved_witness :
  extractSchemaReferences (Some userSchema) "v1/user/user.schema.json" =
    [ {| from := "v1/user/user.schema.json"; to := "v1/user/roles.schema.json";
         refPath := "roles.schema.json"; rel_type := one_to_one;
         propertyName := Some "roles" |};
      {| from := "v1/user/user.schema.json"; to := "v1/user/address.schema.json";
         refPath := "./address.schema.json#/definitions/a"; rel_type := one_to_one;
         propertyName := Some "address" |} ] /\
  "v1/user/address.schema.json" =
    resolve "v1/user/user.schema.json" "./address.schema.json#/definitions/a".
Proof.
  assert (E : extractSchemaReferences (Some userSchema) "v1/user/user.schema.json" =
    [ {| from := "v1/user/user.schema.json"; to := "v1/user/roles.schema.json";
         refPath := "roles.schema.json"; rel_type := one_to_one;
         propertyName := Some "roles" |};
      {| from := "v1/user/user.schema.json"; to := "v1/user/address.schema.json";
         refPath := "./address.schema.json#/definitions/a"; rel_type := one_to_one;
         propertyName := Some "address" |} ]) by (vm_compute; reflexivity).
  split; [exact E|].
  apply (extracted_references_resolved (Some userSchema) "v1/user/user.schema.json"
           {| from := "v1/user/user.schema.json"; to := "v1/user/address.schema.json";
              refPath := "./address.schema.json#/definitions/a"; rel_type := one_to_one;
              propertyName := Some "address" |}).
  rewrite E. right. now left.
Defined.

(** *** The graph *)

Lemma schemaNodes_ids (toText : json -> string) (rels : list SchemaRelationship)
  (expanded : list string) (schemas : list (string * value)) (nodes : list GraphNode) :
  schemaNodes toText rels expanded schemas = Ret nodes ->
  map gn_id nodes = map fst schemas.
Proof.
  revert nodes. induction schemas as [|[name schema] rest IH]; intros nodes H;
    cbn [schemaNodes] in H.
  - now injection H as <-.
  - bind_inv H. bind_inv H. injection H as <-. cbn [map fst]. f_equal; [|now apply IH].
    unfold schemaNode in Ha. bind_inv Ha. bind_inv Ha. bind_inv Ha. bind_inv Ha.
    destruct schema; [|discriminate Ha]. now injection Ha as <-.
Qed.

Lemma includes_In (x : string) (l : list string) :
  existsb (String.eqb x) l = true <-> List.In x l.
Proof.
  rewrite existsb_exists. split.
  - intros (y & Hy & E). apply String.eqb_eq in E. now subst.
  - intros H. exists x. split; [exact H|apply String.eqb_refl].
Qed.

Lemma groupEdge_ok (ids : list string) (fromNode toNode : string)
  (rel : SchemaRelationship) (rest : list SchemaRelationship) :
  List.In fromNode ids -> List.In toNode ids ->
  GraphEdgeOk ids (groupEdge (fromNode +:+ "-" +:+ toNode) fromNode toNode rel (rel :: rest)).
Proof.
  intros Hf Ht. unfold GraphEdgeOk, groupEdge. cbn [ge_source ge_target ge_id ge_data
    count ed_type length].
  repeat split; auto; try lia.
  - destruct (Nat.ltb_spec 1 (S (length rest))); [auto|].
    destruct (rel_type rel); discriminate.
  - intros L. destruct (Nat.ltb_spec 1 (S (length rest))); [reflexivity|lia].
Qed.

(** What the loop over the groups keeps: the set [edgeIds] holds the
    identifiers of the edges, once each, and every edge is in order. *)
Lemma groupEdges_keeps (ids : list string)
  (groups : list (string * list SchemaRelationship))
  (edges edges' : list GraphEdge) (edgeIds edgeIds' : list string) :
  groupEdges ids groups (edges, edgeIds) = Ret (edges', edgeIds') ->
  map ge_id edges = edgeIds -> List.NoDup edgeIds ->
  (forall e, List.In e edges -> GraphEdgeOk ids e) ->
  map ge_id edges' = edgeIds' /\ List.NoDup edgeIds' /\
  (forall e, List.In e edges' -> GraphEdgeOk ids e).
Proof.
  revert edges edgeIds. induction groups as [|[key rels] rest IH];
    intros edges edgeIds H M N O; cbn [groupEdges] in H.
  - injection H as <- <-. auto.
  - bind_inv H. destruct a as [edges1 edgeIds1].
    unfold addGroupEdge in Ha. destruct rels as [|rel more]; [discriminate Ha|].
    destruct (existsb (String.eqb (nodeFor ids (from rel))) ids &&
              existsb (String.eqb (nodeFor ids (to rel))) ids) eqn:B.
    2:{ injection Ha as <- <-. eapply IH; eauto. }
    apply andb_prop in B. destruct B as (Bf & Bt).
    apply includes_In in Bf, Bt.
    destruct (existsb (String.eqb (nodeFor ids (from rel) +:+ "-" +:+ nodeFor ids (to rel)))
                      edgeIds) eqn:D; cbn [negb] in Ha.
    { injection Ha as <- <-. eapply IH; eauto. }
    injection Ha as <- <-. eapply IH; [exact H| | |].
    + rewrite map_app, M. reflexivity.
    + apply List.NoDup_app; [exact N|repeat constructor; intros []|].
      intros x Hx [E|[]]. subst x.
      apply includes_In in Hx. congruence.
    + intros e Hin. apply in_app_or in Hin. destruct Hin as [Hin|[<-|[]]]; [now apply O|].
      now apply groupEdge_ok.
Qed.

(** X12.  The graph [createSchemaGraph] returns has one node per schema, in
    the order of the schemas and named after them; each of its edges joins two
    of these nodes, is named [source-target], and stands for at least one
    relationship, being of kind [multiple] exactly when it stands for several;
    and no two edges have the same identifier. *)
Theorem createSchemaGraph_well_formed :
  forall (toText : json -> string) (schemas : list (string * value))
         (relationships : list SchemaRelationship) (expandedNodes : list string)
         (nodes : list GraphNode) (edges : list GraphEdge),
    createSchemaGraph toText schemas relationships expandedNodes = Ret (nodes, edges) ->
    map gn_id nodes = map fst schemas /\
    (forall e, List.In e edges ->
       List.In (ge_source e) (map gn_id nodes) /\
       List.In (ge_target e) (map gn_id nodes) /\
       ge_id e = ge_source e +:+ "-" +:+ ge_target e /\
       1 <= count (ge_data e) /\
       (ed_type (ge_data e) = multiple <-> 1 < count (ge_data e))) /\
    List.NoDup (map ge_id edges).
Proof.
  intros toText schemas relationships expandedNodes nodes edges H.
  unfold createSchemaGraph in H. bind_inv H. bind_inv H. destruct a0 as [es ids].
  injection H as <- <-. cbn [fst].
  pose proof (schemaNodes_ids _ _ _ _ _ Ha) as I.
  destruct (groupEdges_keeps _ _ _ _ _ _ Ha0 eq_refl (List.NoDup_nil _)) as (M & N & O).
  { intros e []. }
  split; [exact I|]. split.
  - intros e Hin. rewrite I. exact (O e Hin).
  - rewrite M. exact N.
Qed.

(** The user schema and the three schemas it refers to. *)
Lemma createSchemaGraph_well_formed_witness :
  exists nodes edges,
    createSchemaGraph sampleToKey (map (fun kv => (fst kv, Some (snd kv))) userCatalog)
      (extractSchemaReferences (Some userSchema) "v1/user/user.schema.json") []
      = Ret (nodes, edges) /\
    map ge_id edges =
      ["v1/user/user.schema.json-v1/user/roles.schema.json";
       "v1/user/user.schema.json-v1/user/address.schema.json"] /\
    List.NoDup (map ge_id edges).
Proof.
  destruct (createSchemaGraph sampleToKey (map (fun kv => (fst kv, Some (snd kv))) userCatalog)
              (extractSchemaReferences (Some userSchema) "v1/user/user.schema.json") [])
    as [[nodes edges]| |] eqn:E; [|vm_compute in E; discriminate E..].
  exists nodes, edges. split; [reflexivity|].
  pose proof (proj2 (proj2 (createSchemaGraph_well_formed _ _ _ _ _ _ E))) as W.
  vm_compute in E. injection E as <- <-.
  split; [reflexivity|exact W].
Defined.

(** *** Entity types *)

Lemma endsWith_app (x suf : string) : endsWith (x +:+ suf) suf = true.
Proof.
  induction x as [|a x IH]; unfold_append.
  - destruct suf; cbn [endsWith]; now rewrite String.eqb_refl.
  - cbn [endsWith]. rewrite IH. apply orb_true_r.
Qed.

Lemma substring_app (x y : string) :
  String.substring 0 (String.length x) (x +:+ y) = x.
Proof.
  induction x as [|a x IH]; unfold_append.
  - destruct y; reflexivity.
  - cbn [String.length String.substring]. now rewrite IH.
Qed.

Lemma length_append (x y : string) :
  String.length (x +:+ y) = String.length x + String.length y.
Proof. induction x as [|a x IH]; unfold_append; cbn [String.length]; [reflexivity|now rewrite IH]. Qed.

Lemma append_assoc (x y z : string) : (x +:+ y) +:+ z = x +:+ (y +:+ z).
Proof. induction x as [|a x IH]; unfold_append; [reflexivity|now rewrite IH]. Qed.

Lemma withoutExtension_app (x : string) : withoutExtension (x +:+ ".schema.json") = x.
Proof.
  unfold withoutExtension. rewrite endsWith_app, length_append.
  replace (String.length x + String.length ".schema.json" - 12) with (String.length x)
    by (cbn [String.length]; lia).
  apply substring_app.
Qed.

Lemma split_at (c : ascii) (x y : string) :
  ~ List.In c (chars x) -> split c (x +:+ String c y) = x :: split c y.
Proof.
  induction x as [|a x IH]; unfold_append; intros H.
  - cbn [split]. now rewrite Ascii.eqb_refl.
  - cbn [split]. destruct (Ascii.eqb_spec a c) as [->|Hne];
      [exfalso; apply H; now left|].
    rewrite IH by (intros Hin; apply H; now right). reflexivity.
Qed.

Lemma entity_or_unknown (parts : list string) :
  (if nonEmpty (default "" (last parts)) then default "" (last parts) else "unknown") <> "".
Proof.
  unfold nonEmpty. destruct (String.eqb_spec (default "" (last parts)) ""); cbn [negb];
    [discriminate|assumption].
Qed.

(** X13.  [extractEntityType] never answers the empty string; for a schema
    file below [v1/<entity>/] it answers the entity, and for a bare file name
    the name without its extension. *)
Theorem extractEntityType_answers :
  (forall schemaPath, extractEntityType schemaPath <> "") /\
  (forall entity rest,
      entity <> "" -> ~ List.In "/"%char (chars entity) ->
      extractEntityType ("v1/" +:+ entity +:+ "/" +:+ rest +:+ ".schema.json") = entity) /\
  (forall file,
      file <> "" -> ~ List.In "/"%char (chars file) ->
      extractEntityType (file +:+ ".schema.json") = file).
Proof.
  split; [|split].
  - intros schemaPath. unfold extractEntityType.
    destruct (split "/" (withoutExtension schemaPath)) as [|first [|second more]];
      try apply entity_or_unknown.
    destruct (String.eqb first "v1" && nonEmpty second) eqn:B; [|apply entity_or_unknown].
    apply andb_prop in B. destruct B as (_ & B). unfold nonEmpty in B.
    destruct (String.eqb_spec second ""); [discriminate B|assumption].
  - intros entity rest Hne Hns.
    replace ("v1/" +:+ entity +:+ "/" +:+ rest +:+ ".schema.json")
      with (("v1" +:+ String "/" (entity +:+ String "/" rest)) +:+ ".schema.json").
    2:{ repeat (rewrite append_cons || rewrite append_assoc || rewrite append_nil).
        reflexivity. }
    unfold extractEntityType. rewrite withoutExtension_app.
    rewrite (split_at "/" "v1") by (cbn; intuition discriminate).
    rewrite split_at by exact Hns.
    pose proof (split_nonempty "/" rest) as Hs.
    destruct (split "/" rest) as [|r rs]; [contradiction|].
    cbn [String.eqb Ascii.eqb Bool.eqb andb]. unfold nonEmpty.
    destruct (String.eqb_spec entity ""); [contradiction|reflexivity].
  - intros file Hne Hns. unfold extractEntityType. rewrite withoutExtension_app.
    rewrite split_no_sep by exact Hns.
    change (default "" (last [file])) with file. unfold nonEmpty.
    destruct (String.eqb_spec file ""); [contradiction|reflexivity].
Qed.

Lemma extractEntityType_answers_witness :
  extractEntityType ("v1/" +:+ "user" +:+ "/" +:+ "profile/user" +:+ ".schema.json") = "user" /\
  extractEntityType ("user" +:+ ".schema.json") = "user".
Proof.
  destruct extractEntityType_answers as (_ & H2 & H3). split.
  - apply H2; [discriminate|]. cbn. intuition discriminate.
  - apply H3; [discriminate|]. cbn. intuition discriminate.
Defined.

End GraphFacts.

(** ** The shape of an exported object *)
Module ExportShapeFacts.
Import JS SchemaRelationships BuilderTypes DataModelExport ExportShape.
Import OutcomeFacts Samples MoreSamples.

Lemma assign_In {A} (kvs : list (string * A)) (p : string) (v : A) (k : string) :
  List.In k (map fst (assign kvs p v)) <-> k = p \/ List.In k (map fst kvs).
Proof.
  induction kvs as [|[k0 v0] rest IH]; cbn [assign map fst].
  - cbn. intuition.
  - destruct (String.eqb_spec k0 p) as [->|Hne]; cbn [map fst In].
    + intuition.
    + rewrite IH. intuition.
Qed.

Lemma assign_same {A} (kvs : list (string * A)) (p : string) (v : A) :
  assoc p (assign kvs p v) = Some v.
Proof.
  induction kvs as [|[k0 v0] rest IH]; cbn [assign assoc].
  - now rewrite String.eqb_refl.
  - destruct (String.eqb_spec k0 p) as [->|Hne]; cbn [assoc].
    + now rewrite String.eqb_refl.
    + destruct (String.eqb_spec k0 p); [contradiction|exact IH].
Qed.

Lemma assign_other {A} (kvs : list (string * A)) (p q : string) (v : A) :
  q <> p -> assoc q (assign kvs p v) = assoc q kvs.
Proof.
  intros Hne. induction kvs as [|[k0 v0] rest IH]; cbn [assign assoc].
  - destruct (String.eqb_spec p q); [congruence|reflexivity].
  - destruct (String.eqb_spec k0 p) as [->|Hn0]; cbn [assoc].
    + destruct (String.eqb_spec p q); [congruence|reflexivity].
    + destruct (String.eqb_spec k0 q); [reflexivity|exact IH].
Qed.

Lemma rule_found (rules : list ConnectionRule) (p : string) :
  existsb (String.eqb p) (map propertyPath rules) = true ->
  exists rule, List.find (fun r => String.eqb (propertyPath r) p) rules = Some rule.
Proof.
  intros H. apply existsb_exists in H. destruct H as (x & Hx & E).
  apply String.eqb_eq in E. subst x. apply in_map_iff in Hx. destruct Hx as (r & E & Hr).
  destruct (List.find (fun r => String.eqb (propertyPath r) p) rules) as [rule|] eqn:F;
    [eauto|].
  pose proof (find_none _ _ F r Hr) as N. cbn beta in N. rewrite E, String.eqb_refl in N.
  discriminate N.
Qed.

Section Loop.
Variable build : string -> list string -> outcome (built * list string).
Variable rules : list ConnectionRule.
Variable byProperty : gmap string (list Edge).
Variable nodeValues : list (string * json).

(** A round of the property loop sets the property of that round, and no
    other. *)
Lemma buildProperty_sets (result result' : list (string * json)) (visited visited' : list string)
  (p : string) (d : json) :
  buildProperty build rules byProperty nodeValues (result, visited) (p, d)
    = Ret (result', visited') ->
  exists v,
    result' = assign result p v /\
    (existsb (String.eqb p) (map propertyPath rules) = false -> v = plainValue nodeValues p d).
Proof using Type.
  unfold buildProperty.
  destruct (existsb (String.eqb p) (map propertyPath rules)) eqn:B.
  - destruct (rule_found _ _ B) as (rule & ->).
    destruct (cardinality rule).
    + destruct (default [] (byProperty !! p)) as [|first rest].
      * intros H. injection H as <- <-. eexists. split; [reflexivity|discriminate].
      * intros H. bind_inv H. injection H as <- <-.
        eexists. split; [reflexivity|discriminate].
    + intros H. bind_inv H. injection H as <- <-.
      eexists. split; [reflexivity|discriminate].
  - intros H. injection H as <- <-. eexists. split; [reflexivity|]. reflexivity.
Qed.

Lemma buildProperties_keys (props : list (string * json))
  (result result' : list (string * json)) (visited visited' : list string) :
  buildProperties build rules byProperty nodeValues props (result, visited)
    = Ret (result', visited') ->
  forall k, List.In k (map fst result') <-> List.In k (map fst result) \/ List.In k (map fst props).
Proof using Type.
  revert result visited. induction props as [|[p d] rest IH]; intros result visited H k;
    cbn [buildProperties] in H.
  - injection H as <- <-. cbn. intuition.
  - bind_inv H. destruct a as [r1 v1].
    destruct (buildProperty_sets _ _ _ _ _ _ Ha) as (v & -> & _).
    rewrite (IH _ _ H k), assign_In. cbn [map fst In]. intuition.
Qed.

Lemma buildProperties_keeps (props : list (string * json))
  (result result' : list (string * json)) (visited visited' : list string) (p : string) :
  buildProperties build rules byProperty nodeValues props (result, visited)
    = Ret (result', visited') ->
  ~ List.In p (map fst props) -> assoc p result' = assoc p result.
Proof using Type.
  revert result visited. induction props as [|[q d] rest IH]; intros result visited H Hnin;
    cbn [buildProperties] in H.
  - now injection H as <- <-.
  - bind_inv H. destruct a as [r1 v1].
    destruct (buildProperty_sets _ _ _ _ _ _ Ha) as (v & -> & _).
    rewrite (IH _ _ H) by (intros X; apply Hnin; now right).
    apply assign_other. intros ->. apply Hnin. now left.
Qed.

Lemma buildProperties_plain (props : list (string * json))
  (result result' : list (string * json)) (visited visited' : list string)
  (p : string) (d : json) :
  buildProperties build rules byProperty nodeValues props (result, visited)
    = Ret (result', visited') ->
  List.NoDup (map fst props) -> List.In (p, d) props ->
  existsb (String.eqb p) (map propertyPath rules) = false ->
  assoc p result' = Some (plainValue nodeValues p d).
Proof using Type.
  revert result visited. induction props as [|[p0 d0] rest IH];
    intros result visited H ND Hin B; [destruct Hin|].
  cbn [buildProperties] in H. bind_inv H. destruct a as [r1 v1].
  inversion ND as [|? ? Hnin ND']; subst.
  destruct Hin as [E|Hin]; [|eapply IH; eauto].
  injection E as -> ->.
  destruct (buildProperty_sets _ _ _ _ _ _ Ha) as (v & -> & Hv).
  rewrite (buildProperties_keeps _ _ _ _ _ _ H Hnin), (Hv B). apply assign_same.
Qed.

End Loop.

(** What a call of [buildObjectFromInstance] that returns an object went
    through. *)
Lemma buildObject_inv (fuel : nat) (nodeId : string) (nodes : list Node)
  (edges : list Edge) (schemas : catalog) (visited : list string)
  (options : option ExportOptions) (obj : list (string * json)) (visited' : list string) :
  buildObjectFromInstance fuel nodeId nodes edges schemas visited options
    = Ret (Some obj, visited') ->
  exists fuel' node data schema rules,
    fuel = S fuel' /\
    List.find (fun n => String.eqb (node_id n) nodeId) nodes = Some node /\
    node_data node = Some data /\
    assoc (nd_schemaPath data) schemas = Some schema /\
    getSchemaConnectionRules (Some schema) (nd_schemaPath data) None = Ret rules /\
    exists v1,
      buildProperties
        (fun id v => buildObjectFromInstance fuel' id nodes edges schemas v options)
        rules (groupByProperty (getInstanceConnections nodeId edges))
        (default [] (nd_values data)) (schemaKeys schema)
        (if wantsMetadata options
         then [("_schemaPath", JStr (nd_schemaPath data)); ("_instanceId", JStr nodeId)]
         else [], v1) = Ret (obj, visited').
Proof.
  destruct fuel as [|fuel']; [discriminate|]. cbn [buildObjectFromInstance].
  destruct (existsb (String.eqb nodeId) visited); [discriminate|].
  destruct (List.find _ nodes) as [node|]; [|discriminate].
  destruct (node_data node) as [data|] eqn:D; [|discriminate].
  destruct (String.eqb (nd_schemaPath data) ""); [discriminate|].
  destruct (assoc (nd_schemaPath data) schemas) as [schema|] eqn:Es; [|discriminate].
  destruct (truthy (Some schema)) eqn:T; [|discriminate]. cbn [negb].
  intros H. bind_inv H. rename a into rules. bind_inv H. apply get_getq in Ha0. subst a.
  exists fuel', node, data, schema, rules.
  split; [reflexivity|]. split; [reflexivity|]. split; [exact D|].
  split; [exact Es|]. split; [exact Ha|].
  exists (visitedAdd visited nodeId).
  assert (M : match options with
              | Some o => if includeMetadata o
                          then [("_schemaPath", JStr (nd_schemaPath data));
                                ("_instanceId", JStr nodeId)]
                          else []
              | None => []
              end =
              if wantsMetadata options
              then [("_schemaPath", JStr (nd_schemaPath data)); ("_instanceId", JStr nodeId)]
              else []).
  { destruct options as [o|]; reflexivity. }
  rewrite M in H. unfold schemaKeys.
  destruct (getq (Some schema) "properties") as [props|].
  - destruct (truthy (Some props) && typeof_object (Some props)).
    + bind_inv H. destruct a as [r v]. cbn [fst snd] in H. injection H as <- <-. exact Ha0.
    + injection H as <- <-. reflexivity.
  - injection H as <- <-. reflexivity.
Qed.





End ExportShapeFacts.

(** ** Import, then export *)
Module RoundTripFacts.
Import JS SchemaRelationships BuilderTypes DataModelExport DataModelImport ExportShape.
Import OutcomeFacts Samples MoreSamples.

(** What [values] holds after the loop over the entries of an object. *)
Lemma plainValues_fold (refProps : list string) (p : string)
  (l : list (string * jdata)) (acc : list (string * json)) :
  List.NoDup (map fst l) ->
  assoc p
    (fold_left
       (fun values kv =>
          let '(key, v) := kv in
          if startsWith key "_" then values
          else if negb (existsb (String.eqb key) refProps) then assign values key (erase v)
          else values) l acc) =
  match assoc p l with
  | Some v =>
      if startsWith p "_" then assoc p acc
      else if existsb (String.eqb p) refProps then assoc p acc
      else Some (erase v)
  | None => assoc p acc
  end.
Proof.
  revert acc. induction l as [|[k v] rest IH]; intros acc ND; [reflexivity|].
  inversion ND as [|? ? Hnin ND']; subst. cbn [fold_left assoc].
  rewrite (IH _ ND'). destruct (String.eqb_spec k p) as [->|Hne].
  - assert (N : assoc p rest = None).
    { destruct (assoc p rest) as [x|] eqn:E; [|reflexivity].
      exfalso. apply Hnin. clear - E. induction rest as [|[k0 v0] rest IH]; [discriminate E|].
      cbn [assoc] in E. cbn [map fst In].
      destruct (String.eqb_spec k0 p) as [->|_]; [now left|right; auto]. }
    rewrite N. destruct (startsWith p "_"); [reflexivity|].
    destruct (existsb (String.eqb p) refProps); cbn [negb]; [reflexivity|].
    apply ExportShapeFacts.assign_same.
  - assert (K : forall values : list (string * json),
               assoc p (if startsWith k "_" then values
                        else if negb (existsb (String.eqb k) refProps)
                             then assign values k (erase v) else values)
               = assoc p values).
    { intros values. destruct (startsWith k "_"); [reflexivity|].
      destruct (negb (existsb (String.eqb k) refProps)); [|reflexivity].
      apply ExportShapeFacts.assign_other. congruence. }
    rewrite K. reflexivity.
Qed.

Lemma plainValues_lookup (refProps : list string) (p : string) (a : nat)
  (fields : list (string * jdata)) :
  List.NoDup (map fst fields) ->
  existsb (String.eqb p) refProps = false ->
  assoc p (plainValues refProps (DObj a fields)) =
  option_map erase (if startsWith p "_" then None else assoc p fields).
Proof.
  intros ND B. unfold plainValues. cbn [dentries]. rewrite (plainValues_fold _ _ _ _ ND), B.
  cbn [assoc]. destruct (assoc p fields); destruct (startsWith p "_"); reflexivity.
Qed.

Section Extends.
Variable stringify : jdata -> string.
Variable toPropertyKey : json -> string.
Variable schemas : catalog.

(** The import only appends to its list of nodes. *)
Section Loops.
Variable create :
  ImportState -> jdata -> Position -> option string -> option string ->
  outcome (option string * ImportState).
Hypothesis create_extends :
  forall st d pos parent prop r st',
    create st d pos parent prop = Ret (r, st') ->
    exists more, nodes st' = nodes st ++ more.

Lemma createItems_extends (items : list jdata) (st st' : ImportState) (i : nat)
  (pos : Position) (childX : Z) (childIndex : nat) (instanceId prop : string) :
  createItems create st items i pos childX childIndex instanceId prop = Ret st' ->
  exists more, nodes st' = nodes st ++ more.
Proof using create_extends.
  revert st i. induction items as [|item rest IH]; intros st i H; cbn [createItems] in H.
  - injection H as <-. exists []. now rewrite app_nil_r.
  - bind_inv H. rename a into st1.
    assert (X : exists more, nodes st1 = nodes st ++ more).
    { destruct (isObjectLike item).
      - bind_inv Ha. destruct a as [r st2]. injection Ha as <-. eapply create_extends; eauto.
      - injection Ha as <-. exists []. now rewrite app_nil_r. }
    destruct X as (m1 & E1). destruct (IH _ _ H) as (m2 & E2).
    exists (m1 ++ m2). now rewrite E2, E1, app_assoc.
Qed.

Lemma createChildren_extends (rules : list ConnectionRule) (st st' : ImportState)
  (childIndex : nat) (dataObj : jdata) (pos : Position) (instanceId : string) :
  createChildren create st rules childIndex dataObj pos instanceId = Ret st' ->
  exists more, nodes st' = nodes st ++ more.
Proof using create_extends.
  revert st childIndex. induction rules as [|rule rest IH]; intros st childIndex H;
    cbn [createChildren] in H.
  - injection H as <-. exists []. now rewrite app_nil_r.
  - destruct (assoc (propertyPath rule) (dentries dataObj)) as [[| | | |a items|a fields]|];
      destruct (cardinality rule); try (eapply IH; eassumption).
    + bind_inv H. rename a0 into st1.
      destruct (createItems_extends _ _ _ _ _ _ _ _ _ Ha) as (m1 & E1).
      destruct (IH _ _ H) as (m2 & E2).
      exists (m1 ++ m2). now rewrite E2, E1, app_assoc.
    + bind_inv H. destruct a0 as [r st1]. cbn [snd] in H.
      destruct (create_extends _ _ _ _ _ _ _ Ha) as (m1 & E1).
      destruct (IH _ _ H) as (m2 & E2).
      exists (m1 ++ m2). now rewrite E2, E1, app_assoc.
Qed.

End Loops.

Lemma createNodeFromData_extends (fuel : nat) :
  forall st d pos parent prop r st',
    createNodeFromData stringify toPropertyKey fuel schemas st d pos parent prop
      = Ret (r, st') ->
    exists more, nodes st' = nodes st ++ more.
Proof using Type.
  induction fuel as [|fuel IH]; intros st d pos parent prop r st' H; [discriminate H|].
  cbn [createNodeFromData] in H.
  destruct (match address d with
            | Some a => instanceMap st !! a
            | None => None
            end) as [existingId|].
  - injection H as <- <-. exists []. rewrite app_nil_r.
    destruct (parentLink parent prop) as [[p q]|]; [|reflexivity].
    destruct (existsb _ (edges st)); reflexivity.
  - bind_inv H. destruct a as [[schemaPath score]|].
    2:{ injection H as <- <-. exists []. now rewrite app_nil_r. }
    destruct (generateInstanceId schemaPath (instanceCounters st)) as [instanceId counters].
    bind_inv H. rename a into connectionRules. bind_inv H. rename a into st4.
    injection H as <- <-.
    destruct (createChildren_extends _ IH _ _ _ _ _ _ _ Ha1) as (m & E).
    rewrite E. destruct (parentLink parent prop) as [[p q]|]; cbn [nodes pushEdge pushNode
      registerInstance]; rewrite <- app_assoc; eauto.
Qed.

(** The first node of the import of an object is the node of that object. *)
Lemma root_node (fuel : nat) (a : nat) (fields : list (string * jdata)) (pos : Position)
  (c0 : gmap string N) (r : option string) (st' : ImportState) (root : Node)
  (others : list Node) :
  createNodeFromData stringify toPropertyKey fuel schemas (emptyState c0) (DObj a fields)
    pos None None = Ret (r, st') ->
  nodes st' = root :: others ->
  exists schemaPath score rules data,
    findMatchingSchema toPropertyKey (DObj a fields) schemas = Ret (Some (schemaPath, score)) /\
    getSchemaConnectionRules (assoc schemaPath schemas) schemaPath None = Ret rules /\
    node_data root = Some data /\
    nd_schemaPath data = schemaPath /\
    nd_values data = Some (plainValues (map propertyPath rules) (DObj a fields)).
Proof using Type.
  destruct fuel as [|fuel]; [discriminate|]. cbn [createNodeFromData address emptyState
    instanceMap]. rewrite lookup_empty. intros H Hn.
  bind_inv H. destruct a0 as [[schemaPath score]|].
  2:{ injection H as <- <-. discriminate Hn. }
  cbn [instanceCounters] in H.
  destruct (generateInstanceId schemaPath c0) as [instanceId counters].
  bind_inv H. rename a0 into connectionRules. bind_inv H. rename a0 into st4.
  injection H as <- <-.
  destruct (createChildren_extends _ (createNodeFromData_extends fuel) _ _ _ _ _ _ _ Ha1)
    as (m & E).
  rewrite E in Hn. cbn in Hn. injection Hn as <- _.
  exists schemaPath, score, connectionRules. eexists.
  split; [exact Ha|]. split; [exact Ha0|]. cbn. auto.
Qed.

End Extends.



End RoundTripFacts.

(** ** The canvas *)
Module CanvasFacts.
Import JS SchemaRelationships BuilderTypes DataModelExport ConnectionQueries BuilderCanvas.
Import Rules ExportShapeFacts Samples MoreSamples.

(** What holds of every entry of the map built from [nodes]. *)
Lemma instancesMap_entries (nodes : list Node) :
  List.NoDup (map fst (instancesMap nodes)) /\
  forall id inst,
    List.In (id, inst) (instancesMap nodes) ->
    inst_id inst = id /\
    exists node nodeData,
      List.In node nodes /\ node_id node = id /\ node_data node = Some nodeData /\
      nd_schemaPath nodeData = inst_schemaPath inst /\ inst_schemaPath inst <> "".
Proof.
  unfold instancesMap.
  assert (G : forall (m : InstanceMap) (done : list Node),
             (List.NoDup (map fst m) /\
              forall id inst,
                List.In (id, inst) m ->
                inst_id inst = id /\
                exists node nodeData,
                  List.In node done /\ node_id node = id /\ node_data node = Some nodeData /\
                  nd_schemaPath nodeData = inst_schemaPath inst /\
                  inst_schemaPath inst <> "") ->
             forall rest,
               let m' := fold_left
                 (fun m node =>
                    match node_data node with
                    | Some nodeData =>
                        if nonEmpty (nd_schemaPath nodeData) then
                          assign m (node_id node)
                            {| inst_id := node_id node;
                               inst_schemaPath := nd_schemaPath nodeData;
                               inst_position := node_position node;
                               inst_data := JObj [] |}
                        else m
                    | None => m
                    end) rest m in
               List.NoDup (map fst m') /\
               forall id inst,
                 List.In (id, inst) m' ->
                 inst_id inst = id /\
                 exists node nodeData,
                   List.In node (done ++ rest) /\ node_id node = id /\
                   node_data node = Some nodeData /\
                   nd_schemaPath nodeData = inst_schemaPath inst /\
                   inst_schemaPath inst <> "").
  { intros m done I rest. revert m done I.
    induction rest as [|node rest IH]; intros m done I; cbn [fold_left].
    - rewrite app_nil_r. exact I.
    - replace (done ++ node :: rest) with ((done ++ [node]) ++ rest)
        by (rewrite <- app_assoc; reflexivity).
      apply IH. destruct I as (ND & I).
      assert (Keep : forall id inst,
                 List.In (id, inst) m ->
                 inst_id inst = id /\
                 exists node0 nodeData,
                   List.In node0 (done ++ [node]) /\ node_id node0 = id /\
                   node_data node0 = Some nodeData /\
                   nd_schemaPath nodeData = inst_schemaPath inst /\
                   inst_schemaPath inst <> "").
      { intros id inst Hin. destruct (I id inst Hin) as (E & n0 & d0 & Hn & R).
        split; [exact E|]. exists n0, d0. split; [apply in_or_app; now left|exact R]. }
      destruct (node_data node) as [nodeData|] eqn:D; [|split; assumption].
      destruct (nonEmpty (nd_schemaPath nodeData)) eqn:NE; [|split; assumption].
      split; [now apply assign_keys|].
      intros id inst Hin.
      assert (X : (id, inst) = (node_id node,
                                {| inst_id := node_id node;
                                   inst_schemaPath := nd_schemaPath nodeData;
                                   inst_position := node_position node;
                                   inst_data := JObj [] |}) \/ List.In (id, inst) m).
      { clear - Hin. induction m as [|[k v] m IHm]; cbn [assign] in Hin.
        - destruct Hin as [E|[]]. left. now symmetry.
        - destruct (String.eqb_spec k (node_id node)) as [->|Hne].
          + destruct Hin as [E|Hin]; [left; now symmetry|right; now right].
          + destruct Hin as [E|Hin]; [right; now left|].
            destruct (IHm Hin) as [E|Hm]; [now left|right; now right]. }
      destruct X as [E|Hm]; [|now apply Keep].
      injection E as -> ->. cbn. split; [reflexivity|].
      exists node, nodeData. split; [apply in_or_app; right; now left|].
      repeat split; auto. unfold nonEmpty in NE.
      destruct (String.eqb_spec (nd_schemaPath nodeData) ""); [discriminate NE|assumption]. }
  apply (G [] []). split; [constructor|intros id inst []].
Qed.

Lemma instancesMap_holds (nodes : list Node) (node : Node) (nodeData : NodeData) :
  List.In node nodes -> node_data node = Some nodeData ->
  nonEmpty (nd_schemaPath nodeData) = true ->
  List.In (node_id node) (map fst (instancesMap nodes)).
Proof.
  unfold instancesMap.
  assert (G : forall rest (m : InstanceMap) id,
             List.In id (map fst m) ->
             List.In id (map fst (fold_left
               (fun m node =>
                  match node_data node with
                  | Some nodeData =>
                      if nonEmpty (nd_schemaPath nodeData) then
                        assign m (node_id node)
                          {| inst_id := node_id node;
                             inst_schemaPath := nd_schemaPath nodeData;
                             inst_position := node_position node;
                             inst_data := JObj [] |}
                      else m
                  | None => m
                  end) rest m))).
  { induction rest as [|n rest IH]; intros m id Hin; cbn [fold_left]; [exact Hin|].
    apply IH. destruct (node_data n) as [d|]; [|exact Hin].
    destruct (nonEmpty (nd_schemaPath d)); [|exact Hin].
    apply assign_In. now right. }
  generalize (@nil (string * DataInstance)).
  induction nodes as [|n rest IH]; intros m Hin D NE; [destruct Hin|].
  cbn [fold_left]. destruct Hin as [->|Hin]; [|now apply IH].
  rewrite D, NE. apply G. apply assign_In. now left.
Qed.

(** X17.  The map of instances the canvas hands to the validator and to the
    queries has pairwise distinct keys; each entry is keyed by the identifier
    of the instance it holds and carries the schema path, not empty, of a node
    with that identifier; and every node that has a schema path has an entry. *)
Theorem canvas_instances :
  forall (nodes : list Node),
    List.NoDup (map fst (instancesMap nodes)) /\
    (forall id inst,
        List.In (id, inst) (instancesMap nodes) ->
        inst_id inst = id /\
        exists node nodeData,
          List.In node nodes /\ node_id node = id /\ node_data node = Some nodeData /\
          nd_schemaPath nodeData = inst_schemaPath inst /\ inst_schemaPath inst <> "") /\
    (forall node nodeData,
        List.In node nodes -> node_data node = Some nodeData ->
        nd_schemaPath nodeData <> "" ->
        List.In (node_id node) (map fst (instancesMap nodes))).
Proof.
  intros nodes. destruct (instancesMap_entries nodes) as (ND & I).
  split; [exact ND|]. split; [exact I|].
  intros node nodeData Hin D NE. eapply instancesMap_holds; eauto.
  unfold nonEmpty. destruct (String.eqb_spec (nd_schemaPath nodeData) "");
    [contradiction|reflexivity].
Qed.

(** X18.  After [handleDeleteNode] the node is gone and no edge starts or
    ends at it; and if every edge joined two nodes of the canvas before, every
    edge that is left joins two nodes that are left. *)
Theorem deleted_node_leaves_no_edge :
  forall (instanceId : string) (nodes : list Node) (edges : list Edge),
    ~ List.In instanceId (map node_id (fst (handleDeleteNode instanceId nodes edges))) /\
    (forall e, List.In e (snd (handleDeleteNode instanceId nodes edges)) ->
               List.In e edges /\ source e <> instanceId /\ target e <> instanceId) /\
    (Joined nodes edges ->
     Joined (fst (handleDeleteNode instanceId nodes edges))
            (snd (handleDeleteNode instanceId nodes edges))).
Proof.
  intros instanceId nodes edges. unfold handleDeleteNode. cbn [fst snd].
  assert (E : forall e,
             List.In e (List.filter
                          (fun edge => negb (String.eqb (source edge) instanceId) &&
                                       negb (String.eqb (target edge) instanceId)) edges) ->
             List.In e edges /\ source e <> instanceId /\ target e <> instanceId).
  { intros e Hin. apply filter_In in Hin. destruct Hin as (Hin & B).
    apply andb_prop in B. destruct B as (B1 & B2).
    split; [exact Hin|].
    split; intros X; rewrite X, String.eqb_refl in *; discriminate. }
  assert (K : forall x, List.In x (map node_id nodes) -> x <> instanceId ->
                        List.In x (map node_id
                          (List.filter (fun node => negb (String.eqb (node_id node) instanceId))
                                       nodes))).
  { intros x Hin Hne. apply in_map_iff in Hin. destruct Hin as (n & <- & Hn).
    apply in_map. apply filter_In. split; [exact Hn|].
    destruct (String.eqb_spec (node_id n) instanceId); [contradiction|reflexivity]. }
  split; [|split; [exact E|]].
  - intros Hin. apply in_map_iff in Hin. destruct Hin as (n & <- & Hn).
    apply filter_In in Hn. destruct Hn as (_ & B). rewrite String.eqb_refl in B.
    discriminate B.
  - intros J e Hin. destruct (E e Hin) as (He & Hs & Ht).
    destruct (J e He) as (Js & Jt). split; apply K; assumption.
Qed.

End CanvasFacts.

(** ** Display names *)
Module DisplayNameFacts.
Import JS BuilderTypes DisplayNames StringFacts.

Lemma lower_upper (a : ascii) : lower (upper a) = lower a.
Proof. destruct a as [[] [] [] [] [] [] [] []]; reflexivity. Qed.

Lemma lower_separator (a : ascii) : isSeparator (lower a) = isSeparator a.
Proof. destruct a as [[] [] [] [] [] [] [] []]; reflexivity. Qed.

Lemma toLowerCase_app (x y : string) :
  toLowerCase (x +:+ y) = toLowerCase x +:+ toLowerCase y.
Proof.
  induction x as [|a x IH]; unfold_append; [reflexivity|].
  cbn [toLowerCase]. unfold_append. now rewrite IH.
Qed.

Lemma toLowerCase_capitalize (w : string) : toLowerCase (capitalize w) = toLowerCase w.
Proof. destruct w as [|a w]; [reflexivity|]. cbn. now rewrite lower_upper. Qed.

Lemma splitWords_nonempty (s : string) : splitWords s <> [].
Proof.
  destruct s as [|a s]; cbn [splitWords]; [discriminate|].
  destruct (isSeparator a); [discriminate|]. destruct (splitWords s); discriminate.
Qed.

Lemma join_cons (sep x : string) (l : list string) :
  join sep (x :: l) = x +:+ match l with [] => "" | _ :: _ => sep +:+ join sep l end.
Proof.
  unfold join. destruct l as [|y l]; cbn [String.concat].
  - induction x as [|a x IH]; unfold_append; [reflexivity|now rewrite <- IH].
  - reflexivity.
Qed.

(** The words of a stem, joined by spaces, are the stem with its separators
    replaced by spaces. *)
Lemma join_words (s : string) :
  toLowerCase (join " " (map capitalize (splitWords s))) = spaced (toLowerCase s).
Proof.
  induction s as [|a s IH]; [reflexivity|].
  cbn [splitWords toLowerCase spaced]. rewrite lower_separator.
  destruct (isSeparator a) eqn:Sep.
  - cbn [map]. rewrite join_cons. cbn [capitalize]. unfold_append.
    pose proof (splitWords_nonempty s) as Hne.
    destruct (map capitalize (splitWords s)) as [|w ws] eqn:E.
    { destruct (splitWords s); [contradiction|discriminate E]. }
    cbn [toLowerCase]. rewrite IH. reflexivity.
  - pose proof (splitWords_nonempty s) as Hne.
    destruct (splitWords s) as [|h t]; [contradiction|].
    cbn [map] in *. rewrite join_cons in *.
    cbn [capitalize]. unfold_append. cbn [toLowerCase]. rewrite lower_upper. f_equal.
    rewrite toLowerCase_app in *. now rewrite toLowerCase_capitalize in IH.
Qed.

Lemma toLowerCase_length (s : string) : String.length (toLowerCase s) = String.length s.
Proof. induction s as [|a s IH]; cbn; [reflexivity|now rewrite IH]. Qed.

Lemma spaced_length (s : string) : String.length (spaced s) = String.length s.
Proof. induction s as [|a s IH]; cbn; [reflexivity|now rewrite IH]. Qed.


Example display_name_example :
  getSchemaNameFromPath "v1/user/user-profile_data.schema.json" = "User Profile Data".
Proof. vm_compute. reflexivity. Qed.

End DisplayNameFacts.

(** ** Validation of data to import *)
Module ValidationFacts.
Import JS SchemaRelationships DataModelImport ImportValidation.
Import OutcomeFacts Samples MoreSamples.

Section Validating.
Variable toPropertyKey : json -> string.
Variable percent : Score -> string.

Lemma missing_none (data : jdata) (reqs : list json) (errors : list string) :
  missing toPropertyKey data reqs = Ret errors ->
  (errors = [] <->
   forall req, List.In req reqs -> hasProperty toPropertyKey data req = Ret true).
Proof using Type.
  revert errors. induction reqs as [|req rest IH]; intros errors H; cbn [missing] in H.
  - injection H as <-. split; [intros _ req []|reflexivity].
  - bind_inv H. bind_inv H. injection H as <-. specialize (IH _ Ha0).
    destruct a.
    + rewrite IH. split.
      * intros A x [<-|Hx]; [exact Ha|now apply A].
      * intros A x Hx. apply A. now right.
    + split; [discriminate|]. intros A. specialize (A req (or_introl eq_refl)). congruence.
Qed.

Lemma judge_mistyped (props : json) (key : string) (value : jdata) :
  judge props key value = mistyped <->
  startsWith key "_" = false /\
  exists propDef,
    member props key = Some propDef /\ truthy (Some propDef) = true /\
    truthy (getq (Some propDef) "$ref") = false /\
    is_str (getq (Some propDef) "type") "array" &&
      truthy (getq (getq (Some propDef) "items") "$ref") = false /\
    validateValue value propDef = false.
Proof.
  unfold judge. destruct (startsWith key "_").
  { split; [discriminate|]. intros (X & _). discriminate X. }
  destruct (member props key) as [propDef|].
  2:{ split; [discriminate|]. intros (_ & p & X & _). discriminate X. }
  destruct (truthy (Some propDef)) eqn:T; cbn [negb].
  2:{ split; [discriminate|]. intros (_ & p & X & T' & _). injection X as <-. congruence. }
  destruct (truthy (getq (Some propDef) "$ref")) eqn:R.
  { split; [discriminate|]. intros (_ & p & X & _ & R' & _). injection X as <-. congruence. }
  destruct (is_str (getq (Some propDef) "type") "array" &&
            truthy (getq (getq (Some propDef) "items") "$ref")) eqn:A.
  { split; [discriminate|].
    intros (_ & p & X & _ & _ & A' & _). injection X as <-. congruence. }
  destruct (validateValue value propDef) eqn:V; cbn [negb].
  - split; [discriminate|].
    intros (_ & p & X & _ & _ & _ & V'). injection X as <-. congruence.
  - split; [|reflexivity]. intros _. split; [reflexivity|]. exists propDef. auto.
Qed.

Lemma inspect_none (props : json) (fields : list (string * jdata)) :
  fst (inspect toPropertyKey props fields) = [] <->
  forall key value, List.In (key, value) fields -> judge props key value <> mistyped.
Proof using Type.
  induction fields as [|[k v] rest IH]; cbn [inspect].
  - split; [intros _ key value []|reflexivity].
  - destruct (inspect toPropertyKey props rest) as [errors warnings]. cbn [fst] in IH.
    destruct (judge props k v) eqn:J; cbn [fst].
    1,2,4: rewrite IH; split;
      [intros A key value [E|Hin]; [injection E as <- <-; congruence|now apply A]
      |intros A key value Hin; apply A; now right].
    split; [discriminate|]. intros A. exfalso. apply (A k v); [now left|exact J].
Qed.


Lemma validateItems_none (schemas : catalog) (items : list jdata) (i : nat)
  (r : list string * list string) :
  validateItems toPropertyKey percent schemas items i = Ret r ->
  (fst r = [] <->
   forall item, List.In item items ->
     (exists a fields, item = DObj a fields) /\
     exists m, findMatchingSchema toPropertyKey item schemas = Ret (Some m)).
Proof using Type.
  revert i r. induction items as [|item rest IH]; intros i r H; cbn [validateItems] in H.
  - injection H as <-. split; [intros _ item []|reflexivity].
  - destruct item as [| | | | |a fields].
    1-5: bind_inv H; injection H as <-; cbn [fst]; split; [discriminate|];
      intros A; destruct (A _ (or_introl eq_refl)) as ((a1 & f1 & X) & _); discriminate X.
    bind_inv H. bind_inv H. rename a0 into m, a1 into r1. specialize (IH _ _ Ha0).
    injection H as <-. destruct m as [[path score]|].
    + assert (E : fst (if score_lt_08 score
                       then (fst r1, (itemLabel i +:+ ": " +:+ partialMatch percent score)
                                     :: snd r1)
                       else r1) = fst r1) by (destruct (score_lt_08 score); reflexivity).
      rewrite E, IH. split.
      * intros A x [<-|Hx]; [|now apply A]. split; eauto.
      * intros A x Hx. apply A. now right.
    + cbn [fst]. split; [discriminate|]. intros A.
      destruct (A _ (or_introl eq_refl)) as (_ & m & X). congruence.
Qed.

(** X21.  For an array, [validateImportData] answers [valid: true] exactly
    when the array is not empty and each of its items is an object, not an
    array, for which [findMatchingSchema] finds a schema; a partial match only
    adds a warning. *)
Theorem validated_array_matches :
  forall (a : nat) (items : list jdata) (schemas : catalog) (r : ImportValidationResult),
    validateImportData toPropertyKey percent (DArr a items) schemas = Ret r ->
    (iv_valid r = true <->
     items <> [] /\
     forall item, List.In item items ->
       (exists a' fields, item = DObj a' fields) /\
       exists m, findMatchingSchema toPropertyKey item schemas = Ret (Some m)).
Proof using Type.
  intros a items schemas r H. cbn [validateImportData] in H.
  destruct items as [|item rest].
  - injection H as <-. cbn. split; [discriminate|]. intros (X & _). now contradiction X.
  - bind_inv H. injection H as <-. cbn [iv_valid].
    pose proof (validateItems_none _ _ _ _ Ha) as V.
    destruct (fst a0) as [|e es].
    + split; [|reflexivity]. intros _. split; [discriminate|]. now apply V.
    + split; [discriminate|]. intros (_ & A). apply V in A. discriminate A.
Qed.

End Validating.


(** An array with the user and a stray object is not valid. *)
Lemma validated_array_matches_witness :
  exists r,
    validateImportData sampleToKey samplePercent (DArr 0 [alData; strayData]) importCatalog
      = Ret r /\
    iv_errors r = ["Item 1: No matching schema found"] /\
    (iv_valid r = true <->
     [alData; strayData] <> [] /\
     forall item, List.In item [alData; strayData] ->
       (exists a' fields, item = DObj a' fields) /\
       exists m, findMatchingSchema sampleToKey item importCatalog = Ret (Some m)).
Proof.
  destruct (validateImportData sampleToKey samplePercent (DArr 0 [alData; strayData])
              importCatalog) as [r| |] eqn:E; [|vm_compute in E; discriminate E..].
  exists r. split; [reflexivity|].
  pose proof (validated_array_matches sampleToKey samplePercent _ _ _ _ E) as W.
  vm_compute in E. injection E as <-. split; [reflexivity|exact W].
Defined.

End ValidationFacts.
